(** * pf2e-graphics: the animation-data validator of [template.ts]

    The source file builds a tree of Zod schemas (primitive validators, the
    predicate grammar, effect options, animation objects, token images) and
    drives them from [validateAnimationData]; [getJSONSchema] hands two of
    them to zod-to-json-schema.

    The development follows that layering:
    - parsed JSON values and the JavaScript built-ins the file relies on
      ([typeof], truthiness, [JSON.stringify], [for .. in] key order);
    - the regular expressions, as terms matched by Brzozowski derivatives;
    - the fragment of Zod 3 the file uses: schemas are data, exactly as in
      the source, and [parse] interprets them ([_parse], [ParseStatus],
      [safeParse]);
    - the schemas of the file, in source order;
    - [validateAnimationData] and [getJSONSchema];
    - the properties.

    Modelling scope.  Numbers are the integers, printed in plain decimal.
    On the safe integers (at most 2^53 - 1 in absolute value) they are the
    doubles of the program: same order, same equality, same text under
    [JSON.stringify], and [.int()] holds of each.  Outside that range, and
    for fractions, they are not; a statement that compares two numbers of
    the input with each other, or that relies on telling numbers apart by
    their text, is therefore stated for safe integers ([safeNumbers]).
    Strings are sequences of [ascii] code units, and [length] counts them;
    a character outside ASCII only ever meets the negated character classes
    of the patterns.  An object is the list of its own enumerable
    properties in enumeration order. *)

From Stdlib Require Import List String Ascii ZArith Bool Arith Lia Permutation.
From Stdlib Require Import DecimalString DecimalZ DecimalPos.
Import ListNotations.

#[local] Open Scope string_scope.
#[local] Open Scope list_scope.

(* ================================================================= *)
(** ** Parsed JSON *)

Unset Elimination Schemes.
Inductive json : Type :=
| JNull
| JBool (b : bool)
| JNum (n : Z)
| JStr (s : string)
| JArr (items : list json)
| JObj (props : list (string * json)).
Set Elimination Schemes.

(** The nested occurrences need an induction principle of their own. *)
Definition json_ind (P : json -> Prop)
  (fnull : P JNull)
  (fbool : forall b, P (JBool b))
  (fnum : forall n, P (JNum n))
  (fstr : forall s, P (JStr s))
  (farr : forall items, Forall P items -> P (JArr items))
  (fobj : forall props, Forall (fun kv => P (snd kv)) props -> P (JObj props))
  : forall j, P j :=
  fix F (j : json) : P j :=
    match j with
    | JNull => fnull
    | JBool b => fbool b
    | JNum n => fnum n
    | JStr s => fstr s
    | JArr items =>
        farr items
          ((fix G (l : list json) : Forall P l :=
              match l with
              | [] => Forall_nil _
              | x :: l' => Forall_cons x (F x) (G l')
              end) items)
    | JObj props =>
        fobj props
          ((fix G (l : list (string * json)) : Forall (fun kv => P (snd kv)) l :=
              match l with
              | [] => Forall_nil _
              | kv :: l' => Forall_cons kv (F (snd kv)) (G l')
              end) props)
    end.

(** A JavaScript value that may be [undefined]. *)
Definition jsvalue := option json.
Definition undefined : jsvalue := None.

(** [obj[key]] on the own properties. *)
Fixpoint getProp {A : Type} (key : string) (props : list (string * A)) : option A :=
  match props with
  | [] => None
  | (k, v) :: rest => if String.eqb k key then Some v else getProp key rest
  end.

(** [key in obj]. *)
Definition hasProp {A : Type} (key : string) (props : list (string * A)) : bool :=
  existsb (String.eqb key) (map fst props).

(** The keys a [for (const key in obj)] loop visits. *)
Definition ownKeys {A : Type} (props : list (string * A)) : list string :=
  map fst props.

Definition includes (keys : list string) (key : string) : bool :=
  existsb (String.eqb key) keys.

(** [typeof]. *)
Definition typeof (v : jsvalue) : string :=
  match v with
  | None => "undefined"
  | Some JNull => "object"
  | Some (JBool _) => "boolean"
  | Some (JNum _) => "number"
  | Some (JStr _) => "string"
  | Some (JArr _) => "object"
  | Some (JObj _) => "object"
  end.

Definition isArray (v : json) : bool :=
  match v with JArr _ => true | _ => false end.

(** [a === p] where [p] is a primitive: never true of an array or an object. *)
Definition strictEquals (a p : json) : bool :=
  match a, p with
  | JNull, JNull => true
  | JBool x, JBool y => Bool.eqb x y
  | JNum x, JNum y => Z.eqb x y
  | JStr x, JStr y => String.eqb x y
  | _, _ => false
  end.

(** ToBoolean. *)
Definition truthy (v : jsvalue) : bool :=
  match v with
  | None => false
  | Some JNull => false
  | Some (JBool b) => b
  | Some (JNum n) => negb (Z.eqb n 0)
  | Some (JStr s) => negb (String.eqb s "")
  | Some (JArr _) => true
  | Some (JObj _) => true
  end.

(* ----------------------------------------------------------------- *)
(** *** [JSON.stringify] *)

Definition hexDigit (n : nat) : ascii :=
  match n with
  | 0 => "0" | 1 => "1" | 2 => "2" | 3 => "3" | 4 => "4" | 5 => "5"
  | 6 => "6" | 7 => "7" | 8 => "8" | 9 => "9" | 10 => "a" | 11 => "b"
  | 12 => "c" | 13 => "d" | 14 => "e" | _ => "f"
  end%char.

(** QuoteJSONString, one code unit at a time. *)
Definition quoteChar (c : ascii) : string :=
  let n := nat_of_ascii c in
  if Nat.eqb n 8 then "\b"
  else if Nat.eqb n 9 then "\t"
  else if Nat.eqb n 10 then "\n"
  else if Nat.eqb n 12 then "\f"
  else if Nat.eqb n 13 then "\r"
  else if Nat.eqb n 34 then "\" ++ String c ""
  else if Nat.eqb n 92 then "\\"
  else if Nat.ltb n 32 then
    "\u00" ++ String (hexDigit (n / 16)) (String (hexDigit (n mod 16)) "")
  else String c "".

Fixpoint quoteBody (s : string) : string :=
  match s with
  | EmptyString => ""
  | String c rest => quoteChar c ++ quoteBody rest
  end.

Definition dquote : ascii := ascii_of_nat 34.

Definition quoteJSONString (s : string) : string :=
  String dquote (quoteBody s ++ String dquote "").

(** [Number::toString] as it prints a safe integer: in plain decimal. *)
Definition numberToString (n : Z) : string :=
  NilEmpty.string_of_int (Z.to_int n).

Fixpoint joinWith (sep : string) (parts : list string) : string :=
  match parts with
  | [] => ""
  | [x] => x
  | x :: rest => x ++ sep ++ joinWith sep rest
  end.

Fixpoint stringify (j : json) : string :=
  match j with
  | JNull => "null"
  | JBool true => "true"
  | JBool false => "false"
  | JNum n => numberToString n
  | JStr s => quoteJSONString s
  | JArr items => "[" ++ joinWith "," (map stringify items) ++ "]"
  | JObj props =>
      "{" ++ joinWith ","
               (map (fun kv : string * json =>
                       let (k, v) := kv in
                       (quoteJSONString k ++ ":" ++ stringify v)%string) props)
          ++ "}"
  end.

(** [new Set(xs).size] over strings. *)
Definition setSize (xs : list string) : nat :=
  List.length (nodup string_dec xs).

(* ================================================================= *)
(** ** Regular expressions *)

Module Regex.

Definition charClass := ascii -> bool.

Inductive regex : Type :=
| Never
| Eps
| Class (c : charClass)
| Seq (r1 r2 : regex)
| Alt (r1 r2 : regex)
| Star (r : regex).

Definition Plus (r : regex) : regex := Seq r (Star r).
Definition Opt (r : regex) : regex := Alt r Eps.

Fixpoint Times (n : nat) (r : regex) : regex :=
  match n with
  | 0 => Eps
  | S n' => Seq r (Times n' r)
  end.

(** Character classes. *)
Definition range (lo hi : ascii) : charClass :=
  fun c => Nat.leb (nat_of_ascii lo) (nat_of_ascii c)
           && Nat.leb (nat_of_ascii c) (nat_of_ascii hi).
Definition chr (x : ascii) : charClass := Ascii.eqb x.
Fixpoint oneOf (s : string) : charClass :=
  fun c => match s with
           | EmptyString => false
           | String x rest => Ascii.eqb x c || oneOf rest c
           end.
Definition cup (a b : charClass) : charClass := fun c => a c || b c.
Definition noneOf (s : string) : charClass := fun c => negb (oneOf s c).

(** [\d] and [\w]. *)
Definition digit : charClass := range "0" "9".
Definition word : charClass :=
  cup (range "a" "z") (cup (range "A" "Z") (cup digit (chr "_"))).

Definition lit (x : ascii) : regex := Class (chr x).

Fixpoint nullable (r : regex) : bool :=
  match r with
  | Never => false
  | Eps => true
  | Class _ => false
  | Seq a b => nullable a && nullable b
  | Alt a b => nullable a || nullable b
  | Star _ => true
  end.

Definition seq' (a b : regex) : regex :=
  match a with
  | Never => Never
  | Eps => b
  | _ => Seq a b
  end.

Definition alt' (a b : regex) : regex :=
  match a, b with
  | Never, _ => b
  | _, Never => a
  | _, _ => Alt a b
  end.

Fixpoint deriv (c : ascii) (r : regex) : regex :=
  match r with
  | Never => Never
  | Eps => Never
  | Class p => if p c then Eps else Never
  | Seq a b =>
      alt' (seq' (deriv c a) b) (if nullable a then deriv c b else Never)
  | Alt a b => alt' (deriv c a) (deriv c b)
  | Star a => seq' (deriv c a) (Star a)
  end.

(** [/^r$/.test(s)]: without the [m] flag the anchors delimit the whole
    input. *)
Fixpoint test (r : regex) (s : string) : bool :=
  match s with
  | EmptyString => nullable r
  | String c rest => test (deriv c r) rest
  end.

(** The [i] flag on patterns whose classes are ASCII. *)
Definition swapCase (c : ascii) : ascii :=
  let n := nat_of_ascii c in
  if Nat.leb 65 n && Nat.leb n 90 then ascii_of_nat (n + 32)
  else if Nat.leb 97 n && Nat.leb n 122 then ascii_of_nat (n - 32)
  else c.

Fixpoint ignoreCase (r : regex) : regex :=
  match r with
  | Class p => Class (fun c => p c || p (swapCase c))
  | Seq a b => Seq (ignoreCase a) (ignoreCase b)
  | Alt a b => Alt (ignoreCase a) (ignoreCase b)
  | Star a => Star (ignoreCase a)
  | other => other
  end.

End Regex.

(* ================================================================= *)
(** ** Zod: issues *)

Inductive pathItem : Type :=
| PKey (key : string)
| PIndex (index : nat).

Definition path := list pathItem.

(** A [ZodIssue].  [message] is [Some] text when the schema (or the caller)
    supplies it and [None] when Zod's default error map words it. *)
Unset Elimination Schemes.
Inductive ZodIssue : Type :=
| mkIssue (code : ZodIssueCode) (at_ : path) (message : option string)
with ZodIssueCode : Type :=
| invalid_type (expected received : string)
| invalid_literal (expected : json) (received : jsvalue)
| unrecognized_keys (keys : list string)
| invalid_union (unionErrors : list (list ZodIssue))
| invalid_union_discriminator (options : list json)
| invalid_enum_value (options : list string) (received : string)
| invalid_string (validation : string)
| too_small (type : string) (minimum : Z) (inclusive exact : bool)
| too_big (type : string) (maximum : Z) (inclusive exact : bool)
| custom.
Set Elimination Schemes.

Definition issueCode (i : ZodIssue) : ZodIssueCode :=
  let (c, _, _) := i in c.
Definition issuePath (i : ZodIssue) : path :=
  let (_, p, _) := i in p.
Definition issueMessage (i : ZodIssue) : option string :=
  let (_, _, m) := i in m.

(** [{ ...issue, path }]. *)
Definition withPath (p : path) (i : ZodIssue) : ZodIssue :=
  mkIssue (issueCode i) p (issueMessage i).

(** What a refinement hands to [ctx.addIssue]: the path is relative to the
    value under refinement. *)
Record IssueData : Type := mkIssueData {
  dataCode : ZodIssueCode;
  dataPath : path;
  dataMessage : option string;
  fatal : bool
}.

(** [makeIssue]: the full path is the context path followed by the issue's. *)
Definition makeIssue (p : path) (d : IssueData) : ZodIssue :=
  mkIssue (dataCode d) (p ++ dataPath d) (dataMessage d).

(* ================================================================= *)
(** ** Zod: schemas

    A schema is a value, as in the source.  [z.lazy(() => s)] cannot be a
    closure over the schema being defined, so a lazy position names its
    getter; every [z.lazy] of the file sits where a property or an element
    is validated, which is where [child] is used. *)

Inductive lazyName : Type :=
| LPredicate          (* () => predicate *)
| LPredicates         (* () => z.array(predicate).min(1).refine(...uniqueItems) *)
| LAnimationObject    (* animationObject, inside its own closure *)
| LContents.          (* () => z.array(animationObject).min(1).refine(...uniqueItems) *)

Inductive StringCheck : Type :=
| SMin (value : nat) (message : option string)
| SRegex (pattern : Regex.regex) (message : option string).

Inductive NumberCheck : Type :=
| NInt
| NMin (value : Z) (inclusive : bool)
| NMax (value : Z) (inclusive : bool).

Inductive UnknownKeysParam : Type := unknownKeys_strip | unknownKeys_strict.

Unset Elimination Schemes.
Inductive schema : Type :=
| ZodString (checks : list StringCheck)
| ZodNumber (checks : list NumberCheck)
| ZodBoolean
| ZodNull
| ZodUndefined
| ZodLiteral (value : json)
| ZodEnum (values : list string)
| ZodObject (shape : list (string * child)) (unknownKeys : UnknownKeysParam)
| ZodArray (type : child) (minLength : option nat)
| ZodTuple (items : list child)
| ZodRecord (keyType : schema) (valueType : child)
| ZodUnion (options : list schema)
| ZodDiscriminatedUnion (discriminator : string) (options : list (string * schema))
| ZodOptional (innerType : schema)
| ZodEffects (inner : schema) (refinement : json -> list IssueData)
with child : Type :=
| Now (s : schema)
| Lazy (getter : lazyName)             (* z.lazy(getter) *)
| LazyOptional (getter : lazyName).    (* z.lazy(getter).optional() *)
Set Elimination Schemes.

(* ----------------------------------------------------------------- *)
(** *** The builder methods the file calls *)

Module z.
Definition string : schema := ZodString [].
Definition number : schema := ZodNumber [].
Definition boolean : schema := ZodBoolean.
Definition null : schema := ZodNull.
Definition undefined : schema := ZodUndefined.
Definition literal (v : json) : schema := ZodLiteral v.
Definition enum (values : list String.string) : schema := ZodEnum values.
(** [z.object(shape)] strips unknown keys until [.strict()] is called. *)
Definition object (shape : list (String.string * child)) : schema :=
  ZodObject shape unknownKeys_strip.
Definition array (type : child) : schema := ZodArray type None.
Definition tuple (items : list child) : schema := ZodTuple items.
Definition record (keyType : schema) (valueType : child) : schema :=
  ZodRecord keyType valueType.
Definition union (options : list schema) : schema := ZodUnion options.
Definition discriminatedUnion (d : String.string) (options : list (String.string * schema))
  : schema := ZodDiscriminatedUnion d options.
End z.

(** [key: schema] in a shape. *)
Definition prop (key : string) (s : schema) : string * child := (key, Now s).

Module Methods.

(** [.regex(r, message)], [.min(n, message)] on strings. *)
Definition addStringCheck (c : StringCheck) (s : schema) : schema :=
  match s with
  | ZodString checks => ZodString (checks ++ [c])
  | other => other
  end.
Definition regex (r : Regex.regex) (message : string) : schema -> schema :=
  addStringCheck (SRegex r (Some message)).
Definition minWith (n : nat) (message : string) : schema -> schema :=
  addStringCheck (SMin n (Some message)).

(** [.int()], [.gt()], [.gte()]/[.min()], [.lt()], [.lte()], [.positive()]. *)
Definition addNumberCheck (c : NumberCheck) (s : schema) : schema :=
  match s with
  | ZodNumber checks => ZodNumber (checks ++ [c])
  | other => other
  end.
Definition int : schema -> schema := addNumberCheck NInt.
Definition gt (v : Z) : schema -> schema := addNumberCheck (NMin v false).
Definition gte (v : Z) : schema -> schema := addNumberCheck (NMin v true).
Definition lt (v : Z) : schema -> schema := addNumberCheck (NMax v false).
Definition lte (v : Z) : schema -> schema := addNumberCheck (NMax v true).
Definition positive : schema -> schema := gt 0.

(** [.min(n)]: a length on arrays and strings, [.gte(n)] on numbers. *)
Definition min (n : nat) (s : schema) : schema :=
  match s with
  | ZodArray type _ => ZodArray type (Some n)
  | ZodString checks => ZodString (checks ++ [SMin n None])
  | ZodNumber checks => ZodNumber (checks ++ [NMin (Z.of_nat n) true])
  | other => other
  end.

(** [.strict()], [.optional()], [.or()], [.extend()], [.partial()]. *)
Definition strict (s : schema) : schema :=
  match s with
  | ZodObject shape _ => ZodObject shape unknownKeys_strict
  | other => other
  end.
Definition optional (s : schema) : schema := ZodOptional s.
Definition or (other self : schema) : schema := ZodUnion [self; other].
(** [.describe(text)] only annotates the schema. *)
Definition describe (text : string) (self : schema) : schema := self.
(** [{ ...shape, ...augmentation }]: an overridden key keeps its place. *)
Definition extend (augmentation : list (string * child)) (s : schema) : schema :=
  match s with
  | ZodObject shape uk =>
      ZodObject
        (map (fun kc : string * child =>
                match getProp (fst kc) augmentation with
                | Some c => (fst kc, c)
                | None => kc
                end) shape
         ++ filter (fun kc => negb (includes (map fst shape) (fst kc))) augmentation)
        uk
  | other => other
  end.
Definition partial (s : schema) : schema :=
  match s with
  | ZodObject shape uk =>
      ZodObject
        (map (fun kc : string * child =>
                let (k, c) := kc in
                (k, match c with
                    | Now t => Now (ZodOptional t)
                    | Lazy n => LazyOptional n
                    | LazyOptional n => LazyOptional n
                    end))
             shape) uk
  | other => other
  end.

(** [.refine(check, message)] and [.refine(check, { path, message })]: a
    custom issue when the check's result is falsy. *)
Definition refineAt (relPath : path) (check : json -> bool) (message : string)
    (s : schema) : schema :=
  ZodEffects s
    (fun v => if check v then [] else [mkIssueData custom relPath (Some message) false]).
Definition refine (check : json -> bool) (message : string) : schema -> schema :=
  refineAt [] check message.
(** [.superRefine(f)]. *)
Definition superRefine (f : json -> list IssueData) (s : schema) : schema :=
  ZodEffects s f.

End Methods.

(** Method-call syntax: [s |> f] is [s.f]. *)
Notation "s |> f" := (f s) (at level 45, left associativity, only parsing).

(* ================================================================= *)
(** ** Zod: parsing *)

Inductive ParseStatus : Type := valid | dirty | aborted.

(** A [SyncParseReturnType] together with the issues the call added to
    [ctx.common.issues], in the order of the [addIssueToContext] calls. *)
Record ParseReturn : Type := mkReturn {
  status : ParseStatus;
  value : jsvalue;
  issues : list ZodIssue
}.

Definition OK (v : jsvalue) : ParseReturn := mkReturn valid v [].
Definition INVALID (added : list ZodIssue) : ParseReturn := mkReturn aborted None added.

Definition isValid (r : ParseReturn) : bool :=
  match status r with valid => true | _ => false end.
Definition isDirty (r : ParseReturn) : bool :=
  match status r with dirty => true | _ => false end.
Definition isAborted (r : ParseReturn) : bool :=
  match status r with aborted => true | _ => false end.

(** [status.dirty()] after each added issue. *)
Definition dirtyIf (added : list ZodIssue) (st : ParseStatus) : ParseStatus :=
  match added, st with
  | _ :: _, valid => dirty
  | _, _ => st
  end.

(** How a value under validation is seen by one schema node: its type, its
    primitive content, and for each element or property the parser of that
    child (a missing property is parsed as [undefined]). *)
Definition kid : Type := schema -> path -> ParseReturn.

Inductive dataView : Type :=
| VUndefined
| VNull
| VBool (b : bool)
| VNum (n : Z)
| VStr (s : string)
| VArr (raw : list json) (elems : list kid)
| VObj (raw : list (string * json)) (get : string -> kid).

Definition dataOf (d : dataView) : jsvalue :=
  match d with
  | VUndefined => None
  | VNull => Some JNull
  | VBool b => Some (JBool b)
  | VNum n => Some (JNum n)
  | VStr s => Some (JStr s)
  | VArr raw _ => Some (JArr raw)
  | VObj raw _ => Some (JObj raw)
  end.

(** [getParsedType]. *)
Definition getParsedType (d : dataView) : string :=
  match d with
  | VUndefined => "undefined"
  | VNull => "null"
  | VBool _ => "boolean"
  | VNum _ => "number"
  | VStr _ => "string"
  | VArr _ _ => "array"
  | VObj _ _ => "object"
  end.

Definition typeMismatch (expected : string) (d : dataView) (p : path) : ParseReturn :=
  INVALID [mkIssue (invalid_type expected (getParsedType d)) p None].

(** [util.joinValues]. *)
Definition joinValues (values : list string) : string :=
  joinWith " | " (map (fun v => ("'" ++ v ++ "'")%string) values).

(** The checks of [ZodString._parse]; [length] counts code units. *)
Definition stringCheck (p : path) (s : string) (c : StringCheck) : list ZodIssue :=
  match c with
  | SMin n m =>
      if Nat.ltb (String.length s) n
      then [mkIssue (too_small "string" (Z.of_nat n) true false) p m]
      else []
  | SRegex r m =>
      if Regex.test r s then [] else [mkIssue (invalid_string "regex") p m]
  end.

(** The checks of [ZodNumber._parse].  [int] finds nothing: every number
    here is an integer, as every safe integer is for the program. *)
Definition numberCheck (p : path) (n : Z) (c : NumberCheck) : list ZodIssue :=
  match c with
  | NInt => []
  | NMin v inclusive =>
      if (if inclusive then Z.ltb n v else Z.leb n v)
      then [mkIssue (too_small "number" v inclusive false) p None]
      else []
  | NMax v inclusive =>
      if (if inclusive then Z.gtb n v else Z.geb n v)
      then [mkIssue (too_big "number" v inclusive false) p None]
      else []
  end.

Definition checked (v : json) (added : list ZodIssue) : ParseReturn :=
  mkReturn (dirtyIf added valid) (Some v) added.

(** [ParseStatus.mergeArray]. *)
Definition mergeArray (st : ParseStatus) (added : list ZodIssue)
    (results : list ParseReturn) : ParseReturn :=
  if existsb isAborted results then INVALID added
  else mkReturn (if existsb isDirty results then dirty else st)
         (Some (JArr (flat_map (fun r => match value r with
                                         | Some v => [v]
                                         | None => []
                                         end) results)))
         added.

(** [ParseStatus.mergeObjectSync]; a property whose value is [undefined] is
    not part of the parsed JSON. *)
Definition mergeObjectSync (st : ParseStatus) (added : list ZodIssue)
    (pairs : list (string * ParseReturn)) : ParseReturn :=
  if existsb isAborted (map snd pairs) then INVALID added
  else mkReturn (if existsb isDirty (map snd pairs) then dirty else st)
         (Some (JObj (flat_map (fun kr : string * ParseReturn =>
                                  match value (snd kr) with
                                  | Some v => [(fst kr, v)]
                                  | None => []
                                  end) pairs)))
         added.

(** [ZodUnion._parse]: the first valid option wins; failing that the first
    dirty one, whose issues are reported; failing that one [invalid_union]
    issue carrying the issues of every option. *)
Definition unionResult (p : path) (results : list ParseReturn) : ParseReturn :=
  match find isValid results with
  | Some r => mkReturn valid (value r) []
  | None =>
      match find isDirty results with
      | Some r => r
      | None =>
          INVALID
            [mkIssue
               (invalid_union
                  (filter (fun l => negb (Nat.eqb (List.length l) 0))
                          (map issues results)))
               p None]
      end
  end.

(** [ZodEffects._parse] for a refinement. *)
Definition refined (p : path) (refinement : json -> list IssueData)
    (r : ParseReturn) : ParseReturn :=
  match status r, value r with
  | aborted, _ => INVALID (issues r)
  | st, Some v =>
      let found := refinement v in
      mkReturn (if existsb fatal found then aborted
                else dirtyIf (map (makeIssue p) found) st)
               (Some v)
               (issues r ++ map (makeIssue p) found)
  | _, None => r
  end.

Section Parse.

(** The getters of the [z.lazy] closures. *)
Variable getter : lazyName -> schema.

Definition resolve (c : child) : schema :=
  match c with
  | Now s => s
  | Lazy n => getter n
  | LazyOptional n => ZodOptional (getter n)
  end.

Fixpoint parseView (d : dataView) (s : schema) (p : path) {struct s} : ParseReturn :=
  match s with
  | ZodString checks =>
      match d with
      | VStr x => checked (JStr x) (flat_map (stringCheck p x) checks)
      | _ => typeMismatch "string" d p
      end
  | ZodNumber checks =>
      match d with
      | VNum n => checked (JNum n) (flat_map (numberCheck p n) checks)
      | _ => typeMismatch "number" d p
      end
  | ZodBoolean =>
      match d with
      | VBool b => OK (Some (JBool b))
      | _ => typeMismatch "boolean" d p
      end
  | ZodNull =>
      match d with
      | VNull => OK (Some JNull)
      | _ => typeMismatch "null" d p
      end
  | ZodUndefined =>
      match d with
      | VUndefined => OK None
      | _ => typeMismatch "undefined" d p
      end
  | ZodLiteral v =>
      match dataOf d with
      | Some x =>
          if strictEquals x v then OK (Some x)
          else INVALID [mkIssue (invalid_literal v (Some x)) p None]
      | None => INVALID [mkIssue (invalid_literal v None) p None]
      end
  | ZodEnum values =>
      match d with
      | VStr x =>
          if includes values x then OK (Some (JStr x))
          else INVALID [mkIssue (invalid_enum_value values x) p None]
      | _ => typeMismatch (joinValues values) d p
      end
  | ZodObject shape unknownKeys =>
      match d with
      | VObj raw get =>
          let pairs :=
            map (fun kc : string * child =>
                   (fst kc, get (fst kc) (resolve (snd kc)) (p ++ [PKey (fst kc)])))
                shape in
          let extraKeys :=
            filter (fun k => negb (includes (map fst shape) k)) (ownKeys raw) in
          let unrecognized :=
            match unknownKeys, extraKeys with
            | unknownKeys_strict, _ :: _ =>
                [mkIssue (unrecognized_keys extraKeys) p None]
            | _, _ => []
            end in
          mergeObjectSync (dirtyIf unrecognized valid)
            (flat_map (fun kr => issues (snd kr)) pairs ++ unrecognized) pairs
      | _ => typeMismatch "object" d p
      end
  | ZodArray type minLength =>
      match d with
      | VArr raw elems =>
          let tooShort :=
            match minLength with
            | Some n =>
                if Nat.ltb (List.length raw) n
                then [mkIssue (too_small "array" (Z.of_nat n) true false) p None]
                else []
            | None => []
            end in
          let results :=
            map (fun ie : nat * kid => snd ie (resolve type) (p ++ [PIndex (fst ie)]))
                (combine (seq 0 (List.length elems)) elems) in
          mergeArray (dirtyIf tooShort valid)
            (tooShort ++ flat_map issues results) results
      | _ => typeMismatch "array" d p
      end
  | ZodTuple items =>
      match d with
      | VArr raw elems =>
          if Nat.ltb (List.length raw) (List.length items)
          then INVALID
                 [mkIssue (too_small "array" (Z.of_nat (List.length items)) true false)
                    p None]
          else
            let tooLong :=
              if Nat.ltb (List.length items) (List.length raw)
              then [mkIssue (too_big "array" (Z.of_nat (List.length items)) true false)
                      p None]
              else [] in
            let results :=
              map (fun iec : nat * (kid * child) =>
                     fst (snd iec) (resolve (snd (snd iec))) (p ++ [PIndex (fst iec)]))
                  (combine (seq 0 (List.length elems)) (combine elems items)) in
            mergeArray (dirtyIf tooLong valid)
              (tooLong ++ flat_map issues results) results
      | _ => typeMismatch "array" d p
      end
  | ZodRecord keyType valueType =>
      match d with
      | VObj raw get =>
          let pairs :=
            map (fun k =>
                   (parseView (VStr k) keyType (p ++ [PKey k]),
                    get k (resolve valueType) (p ++ [PKey k])))
                (ownKeys raw) in
          let added :=
            flat_map (fun kv : ParseReturn * ParseReturn =>
                        issues (fst kv) ++ issues (snd kv)) pairs in
          if existsb (fun kv : ParseReturn * ParseReturn =>
                        isAborted (fst kv) || isAborted (snd kv)) pairs
          then INVALID added
          else mkReturn
                 (if existsb (fun kv : ParseReturn * ParseReturn =>
                                isDirty (fst kv) || isDirty (snd kv)) pairs
                  then dirty else valid)
                 (Some (JObj (flat_map
                                (fun kv : ParseReturn * ParseReturn =>
                                   match value (fst kv), value (snd kv) with
                                   | Some (JStr k), Some v => [(k, v)]
                                   | _, _ => []
                                   end) pairs)))
                 added
      | _ => typeMismatch "object" d p
      end
  | ZodUnion options =>
      unionResult p (map (fun o => parseView d o p) options)
  | ZodDiscriminatedUnion discriminator options =>
      match d with
      | VObj raw get =>
          let parsed :=
            map (fun lo : string * schema => (fst lo, parseView d (snd lo) p)) options in
          match getProp discriminator raw with
          | Some (JStr tag) =>
              match getProp tag parsed with
              | Some r => r
              | None =>
                  INVALID
                    [mkIssue (invalid_union_discriminator (map (fun lo => JStr (fst lo)) options))
                       (p ++ [PKey discriminator]) None]
              end
          | _ =>
              INVALID
                [mkIssue (invalid_union_discriminator (map (fun lo => JStr (fst lo)) options))
                   (p ++ [PKey discriminator]) None]
          end
      | _ => typeMismatch "object" d p
      end
  | ZodOptional innerType =>
      match d with
      | VUndefined => OK None
      | _ => parseView d innerType p
      end
  | ZodEffects inner refinement =>
      refined p refinement (parseView d inner p)
  end.

(** [schema._parse] on a parsed JSON value: each child is parsed by the
    schema the node picks for it, a missing property as [undefined]. *)
Fixpoint parse (j : json) : kid :=
  parseView
    match j with
    | JNull => VNull
    | JBool b => VBool b
    | JNum n => VNum n
    | JStr s => VStr s
    | JArr items => VArr items (map parse items)
    | JObj props =>
        VObj props
          (fun key =>
             match getProp key (map (fun kv : string * json =>
                                       let (k, v) := kv in (k, parse v)) props) with
             | Some f => f
             | None => parseView VUndefined
             end)
    end.

(** [safeParse]: [handleResult] throws when the status is not valid and no
    issue was recorded. *)
Inductive SafeParseReturn : Type :=
| SafeParseSuccess (data : jsvalue)
| SafeParseError (error : list ZodIssue)
| SafeParseThrows (message : string).

Definition handleResult (r : ParseReturn) : SafeParseReturn :=
  if isValid r then SafeParseSuccess (value r)
  else match issues r with
       | [] => SafeParseThrows "Validation failed but no issues detected."
       | _ :: _ => SafeParseError (issues r)
       end.

Definition parseValue (data : jsvalue) : kid :=
  match data with
  | Some j => parse j
  | None => parseView VUndefined
  end.

Definition safeParse (s : schema) (data : jsvalue) : SafeParseReturn :=
  handleResult (parseValue data s []).

End Parse.

(* ================================================================= *)
(** ** template.ts: helper validation functions *)

(** The array, resp. the property, a refinement callback reads; the
    refined schema decides which kind of value reaches the callback. *)
Definition asArray (v : json) : list json :=
  match v with JArr items => items | _ => [] end.
Definition field (key : string) (v : json) : jsvalue :=
  match v with JObj props => getProp key props | _ => None end.
Definition element (i : nat) (v : json) : jsvalue := nth_error (asArray v) i.

(** [a !== b] and [a > b] on the numbers (or [undefined]) the callbacks
    compare. *)
Definition strictDiffers (a b : jsvalue) : bool :=
  match a, b with
  | Some x, Some y => negb (strictEquals x y)
  | None, None => false
  | _, _ => true
  end.
Definition greater (a b : jsvalue) : bool :=
  match a, b with
  | Some (JNum x), Some (JNum y) => Z.gtb x y
  | _, _ => false
  end.

Definition nonZero : (json -> bool) * string :=
  (fun num => negb (strictEquals num (JNum 0)),
   "Number cannot be 0. If you want the value to be 0, simply leave the property undefined.").

(** [for (const _key in obj) return true; return false]. *)
Definition nonEmpty : (json -> bool) * string :=
  (fun obj => match obj with
              | JObj (_ :: _) => true
              | JArr (_ :: _) => true
              | JStr (String _ _) => true
              | _ => false
              end,
   "Object must not be empty.").

Definition uniqueItems : (list json -> bool) * string :=
  (fun arr => Nat.eqb (setSize (map stringify arr)) (List.length arr),
   "Items must be unique.").

(** [.refine(...helper)]. *)
Definition refine' (helper : (json -> bool) * string) : schema -> schema :=
  Methods.refine (fst helper) (snd helper).
Definition refineArray (helper : (list json -> bool) * string) : schema -> schema :=
  Methods.refine (fun v => fst helper (asArray v)) (snd helper).

(* ================================================================= *)
(** ** template.ts: the patterns *)

Module Patterns.
Import Regex.

Fixpoint cat (rs : list regex) : regex :=
  match rs with
  | [] => Eps
  | [r] => r
  | r :: rest => Seq r (cat rest)
  end.

(** [[a-z0-9]]. *)
Definition lowerDigit : charClass := cup (range "a" "z") digit.
(** [[\w-]]. *)
Definition wordDash : charClass := cup word (chr "-").
(** The negated class of the file-path pattern: any code unit but the
    double quote, [:], [<], [>], [?], the backslash, [|] and [/]. *)
Definition pathChar : charClass := noneOf (String dquote ":<>?\|/").

(** [^ [a-z0-9]+ (?: - [a-z0-9]+ )* $] *)
Definition slug : regex :=
  cat [Plus (Class lowerDigit); Star (cat [lit "-"; Plus (Class lowerDigit)])].

(** [^ [a-z0-9]+ (?: - [a-z0-9]+ )* (?: : [a-z0-9]+ (?: - [a-z0-9]+ )* )*
    (?: : -? \d+ )? $] *)
Definition rollOption : regex :=
  cat [Plus (Class lowerDigit);
       Star (cat [lit "-"; Plus (Class lowerDigit)]);
       Star (cat [lit ":"; Plus (Class lowerDigit);
                  Star (cat [lit "-"; Plus (Class lowerDigit)])]);
       Opt (cat [lit ":"; Opt (lit "-"); Plus (Class digit)])].

(** [^ # [0-9a-f]{3} (?: [0-9a-f]{3} )? $], flag [i] *)
Definition hexColour : regex :=
  ignoreCase
    (cat [lit "#"; Times 3 (Class (cup digit (range "a" "f")));
          Opt (Times 3 (Class (cup digit (range "a" "f"))))]).

(** [^ \w P+ (?: / P+ )+ \. \w \w \w \w? $], with [P] the class above *)
Definition filePath : regex :=
  cat [Class word; Plus (Class pathChar);
       Plus (cat [lit "/"; Plus (Class pathChar)]);
       lit "."; Class word; Class word; Class word; Opt (Class word)].

(** [^ \w [\w-]+ (?: \. (?: [\w-]+ | \{ \w+ (?: , [^{},]+ )+ \} ) )+ $] *)
Definition sequencerDBEntry : regex :=
  cat [Class word; Plus (Class wordDash);
       Plus (cat [lit ".";
                  Alt (Plus (Class wordDash))
                      (cat [lit "{"; Plus (Class word);
                            Plus (cat [lit ","; Plus (Class (noneOf "{},"))]);
                            lit "}"])])].

(** [^ [a-z0-9]+ (?: \. [a-z0-9-]+ )+ $], flag [i] *)
Definition uuid : regex :=
  ignoreCase
    (cat [Plus (Class lowerDigit);
          Plus (cat [lit "."; Plus (Class (cup lowerDigit (chr "-")))])]).
End Patterns.

(* ================================================================= *)
(** ** template.ts: the schemas, in source order *)

Section Schemas.

Import Methods.

(** The argument of [z.literal(true)]. *)
Definition JTrue : json := JBool true.

Definition JSONValue : schema :=
  z.union [z.string; z.number; z.boolean; z.object []; z.null; z.undefined].

Definition slug : schema :=
  z.string |> regex Patterns.slug "String must be a valid slug.".

Definition rollOption : schema :=
  z.string |> regex Patterns.rollOption "String must be a valid roll option.".

(** [z.array(predicate).min(1).refine(...uniqueItems)], the body of the six
    combinator closures; inside a closure [predicate] is the schema under
    definition. *)
Definition predicates : schema :=
  z.array (Lazy LPredicate) |> min 1 |> refineArray uniqueItems.

(** The five comparison options of [predicate], [eq] to [lte], have one
    form: [z.object({ key: z.tuple([rollOption, rollOption.or(z.number())]) }).strict()]. *)
Definition comparison (key : string) : schema :=
  z.object [prop key (z.tuple [Now rollOption; Now (rollOption |> or z.number)])]
    |> strict.

(** The six combinator options, [and] to [iff]:
    [z.object({ key: z.lazy(() => ...) }).strict()]. *)
Definition combinator (key : string) : schema :=
  z.object [(key, Lazy LPredicates)] |> strict.

Definition predicate : schema :=
  z.union [
    rollOption;
    comparison "eq";
    comparison "gt";
    comparison "gte";
    comparison "lt";
    comparison "lte";
    combinator "and";
    combinator "or";
    combinator "xor";
    z.object [("not", Lazy LPredicate)] |> strict;
    combinator "nand";
    combinator "nor";
    z.object [("if", Lazy LPredicate); ("then", Lazy LPredicate)] |> strict;
    combinator "iff"
  ].

Definition hexColour : schema :=
  z.string |> regex Patterns.hexColour "String must be a valid hexadecimal colour-code.".

Definition angle : schema :=
  z.number |> gt (-180) |> lte 180 |> refine' nonZero.

Definition filePath : schema :=
  z.string
    |> regex Patterns.filePath
         ("String must be a valid filepath. The following characters are unsafe for cross-platform filesystems: "
          ++ String dquote ":<>?\|")%string.

Definition sequencerDBEntry : schema :=
  z.string
    |> regex Patterns.sequencerDBEntry "String must be a valid Sequencer database entry.".

Definition vector2 : schema :=
  z.object [
    prop "x" (z.number |> refine' nonZero |> optional);
    prop "y" (z.number |> refine' nonZero |> optional)
  ] |> strict |> refine' nonEmpty.

Definition offsetDimension : schema :=
  z.number |> refine' nonZero
    |> or (z.tuple [Now z.number; Now z.number]
             |> refine (fun arr => strictDiffers (element 0 arr) (element 1 arr))
                  "Offset range cannot be zero.")
    |> optional.

Definition offset : schema :=
  z.object [
    prop "x" offsetDimension;
    prop "y" offsetDimension;
    prop "flipX" (z.literal JTrue |> optional);
    prop "flipY" (z.literal JTrue |> optional)
  ] |> strict |> refine' nonEmpty
    |> refine (fun obj => truthy (field "x" obj) || truthy (field "y" obj))
         "At least one offset dimension (`x` or `y`) must be specified.".

Definition soundEffect : schema :=
  z.object [
    prop "type" (z.string |> min 1);
    prop "intensity" (z.number |> positive)
  ] |> strict.

Definition soundData : schema :=
  z.object [
    prop "file" (sequencerDBEntry |> or filePath);
    prop "waitUntilFinished" (z.number |> optional);
    prop "atLocation"
      (z.object [
         prop "cacheLocation" (z.literal JTrue |> optional);
         prop "offset" (offset |> optional);
         prop "randomOffset" (z.number |> optional);
         prop "gridUnits" (z.literal JTrue |> optional);
         prop "local" (z.literal JTrue |> optional)
       ] |> strict |> optional);
    prop "radius" (z.number |> positive |> optional);
    prop "volume" (z.number |> positive |> optional);
    prop "duration" (z.number |> positive |> optional);
    prop "constrainedByWalls" (z.literal JTrue |> optional);
    prop "predicate"
      (z.array (Now predicate) |> min 1 |> refineArray uniqueItems |> optional);
    prop "default" (z.literal JTrue |> optional);
    prop "delay" (z.number |> refine' nonZero |> optional);
    prop "muffledEffect" (soundEffect |> optional);
    prop "baseEffect" (soundEffect |> optional)
  ] |> strict.

Definition soundConfig : schema :=
  soundData |> or (z.array (Now soundData) |> min 1 |> refineArray uniqueItems).

Definition presetOptions : schema :=
  z.object [
    prop "attachTo"
      (z.literal JTrue
         |> or (z.object [
                  prop "align" (z.string |> optional);
                  prop "edge" (z.string |> optional);
                  prop "bindVisibility" (z.literal JTrue |> optional);
                  prop "bindAlpha" (z.literal JTrue |> optional);
                  prop "bindScale" (z.literal JTrue |> optional);
                  prop "bindElevation" (z.literal JTrue |> optional);
                  prop "followRotation" (z.literal JTrue |> optional);
                  prop "offset" (offset |> optional);
                  prop "randomOffset" (z.number |> optional);
                  prop "gridUnits" (z.literal JTrue |> optional);
                  prop "local" (z.literal JTrue |> optional)
                ] |> strict |> refine' nonEmpty |> optional));
    prop "atLocation"
      (z.literal JTrue
         |> or (z.object [
                  prop "cacheLocation" (z.literal JTrue |> optional);
                  prop "offset" (offset |> optional);
                  prop "randomOffset" (z.number |> optional);
                  prop "gridUnits" (z.literal JTrue |> optional);
                  prop "local" (z.literal JTrue |> optional)
                ] |> strict |> refine' nonEmpty |> optional));
    prop "bounce"
      (z.object [
         prop "file" (sequencerDBEntry |> or filePath);
         prop "sound" (soundConfig |> optional)
       ] |> strict |> refine' nonEmpty |> optional);
    prop "location" (z.enum ["target"; "source"; "both"] |> optional);
    prop "rotateTowards"
      (z.literal JTrue
         |> or (z.object [
                  prop "rotationOffset" (z.number |> optional);
                  prop "cacheLocation" (z.literal JTrue |> optional);
                  prop "attachTo" (z.literal JTrue |> optional);
                  prop "offset" (offset |> optional);
                  prop "randomOffset" (z.number |> optional);
                  prop "gridUnits" (z.literal JTrue |> optional);
                  prop "local" (z.literal JTrue |> optional)
                ] |> strict |> refine' nonEmpty |> optional));
    prop "stretchTo"
      (z.object [
         prop "cacheLocation" (z.literal JTrue |> optional);
         prop "attachTo" (z.literal JTrue |> optional);
         prop "onlyX" (z.literal JTrue |> optional);
         prop "tiling" (z.literal JTrue |> optional);
         prop "offset" (offset |> optional);
         prop "randomOffset" (z.number |> optional);
         prop "gridUnits" (z.literal JTrue |> optional);
         prop "local" (z.literal JTrue |> optional);
         prop "requiresLineOfSight" (z.literal JTrue |> optional);
         prop "hideLineOfSight" (z.literal JTrue |> optional)
       ] |> strict |> refine' nonEmpty |> optional);
    prop "templateAsOrigin" (z.literal JTrue |> optional);
    prop "targets" (z.array (Now z.string) |> refine' nonEmpty |> optional)
  ] |> strict |> refine' nonEmpty.

Definition ease : schema :=
  z.enum [
    "easeInBack"; "easeInBounce"; "easeInCirc"; "easeInCubic"; "easeInElastic";
    "easeInExpo"; "easeInOutBack"; "easeInOutBounce"; "easeInOutCirc";
    "easeInOutCubic"; "easeInOutElastic"; "easeInOutExpo"; "easeInOutQuad";
    "easeInOutQuart"; "easeInOutQuint"; "easeInOutSine"; "easeInQuad";
    "easeInQuart"; "easeInQuint"; "easeInSine"; "easeOutBack"; "easeOutBounce";
    "easeOutCirc"; "easeOutCubic"; "easeOutElastic"; "easeOutExpo";
    "easeOutQuad"; "easeOutQuart"; "easeOutQuint"; "easeOutSine"
  ].

Definition easingOptions : schema :=
  z.object [
    prop "ease" (ease |> optional);
    prop "delay" (z.number |> positive |> optional)
  ] |> strict.

Definition shape : schema :=
  z.object [
    prop "type" (z.enum ["polygon"; "rectangle"; "circle"; "ellipse"; "roundedRect"]);
    prop "radius" (z.number |> positive |> optional);
    prop "width" (z.number |> positive |> optional);
    prop "height" (z.number |> positive |> optional);
    prop "points"
      (z.array (Now (z.tuple [Now z.number; Now z.number] |> or vector2))
         |> min 1 |> refineArray uniqueItems |> optional);
    prop "gridUnits" (z.literal JTrue |> optional);
    prop "name" (z.string |> optional);
    prop "fillColor" (hexColour |> or z.number |> optional);
    prop "fillAlpha" (z.number |> positive |> optional);
    prop "alpha" (z.number |> positive |> optional);
    prop "lineSize" (z.number |> positive |> optional);
    prop "lineColor" (hexColour |> or z.number |> optional);
    prop "offset"
      (z.object [
         prop "x" (z.number |> optional);
         prop "y" (z.number |> optional);
         prop "gridUnits" (z.literal JTrue |> optional)
       ] |> strict |> optional);
    prop "isMask" (z.literal JTrue |> optional)
  ] |> strict |> refine' nonEmpty.

(** The object form of [wait] and of [delay] in [effectOptions], where it
    is written out twice. *)
Definition rangeOptions : schema :=
  z.object [
    prop "min" (z.number |> refine' nonZero);
    prop "max" (z.number |> optional)
  ] |> strict.

(** The schema of [fadeIn] and of [fadeOut] in [effectOptions], where it is
    written out twice. *)
Definition fadeOptions : schema :=
  z.number |> refine' nonZero
    |> or (easingOptions
             |> extend [prop "value" (z.number |> refine' nonZero)] |> strict)
    |> optional.

(** The five options of the [filter] union of [effectOptions], in the
    order of the source. *)
Definition filterColorMatrix : schema :=
  z.object [
    prop "type" (z.literal (JStr "ColorMatrix"));
    prop "options"
      (z.object [
         prop "hue" (angle |> refine' nonZero |> describe "The hue, in degrees."
                       |> optional);
         prop "brightness"
           (z.number
              |> describe "The value of the brightness (0 to 1, where 0 is black)."
              |> optional);
         prop "contrast"
           (z.number |> describe "The value of the contrast (0 to 1)." |> optional);
         prop "saturate"
           (z.number
              |> describe "The value of the saturation amount. Negative numbers cause it to become desaturated (−1 to 1)"
              |> optional)
       ] |> strict |> refine' nonEmpty)
  ] |> strict.

Definition filterGlow : schema :=
  z.object [
    prop "type" (z.literal (JStr "Glow"));
    prop "options"
      (z.object [
         prop "distance"
           (z.number |> positive |> describe "The distance of the glow, in pixels."
              |> optional);
         prop "outerStrength"
           (z.number |> positive
              |> describe "The strength of the glow outward from the edge of the sprite."
              |> optional);
         prop "innerStrength"
           (z.number |> positive
              |> describe "The strength of the glow inward from the edge of the sprite."
              |> optional);
         prop "color" (hexColour |> describe "The color of the glow" |> optional);
         prop "quality"
           (z.number |> gte 0 |> lte 1
              |> describe "Describes the quality of the glow (0 to 1). A higher number is less performant."
              |> optional);
         prop "knockout"
           (z.literal JTrue
              |> describe "Toggle to hide the contents and only show the glow (effectively hides the sprite)."
              |> optional)
       ] |> strict |> refine' nonEmpty)
  ] |> strict.

(** [options => !options.blur || (!options.blurX && !options.blurY)] *)
Definition blurExclusive (options : json) : bool :=
  negb (truthy (field "blur" options))
  || (negb (truthy (field "blurX" options)) && negb (truthy (field "blurY" options))).

(** The [options] of the [Blur] filter. *)
Definition blurOptions : schema :=
  z.object [
    prop "strength"
      (z.number |> positive |> describe "The strength of the filter." |> optional);
    prop "blur"
      (z.number |> positive
         |> describe "Sets the strength of the blur in both the horizontal and vertical axes simultaneously."
         |> optional);
    prop "blurX"
      (z.number |> positive
         |> describe "The strength of the blur on the horizontal axis." |> optional);
    prop "blurY"
      (z.number |> positive
         |> describe "The strength of the blur on the vertical axis." |> optional);
    prop "quality"
      (z.number |> int |> positive |> describe "Quality of the filter." |> optional);
    prop "resolution"
      (z.number |> positive |> describe "Sets the resolution of the blur filter."
         |> optional);
    prop "kernelSize"
      (z.number |> positive |> int
         |> describe "Effectively how many passes the blur goes through." |> optional)
  ] |> strict |> refine' nonEmpty
    |> refineAt [PKey "blur"] blurExclusive
         "`blur` cannot be used at the same time as `blurX` or `blurY`.".

Definition filterBlur : schema :=
  z.object [
    prop "type" (z.literal (JStr "Blur"));
    prop "options" blurOptions
  ] |> strict.

Definition filterNoise : schema :=
  z.object [
    prop "type" (z.literal (JStr "Noise"));
    prop "options"
      (z.object [
         prop "noise"
           (z.number |> gt 0 |> lte 1 |> describe "The noise intensity." |> optional);
         prop "seed"
           (z.number
              |> describe "A random seed for the noise generation (default is `Math.random()`)."
              |> optional)
       ] |> strict |> refine' nonEmpty |> optional)
  ] |> strict.

Definition filterClip : schema :=
  z.object [prop "type" (z.literal (JStr "Clip"))] |> strict.

(** [filter] of [effectOptions], before [.optional()]. *)
Definition filterUnion : schema :=
  z.discriminatedUnion "type" [
    ("ColorMatrix", filterColorMatrix);
    ("Glow", filterGlow);
    ("Blur", filterBlur);
    ("Noise", filterNoise);
    ("Clip", filterClip)
  ].

(** An element of [loopProperty] in [effectOptions]. *)
Definition loopPropertyEntry : schema :=
  z.object [
    prop "target" z.string;
    prop "property" z.string;
    prop "options"
      (z.object [
         prop "duration" z.number;
         prop "from" (z.number |> optional);
         prop "to" (z.number |> optional);
         prop "values"
           (z.array (Now z.number) |> min 1 |> refineArray uniqueItems |> optional);
         prop "loops" (z.number |> int |> positive |> optional);
         prop "pingPong" (z.literal JTrue |> optional);
         prop "delay" (z.number |> positive |> optional);
         prop "ease" (ease |> optional);
         prop "fromEnd" (z.literal JTrue |> optional);
         prop "gridUnits" (z.literal JTrue |> optional)
       ] |> strict)
  ] |> strict.

(** An element of [animateProperty] in [effectOptions]. *)
Definition animatePropertyEntry : schema :=
  z.object [
    prop "target" z.string;
    prop "property" z.string;
    prop "options"
      (z.object [
         prop "duration" z.number;
         prop "from" z.number;
         prop "to" z.number;
         prop "delay" (z.number |> optional);
         prop "ease" (ease |> optional);
         prop "fromEnd" (z.literal JTrue |> optional);
         prop "gridUnits" (z.literal JTrue |> optional)
       ] |> strict)
  ] |> strict.

(** The object form of [repeats] in [effectOptions]. *)
Definition repeatsOptions : schema :=
  z.object [
    prop "count" (z.number |> min 1);
    prop "delayMin" (z.number |> optional);
    prop "delayMax" (z.number |> positive |> optional)
  ] |> strict
    |> refine
         (fun obj =>
            if truthy (field "delayMax" obj)
            then truthy (field "delayMin" obj)
                 || negb (strictDiffers (field "delayMin" obj) (Some (JNum 0)))
            else true)
         "`delayMin` is required if `delayMax` is defined."
    |> refine
         (fun obj =>
            if truthy (field "delayMax" obj)
            then greater (field "delayMax" obj) (field "delayMin" obj)
            else true)
         "`delayMax` must be greater than `delayMin`.".

Definition effectOptions : schema :=
  z.object [
    prop "sound" (soundConfig |> optional);
    prop "preset" (presetOptions |> optional);
    prop "locally" (z.literal JTrue |> optional);
    prop "id"
      (slug |> minWith 6 "Animation IDs should be reasonably unique." |> optional);
    prop "name" (z.string |> min 1 |> optional);
    prop "syncGroup" (z.string |> optional);
    prop "randomRotation" (z.literal JTrue |> optional);
    prop "randomizeMirrorX" (z.literal JTrue |> optional);
    prop "randomizeMirrorY" (z.literal JTrue |> optional);
    prop "mirrorX" (z.literal JTrue |> optional);
    prop "mirrorY" (z.literal JTrue |> optional);
    prop "remove"
      (slug |> or (z.array (Now slug) |> min 1 |> refineArray uniqueItems) |> optional);
    prop "tieToDocuments" (z.literal JTrue |> optional);
    prop "belowTokens" (z.literal JTrue |> optional);
    prop "waitUntilFinished" (z.number |> refine' nonZero |> optional);
    prop "zIndex" (z.number |> optional);
    prop "duration"
      (z.number
         |> describe "The duration of the animationDataObject in milliseconds."
         |> positive |> optional);
    prop "tint"
      (hexColour
         |> describe "A hexadecimal colour code to give the animationDataObject a certain tint."
         |> optional);
    prop "rotate"
      (angle |> describe "An angle in degrees (°) to rotate the animationDataObject."
         |> optional);
    prop "opacity"
      (z.number |> describe "An opacity scaler from 0 to 1 (exclusive)."
         |> positive |> lt 1 |> optional);
    prop "mask" (z.literal JTrue |> optional);
    prop "fadeIn" fadeOptions;
    prop "fadeOut" fadeOptions;
    prop "wait" (z.number |> or rangeOptions |> optional);
    prop "delay" (z.number |> or rangeOptions |> optional);
    prop "size"
      (z.number
         |> or (z.object [
                  prop "value" (z.number |> positive);
                  prop "gridUnits" (z.literal JTrue |> optional)
                ] |> strict)
         |> optional);
    prop "spriteRotation" (angle |> optional);
    prop "scale"
      (z.number
         |> or (z.object [
                  prop "min"
                    (z.number |> or (z.object [prop "x" z.number; prop "y" z.number]));
                  prop "max" (z.number |> optional)
                ] |> strict)
         |> optional);
    prop "scaleToObject"
      (z.number
         |> or (z.object [
                  prop "value" (z.number |> positive);
                  prop "uniform" (z.literal JTrue |> optional);
                  prop "considerTokenScale" (z.literal JTrue |> optional)
                ] |> strict)
         |> optional);
    prop "spriteOffset"
      (z.object [
         prop "offset" offset;
         prop "gridUnits" (z.literal JTrue |> optional);
         prop "local" (z.literal JTrue |> optional)
       ] |> strict |> optional);
    prop "persist"
      (z.literal JTrue
         |> or (z.object [
                  prop "value" (z.literal JTrue |> optional);
                  prop "persistTokenPrototype" (z.literal JTrue |> optional)
                ] |> strict |> refine' nonEmpty)
         |> optional);
    prop "repeats" (z.number |> min 1 |> int |> or repeatsOptions |> optional);
    prop "moveTowards"
      (easingOptions |> extend [prop "target" (vector2 |> or z.string)]
         |> strict |> optional);
    prop "filter" (filterUnion |> optional);
    prop "missed" (z.literal JTrue |> optional);
    prop "anchor" (vector2 |> optional);
    prop "template"
      (z.object [
         prop "gridSize" (z.number |> positive);
         prop "startPoint" z.number;
         prop "endPoint" z.number
       ] |> strict |> optional);
    prop "loopProperty"
      (z.array (Now loopPropertyEntry) |> min 1 |> refineArray uniqueItems |> optional);
    prop "animateProperty"
      (z.array (Now animatePropertyEntry) |> min 1 |> refineArray uniqueItems
         |> optional);
    prop "shape"
      (shape |> or (z.array (Now shape) |> min 1 |> refineArray uniqueItems) |> optional)
  ] |> strict |> refine' nonEmpty.

Definition triggersList : list string := [
  "attack-roll"; "damage-roll"; "place-template"; "action"; "toggle"; "effect";
  "self-effect"; "start-turn"; "end-turn"; "damage-taken"; "saving-throw"; "check";
  "skill-check"; "flat-check"; "initiative"; "perception-check";
  "counteract-check"; "modifiers-matter"
].
Definition triggers : schema := z.enum triggersList.

Definition presetList : list string :=
  ["onToken"; "ranged"; "melee"; "template"; "sound"; "macro"].
Definition presets : schema := z.enum presetList.

Definition referenceObject : schema :=
  z.object [
    prop "overrides"
      (z.array (Now rollOption) |> min 1 |> refineArray uniqueItems |> optional);
    prop "trigger" (triggers |> or (z.array (Now triggers) |> min 1));
    prop "preset" presets;
    prop "file"
      (sequencerDBEntry |> or filePath
         |> or (z.array (Now (sequencerDBEntry |> or filePath))));
    prop "default" (z.literal JTrue |> optional);
    prop "predicate"
      (z.array (Now predicate) |> min 1 |> refineArray uniqueItems |> optional);
    prop "options" (effectOptions |> optional);
    prop "reference" (rollOption |> optional)
  ] |> strict.

(** The body of the [contents] closure. *)
Definition contents : schema :=
  z.array (Lazy LAnimationObject) |> min 1 |> refineArray uniqueItems.

Definition animationObject : schema :=
  referenceObject |> partial
    |> extend [("contents", LazyOptional LContents)]
    |> strict |> refine' nonEmpty.

(** What each [z.lazy] closure returns. *)
Definition getter (n : lazyName) : schema :=
  match n with
  | LPredicate => predicate
  | LPredicates => predicates
  | LAnimationObject => animationObject
  | LContents => contents
  end.

(** An element of [rules] in [tokenImages]: the tuple or the rule object. *)
Definition tokenImageRule : schema :=
  z.tuple [
    Now slug;
    Now filePath;
    Now (z.number |> positive);
    Now (filePath |> optional);
    Now (z.number |> positive |> optional)
  ] |> or
    (z.object [
       prop "key" (JSONValue |> optional);
       prop "label" (JSONValue |> optional);
       prop "slug" (JSONValue |> optional);
       prop "predicate" (JSONValue |> optional);
       prop "priority" (JSONValue |> optional);
       prop "ignored" (JSONValue |> optional);
       prop "requiresInvestment" (JSONValue |> optional);
       prop "requiresEquipped" (JSONValue |> optional);
       prop "removeUponCreate" (JSONValue |> optional);
       prop "value" filePath;
       prop "scale" (z.number |> optional);
       prop "tint" (z.string |> optional);
       prop "alpha" (z.number |> optional);
       prop "animation"
         (z.object [
            prop "duration" (z.number |> positive |> optional);
            prop "transition" (z.string |> min 1 |> optional);
            prop "easing" (ease |> optional);
            prop "name" (z.string |> min 1 |> optional)
          ] |> strict |> refine' nonEmpty);
       prop "ring"
         (z.object [
            prop "subject"
              (z.object [
                 prop "texture" filePath;
                 prop "scale" (z.number |> optional)
               ] |> strict |> refine' nonEmpty);
            prop "colors"
              (z.object [
                 prop "background" (z.string |> optional);
                 prop "ring" (z.string |> optional)
               ] |> strict |> refine' nonEmpty |> optional)
          ] |> strict |> refine' nonEmpty |> optional)
     ] |> strict).

(** An element of the [_tokenImages] array. *)
Definition tokenImageEntry : schema :=
  z.object [
    prop "name" (z.string |> min 1);
    prop "requires" (z.string |> min 1);
    prop "uuid" (z.string |> regex Patterns.uuid "Must be a valid UUID.");
    prop "rules" (z.array (Now tokenImageRule) |> min 1 |> refineArray uniqueItems)
  ] |> strict.

Definition tokenImages : schema :=
  z.object [
    prop "_tokenImages"
      (z.array (Now tokenImageEntry) |> min 1 |> refineArray uniqueItems)
  ].

Section Animations.

(** [superValidate] of [./superValidateAnimations] is not part of the
    file: the multi-entry consistency check is a parameter, given the
    candidate array and answering with the issues it hands to
    [ctx.addIssue]. *)
Variable superValidate : list json -> list IssueData.

Definition animationObjects : schema :=
  z.array (Now animationObject) |> min 1
    |> superRefine (fun arr => superValidate (asArray arr))
    |> refineArray uniqueItems.

(** Full-file animations schema (sans [_tokenImages]); only exported. *)
Definition animations : schema :=
  z.record rollOption (Now (rollOption |> or animationObjects)).

End Animations.

End Schemas.

(* ================================================================= *)
(** ** template.ts: [validateAnimationData] and [getJSONSchema] *)

(** A call either returns or throws. *)
Inductive outcome (A : Type) : Type :=
| Returns (a : A)
| Throws (message : string).
Arguments Returns {A} a.
Arguments Throws {A} message.

Definition bind {A B : Type} (m : outcome A) (k : A -> outcome B) : outcome B :=
  match m with
  | Returns a => k a
  | Throws e => Throws e
  end.

Notation "x <- m ;; k" := (bind m (fun x => k))
  (at level 61, m at next level, right associativity).

(** [for (const x of xs) body], threading the accumulator. *)
Fixpoint forEach {A S : Type} (xs : list A) (body : S -> A -> outcome S) (acc : S)
    : outcome S :=
  match xs with
  | [] => Returns acc
  | x :: rest => acc' <- body acc x ;; forEach rest body acc'
  end.

(** [{ success: true } | { success: false; error: z.ZodError }] *)
Inductive ValidationResult : Type :=
| success_true
| success_false (error : list ZodIssue).

(** [result.success ? [] : result.error.issues]; a throwing [safeParse]
    propagates. *)
Definition errorIssues (result : SafeParseReturn) : outcome (list ZodIssue) :=
  match result with
  | SafeParseSuccess _ => Returns []
  | SafeParseError error => Returns error
  | SafeParseThrows e => Throws e
  end.

Definition asObject (data : json) : list (string * json) :=
  match data with JObj props => props | _ => [] end.

Section Validate.

Variable superValidate : list json -> list IssueData.

(** The issue returned for a root that is not an object literal. *)
Definition rootIssue (data : json) : ZodIssue :=
  mkIssue
    (invalid_type "object"
       (if strictEquals data (JBool (isArray data)) then "array"
        else if strictEquals data (JStr "null") then "null"
        else typeof (Some data)))
    []
    (Some "JSON must represent an object.").

(** "Test key". *)
Definition keyIssues (key : string) : outcome (list ZodIssue) :=
  match safeParse getter rollOption (Some (JStr key)) with
  | SafeParseSuccess _ => Returns []
  | SafeParseError _ =>
      Returns [mkIssue (invalid_string "regex") [PKey key]
                 (Some "Must be a valid roll option.")]
  | SafeParseThrows e => Throws e
  end.

(** "Test value". *)
Definition valueIssues (key : string) (value : jsvalue) : outcome (list ZodIssue) :=
  found <- errorIssues
             (if String.eqb (typeof value) "string"
              then safeParse getter rollOption value
              else safeParse getter (animationObjects superValidate) value) ;;
  Returns (map (fun issue => withPath (PKey key :: issuePath issue) issue) found).

(** One turn of the [for (const key in data)] loop: the issues it pushes. *)
Definition entryIssues (data : json) (key : string) : outcome (list ZodIssue) :=
  if String.eqb key "_tokenImages"
  then errorIssues (safeParse getter tokenImages (Some data))
  else
    forKey <- keyIssues key ;;
    forValue <- valueIssues key (getProp key (asObject data)) ;;
    Returns (forKey ++ forValue).

Definition validateAnimationData (data : json) : outcome ValidationResult :=
  if negb (String.eqb (typeof (Some data)) "object")
     || isArray data || strictEquals data JNull
  then Returns (success_false [rootIssue data])
  else
    issues <- forEach (ownKeys (asObject data))
                (fun issues key =>
                   pushed <- entryIssues data key ;;
                   Returns (issues ++ pushed))
                [] ;;
    match issues with
    | _ :: _ => Returns (success_false issues)
    | [] => Returns success_true
    end.

End Validate.

Section SchemaExporter.

Variable superValidate : list json -> list IssueData.

(** zod-to-json-schema is a library: its converter and the type of the
    documents it produces are parameters. *)
Variable JsonSchema7Type : Type.

Record zodToJsonSchemaOptions : Type := {
  markdownDescription : bool;
  removeAdditionalStrategy : string;
  applyRegexFlags : bool
}.

Variable zodToJsonSchema : schema -> zodToJsonSchemaOptions -> JsonSchema7Type.

Definition getJSONSchema (schemaName : string) : outcome JsonSchema7Type :=
  let options := {|
    markdownDescription := true;
    removeAdditionalStrategy := "strict";
    applyRegexFlags := true
  |} in
  if String.eqb schemaName "animations"
  then Returns (zodToJsonSchema (animations superValidate) options)
  else if String.eqb schemaName "tokenImages"
  then Returns (zodToJsonSchema tokenImages options)
  else Throws "Unknown schema name".

End SchemaExporter.

(* ================================================================= *)
(** ** Notions used in the statements and in their proofs *)

(** A safe integer ([Number.isSafeInteger]): at most 2^53 - 1 in absolute
    value.  A double holds such a number exactly, so that on safe integers
    the numbers of this development and those of the program have the same
    order, the same equality and the same decimal printing, and all of them
    pass [.int()]. *)
Definition safeInteger (n : Z) : bool := (Z.abs n <=? 9007199254740991)%Z.

(** Every number written in the value is a safe integer. *)
Fixpoint safeNumbers (j : json) : bool :=
  match j with
  | JNum n => safeInteger n
  | JArr items => forallb safeNumbers items
  | JObj props =>
      forallb (fun kv : string * json => let (_, v) := kv in safeNumbers v) props
  | _ => true
  end.

(** Induction on a schema follows [parseView]: the children of an object,
    an array, a tuple or a record are parsed by the kids of the view, so
    only the schemas applied to the same value are premises. *)
Definition schema_ind (P : schema -> Prop)
  (fstring : forall checks, P (ZodString checks))
  (fnumber : forall checks, P (ZodNumber checks))
  (fboolean : P ZodBoolean)
  (fnull : P ZodNull)
  (fundefined : P ZodUndefined)
  (fliteral : forall v, P (ZodLiteral v))
  (fenum : forall values, P (ZodEnum values))
  (fobject : forall shape uk, P (ZodObject shape uk))
  (farray : forall type minLength, P (ZodArray type minLength))
  (ftuple : forall items, P (ZodTuple items))
  (frecord : forall keyType valueType, P keyType -> P (ZodRecord keyType valueType))
  (funion : forall options, Forall P options -> P (ZodUnion options))
  (fdisc : forall d options,
      Forall (fun lo => P (snd lo)) options -> P (ZodDiscriminatedUnion d options))
  (foptional : forall inner, P inner -> P (ZodOptional inner))
  (feffects : forall inner refinement, P inner -> P (ZodEffects inner refinement))
  : forall s, P s :=
  fix F (s : schema) : P s :=
    match s with
    | ZodString checks => fstring checks
    | ZodNumber checks => fnumber checks
    | ZodBoolean => fboolean
    | ZodNull => fnull
    | ZodUndefined => fundefined
    | ZodLiteral v => fliteral v
    | ZodEnum values => fenum values
    | ZodObject shape uk => fobject shape uk
    | ZodArray type minLength => farray type minLength
    | ZodTuple items => ftuple items
    | ZodRecord keyType valueType => frecord keyType valueType (F keyType)
    | ZodUnion options =>
        funion options
          ((fix G (l : list schema) : Forall P l :=
              match l with
              | [] => Forall_nil _
              | o :: l' => Forall_cons o (F o) (G l')
              end) options)
    | ZodDiscriminatedUnion d options =>
        fdisc d options
          ((fix G (l : list (string * schema)) : Forall (fun lo => P (snd lo)) l :=
              match l with
              | [] => Forall_nil _
              | lo :: l' => Forall_cons lo (F (snd lo)) (G l')
              end) options)
    | ZodOptional inner => foptional inner (F inner)
    | ZodEffects inner refinement => feffects inner refinement (F inner)
    end.

(** The view [parse] builds of a value. *)
Definition viewOf (getter : lazyName -> schema) (j : json) : dataView :=
  match j with
  | JNull => VNull
  | JBool b => VBool b
  | JNum n => VNum n
  | JStr s => VStr s
  | JArr items => VArr items (map (parse getter) items)
  | JObj props =>
      VObj props (fun key => parseValue getter (getProp key props))
  end.

Definition wellReported (r : ParseReturn) : Prop :=
  status r = valid <-> issues r = [].

(** The kids of a view report well. *)
Definition kidsReport (d : dataView) : Prop :=
  match d with
  | VArr _ elems => Forall (fun k : kid => forall s p, wellReported (k s p)) elems
  | VObj _ get => forall key s p, wellReported (get key s p)
  | _ => True
  end.

Definition sameOutcome (r r' : ParseReturn) : Prop :=
  status r = status r' /\ value r = value r'.

Definition kidsIgnorePath (d : dataView) : Prop :=
  match d with
  | VArr _ elems =>
      Forall (fun k : kid => forall s p p', sameOutcome (k s p) (k s p')) elems
  | VObj _ get => forall key s p p', sameOutcome (get key s p) (get key s p')
  | _ => True
  end.

(** A value as [JSON.parse] gives it: no object has a key twice. *)
Fixpoint wellFormed (j : json) : Prop :=
  match j with
  | JArr items =>
      (fix all (l : list json) : Prop :=
         match l with
         | [] => True
         | x :: l' => wellFormed x /\ all l'
         end) items
  | JObj props =>
      NoDup (ownKeys props)
      /\ (fix all (l : list (string * json)) : Prop :=
            match l with
            | [] => True
            | (_, v) :: l' => wellFormed v /\ all l'
            end) props
  | _ => True
  end.

(** No [z.record] applied to the value itself or, through properties and
    elements, to its parts (a lazy position is looked at through its
    getter). *)
Fixpoint recordFree (s : schema) : bool :=
  match s with
  | ZodRecord _ _ => false
  | ZodObject shape _ =>
      (fix all (l : list (string * child)) : bool :=
         match l with
         | [] => true
         | (_, c) :: l' => recordFreeChild c && all l'
         end) shape
  | ZodArray type _ => recordFreeChild type
  | ZodTuple items =>
      (fix all (l : list child) : bool :=
         match l with
         | [] => true
         | c :: l' => recordFreeChild c && all l'
         end) items
  | ZodUnion options =>
      (fix all (l : list schema) : bool :=
         match l with
         | [] => true
         | o :: l' => recordFree o && all l'
         end) options
  | ZodDiscriminatedUnion _ options =>
      (fix all (l : list (string * schema)) : bool :=
         match l with
         | [] => true
         | (_, o) :: l' => recordFree o && all l'
         end) options
  | ZodOptional inner => recordFree inner
  | ZodEffects inner _ => recordFree inner
  | _ => true
  end
with recordFreeChild (c : child) : bool :=
  match c with
  | Now s => recordFree s
  | Lazy _ => true
  | LazyOptional _ => true
  end.

(** Kids that agree, up to the path, on every record-free schema. *)
Definition kidsAgree (k k' : kid) : Prop :=
  forall s, recordFree s = true -> forall p p', sameOutcome (k s p) (k' s p').

(** Two views of deep-equal values. *)
Definition viewsAgree (d d' : dataView) : Prop :=
  match d, d' with
  | VUndefined, VUndefined => True
  | VNull, VNull => True
  | VBool b, VBool b' => b = b'
  | VNum n, VNum n' => n = n'
  | VStr s, VStr s' => s = s'
  | VArr raw elems, VArr raw' elems' =>
      List.length raw = List.length raw' /\ Forall2 kidsAgree elems elems'
  | VObj raw get, VObj raw' get' =>
      (forall key, kidsAgree (get key) (get' key))
      /\ (forall key, In key (ownKeys raw) <-> In key (ownKeys raw'))
      /\ (forall key tag,
             getProp key raw = Some (JStr tag) <-> getProp key raw' = Some (JStr tag))
  | _, _ => False
  end.

Definition noSuperIssues : list json -> list IssueData := fun _ => [].

Definition combinatorKeys : list string := ["and"; "or"; "xor"; "nand"; "nor"; "iff"].
Definition comparisonKeys : list string := ["eq"; "gt"; "gte"; "lt"; "lte"].







Definition entryKeys : list string := ["name"; "requires"; "uuid"; "rules"].
Definition ruleKeys : list string := [
  "key"; "label"; "slug"; "predicate"; "priority"; "ignored"; "requiresInvestment";
  "requiresEquipped"; "removeUponCreate"; "value"; "scale"; "tint"; "alpha";
  "animation"; "ring"
].

(** [key] is a key of the object, and none of [known]. *)
Definition unknownKey (known : list string) (props : list (string * json)) (key : string)
    : Prop :=
  In key (ownKeys props) /\ includes known key = false.

(** The object form of a rule, and what is left of the union for an object. *)
Definition tokenImageRuleObject : schema :=
  match tokenImageRule with
  | ZodUnion [_; o] => o
  | other => other
  end.

Definition sampleEntry : json :=
  JObj [("name", JStr "a"); ("requires", JStr "b"); ("uuid", JStr "x.y");
        ("rules", JArr [JArr [JStr "a-b"; JStr "ab/c.png"; JNum 1; JStr "ab/d.png"; JNum 2]])].

Definition backslash : ascii := ascii_of_nat 92.

(** Reads back one quoted code unit. *)
Definition hexValue (c : ascii) : nat :=
  let n := nat_of_ascii c in
  if Nat.leb 97 n then n - 87 else n - 48.

Definition unquoteChar (s : string) : option (ascii * string) :=
  match s with
  | EmptyString => None
  | String c rest =>
      if Ascii.eqb c backslash then
        match rest with
        | EmptyString => None
        | String x rest' =>
            if Ascii.eqb x "b" then Some (ascii_of_nat 8, rest')
            else if Ascii.eqb x "t" then Some (ascii_of_nat 9, rest')
            else if Ascii.eqb x "n" then Some (ascii_of_nat 10, rest')
            else if Ascii.eqb x "f" then Some (ascii_of_nat 12, rest')
            else if Ascii.eqb x "r" then Some (ascii_of_nat 13, rest')
            else if Ascii.eqb x "u" then
              match rest' with
              | String _ (String _ (String h (String l rest''))) =>
                  Some (ascii_of_nat (16 * hexValue h + hexValue l), rest'')
              | _ => None
              end
            else Some (x, rest')
        end
      else Some (c, rest)
  end.

(** The rest of the text after a value: nothing, or a separator. *)
Definition delimited (r : string) : bool :=
  match r with
  | EmptyString => true
  | String c _ => Ascii.eqb c "," || Ascii.eqb c "]" || Ascii.eqb c "}"
  end.

(** The first character of a serialized value. *)
Definition valueHead (c : ascii) : bool :=
  existsb (Ascii.eqb c)
    ["n"; "t"; "f"; dquote; "["; "{"; "-";
     "0"; "1"; "2"; "3"; "4"; "5"; "6"; "7"; "8"; "9"]%char.

Definition digitHead (c : ascii) : bool :=
  existsb (Ascii.eqb c) ["0"; "1"; "2"; "3"; "4"; "5"; "6"; "7"; "8"; "9"]%char.

Definition numberHead (c : ascii) : bool := Ascii.eqb c "-" || digitHead c.

Definition joinTail (parts : list string) (r : string) : string :=
  match parts with
  | [] => r
  | _ :: _ => String "," (joinWith "," parts ++ r)
  end.

(** The spec's deep (value) equality: the same primitive, arrays of
    deep-equal elements in the same order, or objects with the same keys and
    deep-equal values under each key, whatever the order of the keys. *)
Fixpoint deepEqual (a b : json) : bool :=
  match a, b with
  | JNull, JNull => true
  | JBool x, JBool y => Bool.eqb x y
  | JNum x, JNum y => Z.eqb x y
  | JStr x, JStr y => String.eqb x y
  | JArr xs, JArr ys =>
      (fix elements (xs ys : list json) : bool :=
         match xs, ys with
         | [], [] => true
         | x :: xs', y :: ys' => deepEqual x y && elements xs' ys'
         | _, _ => false
         end) xs ys
  | JObj ps, JObj qs =>
      Nat.eqb (List.length ps) (List.length qs)
      && (fix properties (ps : list (string * json)) : bool :=
            match ps with
            | [] => true
            | (k, v) :: ps' =>
                match getProp k qs with
                | Some w => deepEqual v w
                | None => false
                end && properties ps'
            end) ps
  | _, _ => false
  end.


(** The strings a regular expression denotes. *)
Inductive Matches : Regex.regex -> string -> Prop :=
| MEps : Matches Regex.Eps ""
| MClass (p : Regex.charClass) (c : ascii) :
    p c = true -> Matches (Regex.Class p) (String c "")
| MSeq (a b : Regex.regex) (s t : string) :
    Matches a s -> Matches b t -> Matches (Regex.Seq a b) (s ++ t)
| MAltL (a b : Regex.regex) (s : string) : Matches a s -> Matches (Regex.Alt a b) s
| MAltR (a b : Regex.regex) (s : string) : Matches b s -> Matches (Regex.Alt a b) s
| MStar0 (a : Regex.regex) : Matches (Regex.Star a) ""
| MStarS (a : Regex.regex) (s t : string) :
    Matches a s -> Matches (Regex.Star a) t -> Matches (Regex.Star a) (s ++ t).

(** Every code unit of the string is in the class. *)
Fixpoint allChars (p : Regex.charClass) (s : string) : bool :=
  match s with
  | EmptyString => true
  | String c rest => p c && allChars p rest
  end.

(** A non-empty run of the class: what [[...]+] matches. *)
Definition run (p : Regex.charClass) (s : string) : bool :=
  match s with
  | EmptyString => false
  | String _ _ => allChars p s
  end.

(** [parts.join("")]. *)
Fixpoint glue (parts : list string) : string :=
  match parts with
  | [] => ""
  | x :: rest => x ++ glue rest
  end.

(** Every issue of the result lies at or below the path. *)
Definition under (p : path) (r : ParseReturn) : Prop :=
  Forall (fun i => exists q, issuePath i = p ++ q) (issues r).

Definition kidsUnder (d : dataView) : Prop :=
  match d with
  | VArr _ elems => Forall (fun k : kid => forall s p, under p (k s p)) elems
  | VObj _ get => forall key s p, under p (get key s p)
  | _ => True
  end.

(** What one turn of the loop of [validateAnimationData] pushes. *)
Definition pushed (superValidate : list json -> list IssueData) (data : json)
    (key : string) : list ZodIssue :=
  match entryIssues superValidate data key with
  | Returns found => found
  | Throws _ => []
  end.

(** The schema accepts exactly the values (or [undefined]) satisfying
    [ok], and hands them on unchanged. *)
Definition accepts (s : schema) (ok : jsvalue -> Prop) : Prop :=
  forall data q,
    (isValid (parseValue getter data s q) = true ->
     ok data /\ value (parseValue getter data s q) = data)
    /\ (ok data -> parseValue getter data s q = OK data).

(** The properties of an object under the given keys, in the order of the
    keys. *)
Definition project (keys : list string) (props : list (string * json))
    : list (string * json) :=
  flat_map (fun k => match getProp k props with
                     | Some v => [(k, v)]
                     | None => []
                     end) keys.

(** The shape of an animation object: the eight keys of [referenceObject],
    made optional, and [contents]. *)
Definition animationShape : list (string * child) :=
  match animationObject with
  | ZodEffects (ZodObject shape _) _ => shape
  | _ => []
  end.

(** [a] wrapped [n] times as the only element of a [contents] array, and
    the path from the outermost wrapper to [a]. *)
Fixpoint nest (n : nat) (a : json) : json :=
  match n with
  | 0 => a
  | S n' => JObj [("contents", JArr [nest n' a])]
  end.

Fixpoint nestPath (n : nat) : path :=
  match n with
  | 0 => []
  | S n' => PKey "contents" :: PIndex 0 :: nestPath n'
  end.

(** An object [{then, if}] written as the schema rebuilds it: [{if, then}]. *)
Definition ifFirst (props : list (string * json)) : list (string * json) :=
  match props with
  | [(k1, a); (k2, b)] =>
      if String.eqb k1 "then" && String.eqb k2 "if" then [(k2, b); (k1, a)] else props
  | _ => props
  end.

(** A predicate with its conditionals, at every depth, in the order
    [if], [then]. *)
Fixpoint normal (j : json) : json :=
  match j with
  | JArr items => JArr (map normal items)
  | JObj props =>
      JObj (ifFirst (map (fun kv : string * json => let (k, v) := kv in (k, normal v))
                         props))
  | other => other
  end.

(** The type [Predicate] of the source, with what the schema asks on top of
    it: the strings are roll options, and the array of a combinator is not
    empty and has no entry twice, the order of [if] and [then] apart. *)
#[warnings="-register-all"] Inductive Predicate : json -> Prop :=
| P_rollOption (s : string) :
    Regex.test Patterns.rollOption s = true -> Predicate (JStr s)
| P_comparison (op a : string) (b : json) :
    In op comparisonKeys ->
    Regex.test Patterns.rollOption a = true ->
    (exists n, b = JNum n)
    \/ (exists s, b = JStr s /\ Regex.test Patterns.rollOption s = true) ->
    Predicate (JObj [(op, JArr [JStr a; b])])
| P_combinator (op : string) (arr : list json) :
    In op combinatorKeys ->
    arr <> [] ->
    Forall Predicate arr ->
    NoDup (map normal arr) ->
    Predicate (JObj [(op, JArr arr)])
| P_not (a : json) : Predicate a -> Predicate (JObj [("not", a)])
| P_if (a b : json) :
    Predicate a -> Predicate b -> Predicate (JObj [("if", a); ("then", b)])
| P_then (a b : json) :
    Predicate a -> Predicate b -> Predicate (JObj [("then", b); ("if", a)]).

(* ================================================================= *)
(** ** Reasoning about schemas and [parse] *)

Lemma getProp_map {A B : Type} (f : A -> B) key (props : list (string * A)) :
  getProp key (map (fun kv : string * A => let (k, v) := kv in (k, f v)) props)
  = option_map f (getProp key props).
Proof.
  induction props as [|[k v] rest IH]; simpl; [reflexivity|].
  destruct (String.eqb k key); [reflexivity | exact IH].
Qed.

Lemma parse_viewOf getter j s p :
  parse getter j s p = parseView getter (viewOf getter j) s p.
Proof.
  destruct j; try reflexivity.
  (* an object: the kid of a key is the parser of the property's value *)
  change (parse getter (JObj props)) with
    (parseView getter
       (VObj props
          (fun key =>
             match getProp key (map (fun kv : string * json =>
                                       let (k, v) := kv in (k, parse getter v)) props) with
             | Some f => f
             | None => parseView getter VUndefined
             end))).
  unfold viewOf.
  set (get := fun key =>
             match getProp key (map (fun kv : string * json =>
                                       let (k, v) := kv in (k, parse getter v)) props) with
             | Some f => f
             | None => parseView getter VUndefined
             end).
  assert (E : forall key, get key = parseValue getter (getProp key props)).
  { intros key. unfold get. rewrite getProp_map.
    destruct (getProp key props); reflexivity. }
  clearbody get.
  (* the two views agree on every key *)
  revert p. induction s using schema_ind; intros p; simpl; try reflexivity.
  - rewrite (map_ext _ (fun kc : string * child =>
       (fst kc, parseValue getter (getProp (fst kc) props) (resolve getter (snd kc))
                  (p ++ [PKey (fst kc)])))) by (intros kc; rewrite E; reflexivity).
    reflexivity.
  - rewrite (map_ext _ (fun k =>
       (parseView getter (VStr k) s (p ++ [PKey k]),
        parseValue getter (getProp k props) (resolve getter valueType) (p ++ [PKey k]))))
      by (intros k; rewrite E; reflexivity).
    reflexivity.
  - f_equal. apply map_ext_Forall. revert H. apply Forall_impl. intros o Ho. apply Ho.
  - rewrite (map_ext_Forall _ (fun lo : string * schema =>
       (fst lo,
        parseView getter
          (VObj props (fun key => parseValue getter (getProp key props))) (snd lo) p))).
    + reflexivity.
    + revert H. apply Forall_impl. intros lo Hlo. rewrite Hlo. reflexivity.
  - rewrite IHs. reflexivity.
  - rewrite IHs. reflexivity.
Qed.

(* ----------------------------------------------------------------- *)
(** *** A status other than [valid] always comes with an issue *)

Lemma flat_map_nil {A B : Type} (f : A -> list B) l :
  flat_map f l = [] <-> Forall (fun x => f x = []) l.
Proof.
  induction l as [|x l IH]; simpl.
  - split; auto.
  - split.
    + intros H. apply app_eq_nil in H. destruct H as [H1 H2].
      constructor; [exact H1 | apply IH; exact H2].
    + intros H. inversion H; subst. rewrite H2. simpl. apply IH. assumption.
Qed.

Lemma existsb_false {A : Type} (f : A -> bool) l :
  existsb f l = false <-> Forall (fun x => f x = false) l.
Proof.
  induction l as [|x l IH]; simpl.
  - split; auto.
  - rewrite orb_false_iff, IH. split.
    + intros [H1 H2]. constructor; assumption.
    + intros H. inversion H; auto.
Qed.

Lemma status_cases r :
  (isValid r = true /\ status r = valid)
  \/ (isDirty r = true /\ status r = dirty)
  \/ (isAborted r = true /\ status r = aborted).
Proof.
  unfold isValid, isDirty, isAborted. destruct (status r); auto.
Qed.

Lemma wellReported_all_valid results :
  Forall wellReported results ->
  existsb isAborted results = false ->
  existsb isDirty results = false ->
  flat_map issues results = [].
Proof.
  intros HW HA HD. apply flat_map_nil.
  rewrite existsb_false in HA, HD.
  induction HW as [|r l Hr _ IH]; constructor.
  - inversion HA; inversion HD; subst.
    apply Hr. unfold isAborted, isDirty in *. destruct (status r); congruence.
  - inversion HA; inversion HD; auto.
Qed.

Lemma wellReported_some_invalid results :
  Forall wellReported results ->
  existsb (fun r => negb (isValid r)) results = true ->
  flat_map issues results <> [].
Proof.
  intros HW HE Hnil. rewrite flat_map_nil in Hnil.
  apply existsb_exists in HE. destruct HE as [r [Hin Hr]].
  rewrite Forall_forall in HW, Hnil.
  apply HW in Hin as Hw. apply Hnil in Hin as Hn.
  apply Hw in Hn. unfold isValid in Hr. rewrite Hn in Hr. discriminate.
Qed.

Lemma existsb_not_valid results :
  existsb (fun r => negb (isValid r)) results
  = existsb isAborted results || existsb isDirty results.
Proof.
  induction results as [|r l IH]; simpl; [reflexivity|].
  rewrite IH.
  generalize (existsb isAborted l) (existsb isDirty l). intros a b.
  unfold isValid, isAborted, isDirty.
  destruct (status r), a, b; reflexivity.
Qed.

Lemma wellReported_checked v added : wellReported (checked v added).
Proof. unfold wellReported, checked; simpl. destruct added; simpl; split; congruence. Qed.

Lemma wellReported_typeMismatch e d p : wellReported (typeMismatch e d p).
Proof. unfold wellReported, typeMismatch; simpl. split; congruence. Qed.

Lemma wellReported_OK v : wellReported (OK v).
Proof. unfold wellReported; simpl. split; reflexivity. Qed.

Lemma wellReported_INVALID added : added <> [] -> wellReported (INVALID added).
Proof. unfold wellReported; simpl. split; congruence. Qed.

Lemma wellReported_mergeArray extra results :
  Forall wellReported results ->
  wellReported (mergeArray (dirtyIf extra valid) (extra ++ flat_map issues results) results).
Proof.
  intros HW. unfold mergeArray.
  destruct (existsb isAborted results) eqn:HA.
  - apply wellReported_INVALID. intros H. apply app_eq_nil in H. destruct H as [_ H].
    revert H. apply wellReported_some_invalid; [assumption|].
    rewrite existsb_not_valid, HA. reflexivity.
  - unfold wellReported; simpl.
    destruct (existsb isDirty results) eqn:HD.
    + split; [discriminate|]. intros H. apply app_eq_nil in H. destruct H as [_ H].
      exfalso. revert H. apply wellReported_some_invalid; [assumption|].
      rewrite existsb_not_valid, HD. apply orb_true_r.
    + rewrite (wellReported_all_valid results HW HA HD), app_nil_r.
      destruct extra; simpl; split; congruence.
Qed.

Lemma wellReported_mergeObjectSync extra (pairs : list (string * ParseReturn)) :
  Forall (fun kr => wellReported (snd kr)) pairs ->
  wellReported
    (mergeObjectSync (dirtyIf extra valid)
       (flat_map (fun kr => issues (snd kr)) pairs ++ extra) pairs).
Proof.
  intros HW. unfold mergeObjectSync.
  assert (HW' : Forall wellReported (map snd pairs)) by (apply Forall_map; exact HW).
  assert (E : flat_map (fun kr : string * ParseReturn => issues (snd kr)) pairs
              = flat_map issues (map snd pairs)).
  { clear. induction pairs; simpl; congruence. }
  rewrite E.
  destruct (existsb isAborted (map snd pairs)) eqn:HA.
  - apply wellReported_INVALID. intros H. apply app_eq_nil in H. destruct H as [H _].
    revert H. apply wellReported_some_invalid; [assumption|].
    rewrite existsb_not_valid, HA. reflexivity.
  - unfold wellReported; simpl.
    destruct (existsb isDirty (map snd pairs)) eqn:HD.
    + split; [discriminate|]. intros H. apply app_eq_nil in H. destruct H as [H _].
      exfalso. revert H. apply wellReported_some_invalid; [assumption|].
      rewrite existsb_not_valid, HD. apply orb_true_r.
    + rewrite (wellReported_all_valid _ HW' HA HD). simpl.
      destruct extra; simpl; split; congruence.
Qed.

Lemma wellReported_unionResult p results :
  Forall wellReported results -> wellReported (unionResult p results).
Proof.
  intros HW. unfold unionResult.
  destruct (find isValid results) eqn:HV.
  - unfold wellReported; simpl. split; reflexivity.
  - destruct (find isDirty results) eqn:HD.
    + apply find_some in HD. rewrite Forall_forall in HW. apply HW. apply HD.
    + apply wellReported_INVALID. discriminate.
Qed.

Lemma wellReported_refined p refinement r :
  wellReported r -> wellReported (refined p refinement r).
Proof.
  intros HW. unfold refined. unfold wellReported in *.
  destruct (status r) eqn:Hs; destruct (value r) eqn:Hv; simpl;
    try (rewrite Hs; exact HW);
    try (split; [discriminate | intros H; apply HW in H; discriminate]).
  - (* valid *)
    assert (Hi : issues r = []) by (apply HW; reflexivity).
    rewrite Hi. simpl.
    destruct (refinement j) as [|d ds]; simpl.
    + split; reflexivity.
    + destruct (fatal d || existsb fatal ds); split; discriminate.
  - (* dirty *)
    assert (Hi : issues r <> []) by (intros H; apply HW in H; discriminate).
    destruct (existsb fatal (refinement j)).
    + split; [discriminate|]. intros H. apply app_eq_nil in H. tauto.
    + split.
      * destruct (map (makeIssue p) (refinement j)); discriminate.
      * intros H. apply app_eq_nil in H. tauto.
Qed.

Lemma wellReported_parseView getter s :
  forall dv p, kidsReport dv -> wellReported (parseView getter dv s p).
Proof.
  induction s using schema_ind; intros dv p Hd; simpl.
  - destruct dv; try apply wellReported_typeMismatch. apply wellReported_checked.
  - destruct dv; try apply wellReported_typeMismatch. apply wellReported_checked.
  - destruct dv; try apply wellReported_typeMismatch. apply wellReported_OK.
  - destruct dv; try apply wellReported_typeMismatch. apply wellReported_OK.
  - destruct dv; try apply wellReported_typeMismatch. apply wellReported_OK.
  - destruct (dataOf dv).
    + destruct (strictEquals j v); [apply wellReported_OK|].
      apply wellReported_INVALID; discriminate.
    + apply wellReported_INVALID; discriminate.
  - destruct dv; try apply wellReported_typeMismatch.
    destruct (includes values s); [apply wellReported_OK|].
    apply wellReported_INVALID; discriminate.
  - destruct dv; try apply wellReported_typeMismatch.
    apply wellReported_mergeObjectSync.
    apply Forall_map. apply Forall_forall. intros kc _. simpl. apply Hd.
  - destruct dv; try apply wellReported_typeMismatch.
    apply wellReported_mergeArray.
    apply Forall_map. apply Forall_forall. intros [i k] Hin. simpl.
    apply in_combine_r in Hin. simpl in Hd. rewrite Forall_forall in Hd.
    apply Hd. exact Hin.
  - destruct dv; try apply wellReported_typeMismatch.
    destruct (Nat.ltb _ _); [apply wellReported_INVALID; discriminate|].
    apply wellReported_mergeArray.
    apply Forall_map. apply Forall_forall. intros [i [k c]] Hin. simpl.
    apply in_combine_r in Hin. apply in_combine_l in Hin.
    simpl in Hd. rewrite Forall_forall in Hd. apply Hd. exact Hin.
  - destruct dv; try apply wellReported_typeMismatch.
    (* a record: key and value results pair by pair *)
    set (pairs := map _ (ownKeys raw)).
    assert (HW : Forall (fun kv : ParseReturn * ParseReturn =>
                           wellReported (fst kv) /\ wellReported (snd kv)) pairs).
    { apply Forall_map. apply Forall_forall. intros k _. simpl. split.
      - apply IHs. exact I.
      - apply Hd. }
    clearbody pairs.
    assert (HW2 : Forall wellReported
                    (flat_map (fun kv : ParseReturn * ParseReturn => [fst kv; snd kv]) pairs)).
    { induction HW as [|kv l [H1 H2] _ IH]; simpl; auto. }
    assert (E : flat_map (fun kv : ParseReturn * ParseReturn =>
                            issues (fst kv) ++ issues (snd kv)) pairs
                = flat_map issues
                    (flat_map (fun kv : ParseReturn * ParseReturn => [fst kv; snd kv]) pairs)).
    { clear. induction pairs as [|kv l IH]; simpl; [reflexivity|].
      rewrite IH, <- app_assoc. reflexivity. }
    assert (EA : existsb (fun kv : ParseReturn * ParseReturn =>
                            isAborted (fst kv) || isAborted (snd kv)) pairs
                 = existsb isAborted
                     (flat_map (fun kv : ParseReturn * ParseReturn => [fst kv; snd kv]) pairs)).
    { clear. induction pairs as [|kv l IH]; simpl; [reflexivity|].
      rewrite IH, orb_assoc. reflexivity. }
    assert (ED : existsb (fun kv : ParseReturn * ParseReturn =>
                            isDirty (fst kv) || isDirty (snd kv)) pairs
                 = existsb isDirty
                     (flat_map (fun kv : ParseReturn * ParseReturn => [fst kv; snd kv]) pairs)).
    { clear. induction pairs as [|kv l IH]; simpl; [reflexivity|].
      rewrite IH, orb_assoc. reflexivity. }
    rewrite E, EA, ED.
    generalize dependent (flat_map (fun kv : ParseReturn * ParseReturn => [fst kv; snd kv]) pairs).
    intros results HW2 _ _ _.
    pose proof (wellReported_mergeArray [] results HW2) as HM.
    unfold mergeArray in HM. simpl in HM.
    destruct (existsb isAborted results); [exact HM|].
    unfold wellReported in *. simpl in *. exact HM.
  - apply wellReported_unionResult.
    apply Forall_map. revert H. apply Forall_impl. intros o Ho. apply Ho. exact Hd.
  - destruct dv; try apply wellReported_typeMismatch.
    destruct (getProp d raw) as [[| | |tag| |]|];
      try (apply wellReported_INVALID; discriminate).
    destruct (getProp tag _) eqn:Hg; [|apply wellReported_INVALID; discriminate].
    (* the selected option is one of the parsed options *)
    revert Hg. induction H as [|lo l Hlo _ IH]; simpl; [discriminate|].
    destruct (String.eqb (fst lo) tag).
    + intros [= <-]. apply Hlo. exact Hd.
    + exact IH.
  - destruct dv; try apply wellReported_OK; apply IHs; exact Hd.
  - apply wellReported_refined. apply IHs. exact Hd.
Qed.

Lemma wellReported_parse getter j :
  forall s p, wellReported (parse getter j s p).
Proof.
  induction j using json_ind; intros s0 p; rewrite parse_viewOf;
    apply wellReported_parseView; simpl; try exact I.
  - apply Forall_map. exact H.
  - intros key s1 p1. unfold parseValue.
    destruct (getProp key props) eqn:Hg.
    + (* the property is one of the children *)
      revert Hg. induction H as [|[k v] l Hkv _ IH]; simpl; [discriminate|].
      destruct (String.eqb k key).
      * intros [= <-]. apply Hkv.
      * exact IH.
    + apply wellReported_parseView. exact I.
Qed.

Lemma wellReported_parseValue getter data s p :
  wellReported (parseValue getter data s p).
Proof.
  destruct data; simpl.
  - apply wellReported_parse.
  - apply wellReported_parseView. exact I.
Qed.

(** [safeParse] never reaches the [throw] of [handleResult]. *)
Lemma safeParse_returns getter s data :
  (exists v, safeParse getter s data = SafeParseSuccess v
             /\ isValid (parseValue getter data s []) = true)
  \/ (exists e, safeParse getter s data = SafeParseError e /\ e <> []
                /\ e = issues (parseValue getter data s [])
                /\ isValid (parseValue getter data s []) = false).
Proof.
  unfold safeParse, handleResult.
  pose proof (wellReported_parseValue getter data s []) as HW.
  destruct (isValid _) eqn:HV.
  - left. eauto.
  - right. destruct (issues _) eqn:Hi.
    + apply HW in Hi. unfold isValid in HV. rewrite Hi in HV. discriminate.
    + eexists. repeat split; try reflexivity. discriminate.
Qed.

(* ----------------------------------------------------------------- *)
(** *** The status and the parsed value do not depend on the path *)

Lemma sameOutcome_refl r : sameOutcome r r.
Proof. split; reflexivity. Qed.

Lemma sameOutcome_flags r r' :
  sameOutcome r r' ->
  isValid r = isValid r' /\ isDirty r = isDirty r' /\ isAborted r = isAborted r'.
Proof.
  intros [Hs _]. unfold isValid, isDirty, isAborted. rewrite Hs. auto.
Qed.

Lemma sameOutcome_existsb (f : ParseReturn -> bool) rs rs' :
  (forall r r', sameOutcome r r' -> f r = f r') ->
  Forall2 sameOutcome rs rs' -> existsb f rs = existsb f rs'.
Proof.
  intros Hf HF. induction HF as [|r r' l l' H _ IH]; simpl; [reflexivity|].
  rewrite (Hf r r' H), IH. reflexivity.
Qed.

Lemma sameOutcome_values rs rs' :
  Forall2 sameOutcome rs rs' ->
  flat_map (fun r => match value r with Some v => [v] | None => [] end) rs
  = flat_map (fun r => match value r with Some v => [v] | None => [] end) rs'.
Proof.
  intros HF. induction HF as [|r r' l l' [_ Hv] _ IH]; simpl; [reflexivity|].
  rewrite Hv, IH. reflexivity.
Qed.

Lemma sameOutcome_mergeArray st added added' rs rs' :
  Forall2 sameOutcome rs rs' ->
  sameOutcome (mergeArray st added rs) (mergeArray st added' rs').
Proof.
  intros HF. unfold mergeArray.
  rewrite (sameOutcome_existsb isAborted rs rs') by
    (try exact HF; intros r r' H; apply sameOutcome_flags in H; tauto).
  rewrite (sameOutcome_existsb isDirty rs rs') by
    (try exact HF; intros r r' H; apply sameOutcome_flags in H; tauto).
  rewrite (sameOutcome_values rs rs' HF).
  destruct (existsb isAborted rs'); split; reflexivity.
Qed.

Lemma sameOutcome_mergeObjectSync st added added'
    (pairs pairs' : list (string * ParseReturn)) :
  Forall2 (fun kr kr' => fst kr = fst kr' /\ sameOutcome (snd kr) (snd kr')) pairs pairs' ->
  sameOutcome (mergeObjectSync st added pairs) (mergeObjectSync st added' pairs').
Proof.
  intros HF. unfold mergeObjectSync.
  assert (HS : Forall2 sameOutcome (map snd pairs) (map snd pairs')).
  { induction HF as [|kr kr' l l' [_ H] _ IH]; simpl; constructor; assumption. }
  rewrite (sameOutcome_existsb isAborted (map snd pairs) (map snd pairs')) by
    (try exact HS; intros r r' H; apply sameOutcome_flags in H; tauto).
  rewrite (sameOutcome_existsb isDirty (map snd pairs) (map snd pairs')) by
    (try exact HS; intros r r' H; apply sameOutcome_flags in H; tauto).
  assert (E : flat_map (fun kr : string * ParseReturn =>
                          match value (snd kr) with
                          | Some v => [(fst kr, v)]
                          | None => []
                          end) pairs
              = flat_map (fun kr : string * ParseReturn =>
                            match value (snd kr) with
                            | Some v => [(fst kr, v)]
                            | None => []
                            end) pairs').
  { clear HS. induction HF as [|kr kr' l l' [Hk [_ Hv]] _ IH]; simpl; [reflexivity|].
    rewrite Hk, Hv, IH. reflexivity. }
  rewrite E. destruct (existsb isAborted (map snd pairs')); split; reflexivity.
Qed.

Lemma sameOutcome_find (f : ParseReturn -> bool) rs rs' :
  (forall r r', sameOutcome r r' -> f r = f r') ->
  Forall2 sameOutcome rs rs' ->
  match find f rs, find f rs' with
  | Some r, Some r' => sameOutcome r r'
  | None, None => True
  | _, _ => False
  end.
Proof.
  intros Hf HF. induction HF as [|r r' l l' H _ IH]; simpl; [exact I|].
  rewrite <- (Hf r r' H). destruct (f r); [exact H | exact IH].
Qed.

Lemma sameOutcome_unionResult p p' rs rs' :
  Forall2 sameOutcome rs rs' ->
  sameOutcome (unionResult p rs) (unionResult p' rs').
Proof.
  intros HF. unfold unionResult.
  pose proof (sameOutcome_find isValid rs rs'
                (fun r r' H => proj1 (sameOutcome_flags r r' H)) HF) as HV.
  pose proof (sameOutcome_find isDirty rs rs'
                (fun r r' H => proj1 (proj2 (sameOutcome_flags r r' H))) HF) as HD.
  destruct (find isValid rs), (find isValid rs'); try contradiction.
  - split; [reflexivity | apply HV].
  - destruct (find isDirty rs), (find isDirty rs'); try contradiction.
    + exact HD.
    + split; reflexivity.
Qed.

Lemma sameOutcome_refined p p' refinement r r' :
  sameOutcome r r' ->
  sameOutcome (refined p refinement r) (refined p' refinement r').
Proof.
  intros H. pose proof H as [Hs Hv]. unfold refined. rewrite <- Hs, <- Hv.
  destruct (status r), (value r); try exact H; try (split; reflexivity).
  - split; simpl; [|reflexivity].
    destruct (existsb fatal (refinement j)); [reflexivity|].
    destruct (refinement j); reflexivity.
  - split; simpl; [|reflexivity].
    destruct (existsb fatal (refinement j)); [reflexivity|].
    destruct (refinement j); reflexivity.
Qed.

Lemma sameOutcome_typeMismatch e d p p' :
  sameOutcome (typeMismatch e d p) (typeMismatch e d p').
Proof. split; reflexivity. Qed.

Lemma checked_flat_map {C : Type} v (f f' : C -> list ZodIssue) checks :
  (forall c, f c = [] <-> f' c = []) ->
  sameOutcome (checked v (flat_map f checks)) (checked v (flat_map f' checks)).
Proof.
  intros H. split; [|reflexivity]. unfold checked; simpl.
  assert (E : flat_map f checks = [] <-> flat_map f' checks = []).
  { rewrite !flat_map_nil. split; apply Forall_impl; intros c; apply H. }
  destruct (flat_map f checks), (flat_map f' checks); simpl; try reflexivity.
  - destruct E as [E _]. specialize (E eq_refl). discriminate.
  - destruct E as [_ E]. specialize (E eq_refl). discriminate.
Qed.

Lemma sameOutcome_parseView getter s :
  forall dv p p', kidsIgnorePath dv ->
                  sameOutcome (parseView getter dv s p) (parseView getter dv s p').
Proof.
  induction s as [checks|checks| | | |v|values|shp uk|type minLength|items
                 |keyType valueType IHs|options H|d options H|inner IHs
                 |inner refinement IHs] using schema_ind;
    intros dv p p' Hd; simpl.
  - destruct dv; try apply sameOutcome_typeMismatch.
    apply checked_flat_map. intros [n m|r m]; simpl.
    + destruct (Nat.ltb _ _); split; congruence.
    + destruct (Regex.test _ _); split; congruence.
  - destruct dv; try apply sameOutcome_typeMismatch.
    apply checked_flat_map. intros [|v i|v i]; simpl.
    + tauto.
    + destruct (if i then _ else _); split; congruence.
    + destruct (if i then _ else _); split; congruence.
  - destruct dv; try apply sameOutcome_typeMismatch. apply sameOutcome_refl.
  - destruct dv; try apply sameOutcome_typeMismatch. apply sameOutcome_refl.
  - destruct dv; try apply sameOutcome_typeMismatch. apply sameOutcome_refl.
  - destruct (dataOf dv); [|split; reflexivity].
    destruct (strictEquals j v); split; reflexivity.
  - destruct dv; try apply sameOutcome_typeMismatch.
    destruct (includes values s); split; reflexivity.
  - destruct dv; try apply sameOutcome_typeMismatch.
    match goal with
    | |- sameOutcome (mergeObjectSync ?st _ _) (mergeObjectSync ?st' _ _) =>
        replace st' with st
    end.
    + apply sameOutcome_mergeObjectSync.
      induction shp as [|kc rest IH]; simpl; constructor; [|exact IH].
      simpl. split; [reflexivity | apply Hd].
    + destruct uk; [reflexivity|].
      destruct (List.filter _ (ownKeys raw)); reflexivity.
  - destruct dv; try apply sameOutcome_typeMismatch.
    match goal with
    | |- sameOutcome (mergeArray ?st _ _) (mergeArray ?st' _ _) =>
        replace st' with st
    end.
    + apply sameOutcome_mergeArray.
      simpl in Hd. generalize 0. 
      induction Hd as [|k rest Hk _ IH]; intros n; simpl; constructor.
      * apply Hk.
      * apply IH.
    + destruct minLength; [|reflexivity]. destruct (Nat.ltb _ _); reflexivity.
  - destruct dv; try apply sameOutcome_typeMismatch.
    destruct (Nat.ltb (List.length raw) (List.length items)); [split; reflexivity|].
    match goal with
    | |- sameOutcome (mergeArray ?st _ _) (mergeArray ?st' _ _) =>
        replace st' with st
    end.
    + apply sameOutcome_mergeArray.
      simpl in Hd. generalize 0. revert items.
      induction Hd as [|k rest Hk _ IH]; intros items n; simpl; [constructor|].
      destruct items as [|c items]; simpl; constructor.
      * apply Hk.
      * apply IH.
    + destruct (Nat.ltb _ _); reflexivity.
  - destruct dv; try apply sameOutcome_typeMismatch.
    set (pairs := map _ (ownKeys raw)).
    set (pairs' := map _ (ownKeys raw)).
    assert (HF : Forall2 (fun kv kv' : ParseReturn * ParseReturn =>
                            sameOutcome (fst kv) (fst kv')
                            /\ sameOutcome (snd kv) (snd kv')) pairs pairs').
    { subst pairs pairs'. induction (ownKeys raw) as [|k rest IH]; simpl;
        constructor; [|exact IH].
      simpl. split; [apply IHs; exact I | apply Hd]. }
    clearbody pairs pairs'.
    assert (EA : existsb (fun kv : ParseReturn * ParseReturn =>
                            isAborted (fst kv) || isAborted (snd kv)) pairs
                 = existsb (fun kv : ParseReturn * ParseReturn =>
                              isAborted (fst kv) || isAborted (snd kv)) pairs').
    { induction HF as [|kv kv' l l' [H1 H2] _ IH]; simpl; [reflexivity|].
      apply sameOutcome_flags in H1, H2.
      destruct H1 as [_ [_ ->]], H2 as [_ [_ ->]]. rewrite IH. reflexivity. }
    assert (ED : existsb (fun kv : ParseReturn * ParseReturn =>
                            isDirty (fst kv) || isDirty (snd kv)) pairs
                 = existsb (fun kv : ParseReturn * ParseReturn =>
                              isDirty (fst kv) || isDirty (snd kv)) pairs').
    { clear EA. induction HF as [|kv kv' l l' [H1 H2] _ IH]; simpl; [reflexivity|].
      apply sameOutcome_flags in H1, H2.
      destruct H1 as [_ [-> _]], H2 as [_ [-> _]]. rewrite IH. reflexivity. }
    assert (EV : flat_map (fun kv : ParseReturn * ParseReturn =>
                             match value (fst kv), value (snd kv) with
                             | Some (JStr k), Some v => [(k, v)]
                             | _, _ => []
                             end) pairs
                 = flat_map (fun kv : ParseReturn * ParseReturn =>
                               match value (fst kv), value (snd kv) with
                               | Some (JStr k), Some v => [(k, v)]
                               | _, _ => []
                               end) pairs').
    { clear EA ED.
      induction HF as [|kv kv' l l' [[_ H1] [_ H2]] _ IH]; simpl; [reflexivity|].
      rewrite H1, H2, IH. reflexivity. }
    rewrite EA, ED, EV.
    destruct (existsb _ pairs'); split; reflexivity.
  - apply sameOutcome_unionResult.
    induction H as [|o rest Ho _ IH]; simpl; constructor; [|exact IH].
    apply Ho. exact Hd.
  - destruct dv; try apply sameOutcome_typeMismatch.
    destruct (getProp d raw) as [[| | |tag| |]|]; try (split; reflexivity).
    match goal with
    | |- sameOutcome match _ with Some _ => _ | None => ?bad end
                     match _ with Some _ => _ | None => ?bad' end =>
        assert (HB : sameOutcome bad bad') by (split; reflexivity);
        revert HB; generalize bad bad'
    end.
    intros bad bad' HB.
    induction H as [|lo rest Hlo _ IH]; simpl; [exact HB|].
    destruct (String.eqb (fst lo) tag); [|exact IH].
    apply Hlo. exact Hd.
  - destruct dv; try apply sameOutcome_refl; apply IHs; exact Hd.
  - apply sameOutcome_refined. apply IHs. exact Hd.
Qed.

Lemma sameOutcome_parse getter j :
  forall s p p', sameOutcome (parse getter j s p) (parse getter j s p').
Proof.
  induction j using json_ind; intros s0 p p'; rewrite !parse_viewOf;
    apply sameOutcome_parseView; simpl; try exact I.
  - apply Forall_map. exact H.
  - intros key s1 p1 p1'. unfold parseValue.
    destruct (getProp key props) eqn:Hg.
    + revert Hg. induction H as [|[k v] l Hkv _ IH]; simpl; [discriminate|].
      destruct (String.eqb k key).
      * intros [= <-]. apply Hkv.
      * exact IH.
    + apply sameOutcome_parseView. exact I.
Qed.

(* ----------------------------------------------------------------- *)
(** *** What a valid result tells about the value *)

Lemma isValid_status r : isValid r = true <-> status r = valid.
Proof. unfold isValid. destruct (status r); split; congruence. Qed.

Lemma isValid_unionResult p rs :
  isValid (unionResult p rs) = existsb isValid rs.
Proof.
  unfold unionResult. destruct (find isValid rs) eqn:HV.
  - apply find_some in HV. symmetry. apply existsb_exists. eauto.
  - assert (HE : existsb isValid rs = false).
    { apply existsb_false. apply Forall_forall. intros r Hr.
      apply (find_none _ _ HV r Hr). }
    rewrite HE. destruct (find isDirty rs) eqn:HD; [|reflexivity].
    apply find_some in HD. destruct HD as [_ HD].
    unfold isDirty in HD. unfold isValid. destruct (status p0); congruence.
Qed.

(** The value of a valid union is the value of its first valid option. *)
Lemma value_unionResult p rs :
  isValid (unionResult p rs) = true ->
  exists r, find isValid rs = Some r /\ value (unionResult p rs) = value r.
Proof.
  intros H. rewrite isValid_unionResult in H. unfold unionResult.
  destruct (find isValid rs) eqn:HV.
  - eauto.
  - apply existsb_exists in H. destruct H as [r [Hin Hr]].
    rewrite (find_none _ _ HV r Hin) in Hr. discriminate.
Qed.

Lemma refined_valid p refinement r :
  isValid (refined p refinement r) = true ->
  isValid r = true
  /\ value (refined p refinement r) = value r
  /\ (forall v, value r = Some v -> refinement v = []).
Proof.
  unfold refined, isValid. destruct (status r) eqn:Hs, (value r) eqn:Hv; simpl;
    try rewrite Hs; try discriminate; intros H.
  - repeat split; auto. intros v [= <-].
    destruct (refinement j) as [|i l]; [reflexivity|]. simpl in H.
    destruct (fatal i || existsb fatal l); simpl in H; discriminate.
  - repeat split; auto. discriminate.
  - destruct (existsb fatal (refinement j)); simpl in H; [discriminate|].
    destruct (map (makeIssue p) (refinement j)); simpl in H; discriminate.
Qed.

Lemma refined_passes p refinement r v :
  isValid r = true -> issues r = [] -> value r = Some v -> refinement v = [] ->
  refined p refinement r = mkReturn valid (Some v) [].
Proof.
  intros HV HI Hv Hf. apply isValid_status in HV.
  unfold refined. rewrite HV, Hv, Hf, HI. reflexivity.
Qed.

Lemma refined_fails p refinement r v :
  isValid r = true -> issues r = [] -> value r = Some v ->
  existsb fatal (refinement v) = false -> refinement v <> [] ->
  refined p refinement r = mkReturn dirty (Some v) (map (makeIssue p) (refinement v)).
Proof.
  intros HV HI Hv Hf Hne. apply isValid_status in HV.
  unfold refined. rewrite HV, Hv, Hf, HI. simpl.
  destruct (refinement v); [contradiction | reflexivity].
Qed.

Lemma refined_invalid p refinement r :
  isValid r = false -> isValid (refined p refinement r) = false.
Proof.
  intros H. destruct (isValid (refined p refinement r)) eqn:E; [|reflexivity].
  apply refined_valid in E. destruct E as [E _]. congruence.
Qed.

Lemma mergeObjectSync_valid st added pairs :
  isValid (mergeObjectSync st added pairs) = true ->
  st = valid
  /\ Forall (fun kr : string * ParseReturn => isValid (snd kr) = true) pairs
  /\ value (mergeObjectSync st added pairs)
     = Some (JObj (flat_map (fun kr : string * ParseReturn =>
                               match value (snd kr) with
                               | Some v => [(fst kr, v)]
                               | None => []
                               end) pairs)).
Proof.
  unfold mergeObjectSync.
  destruct (existsb isAborted (map snd pairs)) eqn:HA; [discriminate|].
  destruct (existsb isDirty (map snd pairs)) eqn:HD; [discriminate|].
  unfold isValid at 1; simpl. destruct st; try discriminate. intros _.
  repeat split.
  rewrite existsb_false in HA, HD. rewrite Forall_map in HA, HD.
  rewrite Forall_forall in *. intros kr Hin.
  specialize (HA kr Hin). specialize (HD kr Hin).
  unfold isValid, isAborted, isDirty in *. destruct (status (snd kr)); congruence.
Qed.

Lemma mergeArray_valid st added rs :
  isValid (mergeArray st added rs) = true ->
  st = valid
  /\ Forall (fun r => isValid r = true) rs
  /\ value (mergeArray st added rs)
     = Some (JArr (flat_map (fun r => match value r with
                                      | Some v => [v]
                                      | None => []
                                      end) rs)).
Proof.
  unfold mergeArray.
  destruct (existsb isAborted rs) eqn:HA; [discriminate|].
  destruct (existsb isDirty rs) eqn:HD; [discriminate|].
  unfold isValid at 1; simpl. destruct st; try discriminate. intros _.
  repeat split.
  rewrite existsb_false in HA, HD.
  rewrite Forall_forall in *. intros r Hin.
  specialize (HA r Hin). specialize (HD r Hin).
  unfold isValid, isAborted, isDirty in *. destruct (status r); congruence.
Qed.

Lemma dirtyIf_valid added : dirtyIf added valid = valid -> added = [].
Proof. destruct added; simpl; [reflexivity | discriminate]. Qed.

(** The results of the elements of an array, one per element. *)
Lemma array_results getter (s : schema) p items :
  forall n,
  Forall2 (fun x r => exists i, r = parse getter x s (p ++ [PIndex i]))
    items
    (map (fun ie : nat * kid => snd ie s (p ++ [PIndex (fst ie)]))
         (combine (seq n (List.length (map (parse getter) items)))
                  (map (parse getter) items))).
Proof.
  induction items as [|x rest IH]; intros n; simpl; constructor.
  - exists n. reflexivity.
  - apply IH.
Qed.

Section ValidObjects.

Variable getter : lazyName -> schema.

(** A valid object: every property of the shape is valid where the
    object has it and accepts [undefined] where it has not; under
    [.strict()] no other key occurs; the parsed object lists the
    properties in the order of the shape. *)
Lemma object_valid props shape uk p :
  isValid (parse getter (JObj props) (ZodObject shape uk) p) = true ->
  Forall (fun kc : string * child =>
            isValid (parseValue getter (getProp (fst kc) props)
                       (resolve getter (snd kc)) (p ++ [PKey (fst kc)])) = true) shape
  /\ (uk = unknownKeys_strict ->
      Forall (fun k => includes (map fst shape) k = true) (ownKeys props))
  /\ value (parse getter (JObj props) (ZodObject shape uk) p)
     = Some (JObj (flat_map
                     (fun kc : string * child =>
                        match value (parseValue getter (getProp (fst kc) props)
                                       (resolve getter (snd kc))
                                       (p ++ [PKey (fst kc)])) with
                        | Some v => [(fst kc, v)]
                        | None => []
                        end) shape)).
Proof.
  rewrite parse_viewOf. simpl. intros H.
  apply mergeObjectSync_valid in H. destruct H as [Hst [HF Hv]].
  split; [|split].
  - rewrite Forall_map in HF. exact HF.
  - intros ->. apply dirtyIf_valid in Hst.
    destruct (List.filter _ (ownKeys props)) eqn:HE; [|discriminate].
    apply Forall_forall. intros k Hk.
    destruct (includes (map fst shape) k) eqn:Hi; [reflexivity|].
    assert (Hin : In k (List.filter (fun k => negb (includes (map fst shape) k))
                          (ownKeys props))).
    { apply filter_In. split; [exact Hk|]. rewrite Hi. reflexivity. }
    rewrite HE in Hin. contradiction.
  - rewrite Hv. rewrite flat_map_concat_map, map_map, <- flat_map_concat_map.
    reflexivity.
Qed.

(** A strict object with a key outside its shape is never valid. *)
Lemma strict_object_rejects_unknown_key props shape p key :
  In key (ownKeys props) -> includes (map fst shape) key = false ->
  isValid (parse getter (JObj props) (ZodObject shape unknownKeys_strict) p) = false.
Proof.
  intros Hin Hnot.
  destruct (isValid _) eqn:HV; [|reflexivity].
  apply object_valid in HV. destruct HV as [_ [HS _]].
  specialize (HS eq_refl). rewrite Forall_forall in HS.
  rewrite (HS key Hin) in Hnot. discriminate.
Qed.

(** The converse: what makes a strict object valid. *)
Lemma object_accepts props shape uk p :
  Forall (fun kc : string * child =>
            isValid (parseValue getter (getProp (fst kc) props)
                       (resolve getter (snd kc)) (p ++ [PKey (fst kc)])) = true) shape ->
  Forall (fun k => includes (map fst shape) k = true) (ownKeys props) ->
  parse getter (JObj props) (ZodObject shape uk) p
  = mkReturn valid
      (Some (JObj (flat_map
                     (fun kc : string * child =>
                        match value (parseValue getter (getProp (fst kc) props)
                                       (resolve getter (snd kc))
                                       (p ++ [PKey (fst kc)])) with
                        | Some v => [(fst kc, v)]
                        | None => []
                        end) shape)))
      [].
Proof.
  intros HF HK. rewrite parse_viewOf. simpl.
  assert (HE : List.filter (fun k => negb (includes (map fst shape) k)) (ownKeys props) = []).
  { induction HK as [|k rest Hk _ IH]; simpl; [reflexivity|]. rewrite Hk. exact IH. }
  rewrite HE.
  assert (HU : match uk with
               | unknownKeys_strip => @nil ZodIssue
               | unknownKeys_strict => []
               end = []) by (destruct uk; reflexivity).
  rewrite HU, app_nil_r. clear HU HE HK.
  unfold mergeObjectSync. simpl.
  set (pairs := map _ shape).
  assert (HP : Forall (fun kr : string * ParseReturn =>
                         isValid (snd kr) = true /\ issues (snd kr) = []) pairs).
  { subst pairs. apply Forall_map. revert HF. apply Forall_impl. intros kc Hkc.
    simpl. split; [exact Hkc|]. apply wellReported_parseValue.
    apply isValid_status. exact Hkc. }
  assert (HA : existsb isAborted (map snd pairs) = false).
  { apply existsb_false. apply Forall_map. revert HP. apply Forall_impl.
    intros kr [H _]. apply isValid_status in H. unfold isAborted. rewrite H. reflexivity. }
  assert (HD : existsb isDirty (map snd pairs) = false).
  { apply existsb_false. apply Forall_map. revert HP. apply Forall_impl.
    intros kr [H _]. apply isValid_status in H. unfold isDirty. rewrite H. reflexivity. }
  assert (HI : flat_map (fun kr : string * ParseReturn => issues (snd kr)) pairs = []).
  { apply flat_map_nil. revert HP. apply Forall_impl. intros kr [_ H]. exact H. }
  rewrite HA, HD, HI. f_equal. f_equal. f_equal.
  subst pairs. rewrite flat_map_concat_map, map_map, <- flat_map_concat_map.
  reflexivity.
Qed.

Lemma array_valid items type minLength p :
  isValid (parse getter (JArr items) (ZodArray type minLength) p) = true ->
  (forall n, minLength = Some n -> n <= List.length items)
  /\ Forall (fun x => forall q, isValid (parse getter x (resolve getter type) q) = true)
       items
  /\ value (parse getter (JArr items) (ZodArray type minLength) p)
     = Some (JArr (flat_map
                     (fun x => match value (parse getter x (resolve getter type) []) with
                               | Some v => [v]
                               | None => []
                               end) items)).
Proof.
  rewrite parse_viewOf. simpl. intros H.
  apply mergeArray_valid in H. destruct H as [Hst [HF Hv]].
  pose proof (array_results getter (resolve getter type) p items 0) as HR.
  set (rs := map _ (combine _ _)) in *. clearbody rs.
  split; [|split].
  - intros n ->. apply dirtyIf_valid in Hst.
    destruct (Nat.ltb_spec (List.length items) n); [discriminate | assumption].
  - clear Hv Hst. induction HR as [|x r xs rs' [i ->] _ IH]; constructor.
    + intros q. inversion HF; subst.
      destruct (sameOutcome_parse getter x (resolve getter type) q (p ++ [PIndex i]))
        as [Hs _].
      apply isValid_status. rewrite Hs. apply isValid_status. assumption.
    + apply IH. inversion HF; assumption.
  - rewrite Hv. f_equal. f_equal. clear Hv Hst HF.
    induction HR as [|x r xs rs' [i ->] _ IH]; simpl; [reflexivity|].
    destruct (sameOutcome_parse getter x (resolve getter type) [] (p ++ [PIndex i]))
      as [_ Hval].
    rewrite Hval, IH. reflexivity.
Qed.

End ValidObjects.

(* ----------------------------------------------------------------- *)
(** *** [parse] node by node *)

Section ParseEquations.

Variable getter : lazyName -> schema.

Lemma parse_effects j inner refinement p :
  parse getter j (ZodEffects inner refinement) p
  = refined p refinement (parse getter j inner p).
Proof. rewrite !parse_viewOf. reflexivity. Qed.

Lemma parse_optional j inner p :
  parse getter j (ZodOptional inner) p = parse getter j inner p.
Proof. rewrite !parse_viewOf. destruct j; reflexivity. Qed.

Lemma parse_union j options p :
  parse getter j (ZodUnion options) p
  = unionResult p (map (fun o => parse getter j o p) options).
Proof.
  rewrite parse_viewOf. simpl. f_equal. apply map_ext.
  intros o. rewrite parse_viewOf. reflexivity.
Qed.

Lemma parseValue_optional_undefined inner p :
  parseValue getter None (ZodOptional inner) p = OK None.
Proof. reflexivity. Qed.

(** A valid string is a string that passes every check. *)
Lemma string_valid j checks p :
  isValid (parse getter j (ZodString checks) p) = true ->
  exists s, j = JStr s /\ flat_map (stringCheck p s) checks = [].
Proof.
  rewrite parse_viewOf. destruct j; simpl; try discriminate.
  intros H. exists s. split; [reflexivity|].
  apply isValid_status in H. simpl in H. apply dirtyIf_valid in H. exact H.
Qed.

Lemma number_valid j checks p :
  isValid (parse getter j (ZodNumber checks) p) = true ->
  exists n, j = JNum n /\ flat_map (numberCheck p n) checks = [].
Proof.
  rewrite parse_viewOf. destruct j; simpl; try discriminate.
  intros H. exists n. split; [reflexivity|].
  apply isValid_status in H. simpl in H. apply dirtyIf_valid in H. exact H.
Qed.

Lemma number_accepts n checks p :
  flat_map (numberCheck p n) checks = [] ->
  parse getter (JNum n) (ZodNumber checks) p = OK (Some (JNum n)).
Proof. intros H. rewrite parse_viewOf. simpl. rewrite H. reflexivity. Qed.

(** A valid result on a value that is not [undefined] carries a value. *)
Lemma valid_view_has_value s :
  forall dv p,
    dv <> VUndefined ->
    isValid (parseView getter dv s p) = true ->
    value (parseView getter dv s p) <> None.
Proof.
  induction s as [checks|checks| | | |v|values|shp uk|type minLength|items
                 |keyType valueType IHs|options H|d options H|inner IHs
                 |inner refinement IHs] using schema_ind;
    intros dv p Hdv; simpl.
  - destruct dv; simpl; discriminate.
  - destruct dv; simpl; discriminate.
  - destruct dv; simpl; discriminate.
  - destruct dv; simpl; discriminate.
  - destruct dv; simpl; try discriminate. contradiction.
  - destruct (dataOf dv); [|discriminate].
    destruct (strictEquals j v); simpl; discriminate.
  - destruct dv; simpl; try discriminate.
    destruct (includes values s); simpl; discriminate.
  - destruct dv; simpl; try discriminate.
    intros HV. apply mergeObjectSync_valid in HV. destruct HV as [_ [_ ->]]. discriminate.
  - destruct dv; simpl; try discriminate.
    intros HV. apply mergeArray_valid in HV. destruct HV as [_ [_ ->]]. discriminate.
  - destruct dv; simpl; try discriminate.
    destruct (Nat.ltb _ _); [discriminate|].
    intros HV. apply mergeArray_valid in HV. destruct HV as [_ [_ ->]]. discriminate.
  - destruct dv; simpl; try discriminate.
    destruct (existsb _ _); simpl; discriminate.
  - intros HV. destruct (value_unionResult _ _ HV) as [r [Hr ->]].
    apply find_some in Hr. destruct Hr as [Hin Hr].
    apply in_map_iff in Hin. destruct Hin as [o [<- Hin]].
    rewrite Forall_forall in H. apply (H o Hin dv p Hdv Hr).
  - destruct dv; simpl; try discriminate.
    destruct (getProp d raw) as [[| | |tag| |]|]; try discriminate.
    match goal with
    | |- isValid match _ with Some _ => _ | None => ?bad end = true -> _ =>
        assert (HB : isValid bad = false) by reflexivity;
        revert HB; generalize bad
    end.
    intros bad HB.
    induction H as [|lo rest Hlo _ IH]; simpl; [congruence|].
    destruct (String.eqb (fst lo) tag); [|exact IH].
    apply Hlo. discriminate.
  - destruct dv; try (apply IHs; discriminate). contradiction.
  - intros HV. apply refined_valid in HV. destruct HV as [HV [-> _]].
    apply IHs; assumption.
Qed.

Lemma valid_has_value j s p :
  isValid (parse getter j s p) = true ->
  exists v, value (parse getter j s p) = Some v.
Proof.
  rewrite parse_viewOf. intros H.
  apply valid_view_has_value in H; [|destruct j; discriminate].
  destruct (value _); [eauto | contradiction].
Qed.

End ParseEquations.

Lemma getProp_Some_In {A : Type} key (v : A) props :
  getProp key props = Some v -> In (key, v) props.
Proof.
  induction props as [|[k w] rest IH]; simpl; [discriminate|].
  destruct (String.eqb_spec k key) as [->|_].
  - intros [= ->]. left. reflexivity.
  - intros H. right. apply IH. exact H.
Qed.

(* ----------------------------------------------------------------- *)
(** *** The unique-items helper *)

Lemma nodup_length {A : Type} (dec : forall x y : A, {x = y} + {x <> y}) l :
  List.length (nodup dec l) <= List.length l.
Proof.
  induction l as [|x l IH]; simpl; [lia|].
  destruct (in_dec dec x l); simpl; lia.
Qed.

Lemma setSize_full xs :
  Nat.eqb (setSize xs) (List.length xs) = true <-> NoDup xs.
Proof.
  unfold setSize. rewrite Nat.eqb_eq. split.
  - induction xs as [|x xs IH]; simpl; intros H; [constructor|].
    destruct (in_dec string_dec x xs) as [Hin|Hnot].
    + pose proof (nodup_length string_dec xs). lia.
    + simpl in H. constructor; [exact Hnot|]. apply IH. lia.
  - intros H. rewrite (nodup_fixed_point string_dec H). reflexivity.
Qed.

Lemma uniqueItems_serializations arr :
  fst uniqueItems arr = true <-> NoDup (map stringify arr).
Proof.
  unfold uniqueItems; simpl. rewrite <- setSize_full, length_map. reflexivity.
Qed.

(* ----------------------------------------------------------------- *)
(** *** Deep-equal values parse alike

    An object schema rebuilds the object in the order of its shape, so the
    order in which the value lists its keys is forgotten by the parse. *)

Section DeepEqual.

Variable getter : lazyName -> schema.
Hypothesis getter_recordFree : forall n, recordFree (getter n) = true.

Lemma recordFree_resolve c : recordFreeChild c = true -> recordFree (resolve getter c) = true.
Proof.
  destruct c as [s|n|n]; simpl; intros H.
  - exact H.
  - apply getter_recordFree.
  - apply getter_recordFree.
Qed.

Lemma parseView_respects s :
  recordFree s = true ->
  forall d d' p p',
    viewsAgree d d' ->
    sameOutcome (parseView getter d s p) (parseView getter d' s p').
Proof.
  induction s as [checks|checks| | | |v|values|shp uk|type minLength|items
                 |keyType valueType IHs|options H|disc options H|inner IHs
                 |inner refinement IHs] using schema_ind;
    intros HR d d' p p' HS.
  - destruct d, d'; simpl in HS; try contradiction;
      try (split; reflexivity). subst.
    simpl. apply checked_flat_map. intros [n m|r m]; simpl.
    + destruct (Nat.ltb _ _); split; congruence.
    + destruct (Regex.test _ _); split; congruence.
  - destruct d, d'; simpl in HS; try contradiction;
      try (split; reflexivity). subst.
    simpl. apply checked_flat_map. intros [|v i|v i]; simpl.
    + tauto.
    + destruct (if i then _ else _); split; congruence.
    + destruct (if i then _ else _); split; congruence.
  - destruct d, d'; simpl in HS; try contradiction; subst; split; reflexivity.
  - destruct d, d'; simpl in HS; try contradiction; subst; split; reflexivity.
  - destruct d, d'; simpl in HS; try contradiction; subst; split; reflexivity.
  - destruct d, d'; simpl in HS; try contradiction; subst;
      try (apply (sameOutcome_parseView getter (ZodLiteral v)); exact I);
      split; reflexivity.
  - destruct d, d'; simpl in HS; try contradiction; subst; simpl;
      try (split; reflexivity).
    destruct (includes values s0); split; reflexivity.
  - destruct d, d'; simpl in HS; try contradiction;
      try (split; reflexivity).
    destruct HS as [Hkids [Hkeys _]]. simpl.
    match goal with
    | |- sameOutcome (mergeObjectSync ?st _ _) (mergeObjectSync ?st' _ _) =>
        replace st' with st
    end.
    + apply sameOutcome_mergeObjectSync.
      simpl in HR. induction shp as [|[k c] rest IH]; simpl; constructor.
      * simpl. split; [reflexivity|].
        apply andb_true_iff in HR. destruct HR as [Hc _].
        apply Hkids. apply recordFree_resolve. exact Hc.
      * apply IH. apply andb_true_iff in HR. tauto.
    + destruct uk; [reflexivity|].
      assert (HE : List.filter (fun k => negb (includes (map fst shp) k)) (ownKeys raw) = []
                   <-> List.filter (fun k => negb (includes (map fst shp) k)) (ownKeys raw0) = []).
      { clear -Hkeys.
        assert (HN : forall l, List.filter (fun k => negb (includes (map fst shp) k)) l = []
                               <-> forall k, In k l -> includes (map fst shp) k = true).
        { intros l. induction l as [|k l IH]; simpl.
          - split; [intros _ k [] | reflexivity].
          - destruct (includes (map fst shp) k) eqn:Hi; simpl.
            + rewrite IH. split.
              * intros Hl k' [<-|Hin]; auto.
              * intros Hl k' Hin. apply Hl. auto.
            + split; [discriminate|]. intros Hl.
              rewrite (Hl k (or_introl eq_refl)) in Hi. discriminate. }
        rewrite !HN. split; intros Hl k Hin; apply Hl; apply Hkeys; exact Hin. }
      destruct (List.filter _ (ownKeys raw)), (List.filter _ (ownKeys raw0));
        try reflexivity.
      * destruct HE as [HE _]. specialize (HE eq_refl). discriminate.
      * destruct HE as [_ HE]. specialize (HE eq_refl). discriminate.
  - destruct d, d'; simpl in HS; try contradiction;
      try (split; reflexivity).
    destruct HS as [Hlen Hkids]. simpl. rewrite Hlen.
    match goal with
    | |- sameOutcome (mergeArray ?st _ _) (mergeArray ?st' _ _) =>
        replace st' with st
          by (destruct minLength; [|reflexivity]; destruct (Nat.ltb _ _); reflexivity)
    end.
    apply sameOutcome_mergeArray.
    rewrite <- (Forall2_length Hkids).
    simpl in HR. apply recordFree_resolve in HR.
    generalize 0.
    induction Hkids as [|k k' l l' Hk _ IH]; intros n; simpl; constructor.
    + apply Hk. exact HR.
    + apply IH.
  - destruct d, d'; simpl in HS; try contradiction;
      try (split; reflexivity).
    destruct HS as [Hlen Hkids]. simpl. rewrite Hlen.
    destruct (Nat.ltb (List.length raw0) (List.length items)); [split; reflexivity|].
    match goal with
    | |- sameOutcome (mergeArray ?st _ _) (mergeArray ?st' _ _) =>
        replace st' with st by (destruct (Nat.ltb _ _); reflexivity)
    end.
    apply sameOutcome_mergeArray.
    rewrite <- (Forall2_length Hkids).
    simpl in HR. generalize 0. revert items HR.
    induction Hkids as [|k k' l l' Hk _ IH]; intros items HR n; simpl; [constructor|].
    destruct items as [|c items]; simpl; constructor.
    + simpl. apply andb_true_iff in HR. destruct HR as [Hc _].
      apply Hk. apply recordFree_resolve. exact Hc.
    + apply IH. apply andb_true_iff in HR. tauto.
  - simpl in HR. discriminate.
  - simpl. apply sameOutcome_unionResult.
    simpl in HR. induction H as [|o rest Ho _ IH]; simpl; constructor.
    + apply andb_true_iff in HR. apply Ho; tauto.
    + apply IH. apply andb_true_iff in HR. tauto.
  - destruct d, d'; simpl in HS; try contradiction;
      try (split; reflexivity).
    pose proof HS as [_ [_ Htag]]. simpl.
    assert (HT : match getProp disc raw with Some (JStr t) => Some t | _ => None end
                 = match getProp disc raw0 with Some (JStr t) => Some t | _ => None end).
    { destruct (getProp disc raw) as [[| | |t| |]|] eqn:E1;
        destruct (getProp disc raw0) as [[| | |t'| |]|] eqn:E2; try reflexivity;
        try (apply Htag in E1; congruence); try (apply Htag in E2; congruence). }
    destruct (getProp disc raw) as [[| | |t| |]|];
      destruct (getProp disc raw0) as [[| | |t'| |]|];
      try discriminate; try (split; reflexivity).
    injection HT as <-.
    match goal with
    | |- sameOutcome match _ with Some _ => _ | None => ?bad end
                     match _ with Some _ => _ | None => ?bad' end =>
        assert (HB : sameOutcome bad bad') by (split; reflexivity);
        revert HB; generalize bad bad'
    end.
    intros bad bad' HB. simpl in HR.
    induction H as [|[l o] rest Hlo _ IH]; simpl; [exact HB|].
    apply andb_true_iff in HR. destruct HR as [Ho HR].
    destruct (String.eqb l t); [|apply IH; exact HR].
    apply Hlo; [exact Ho | exact HS].
  - simpl in HR. destruct d, d'; simpl in HS; try contradiction;
      try (split; reflexivity); simpl; apply IHs; try exact HR; exact HS.
  - simpl. apply sameOutcome_refined. apply IHs; [exact HR | exact HS].
Qed.

Lemma deepEqual_arrays xs :
  forall ys, deepEqual (JArr xs) (JArr ys) = true ->
             Forall2 (fun x y => deepEqual x y = true) xs ys.
Proof.
  induction xs as [|x xs IH]; intros [|y ys] H; simpl in H; try discriminate.
  - constructor.
  - apply andb_true_iff in H. destruct H as [H1 H2].
    constructor; [exact H1 | apply IH; exact H2].
Qed.

Lemma deepEqual_objects ps qs :
  deepEqual (JObj ps) (JObj qs) = true ->
  List.length ps = List.length qs
  /\ Forall (fun kv : string * json =>
               exists w, getProp (fst kv) qs = Some w /\ deepEqual (snd kv) w = true) ps.
Proof.
  simpl. intros H. apply andb_true_iff in H. destruct H as [Hl H].
  split; [apply Nat.eqb_eq; exact Hl|]. clear Hl.
  induction ps as [|[k v] ps IH]; [constructor|].
  apply andb_true_iff in H. destruct H as [H1 H2].
  constructor; [|apply IH; exact H2].
  simpl. destruct (getProp k qs) as [w|]; [eauto | discriminate].
Qed.

Lemma getProp_None {A : Type} key (props : list (string * A)) :
  getProp key props = None <-> ~ In key (ownKeys props).
Proof.
  induction props as [|[k v] rest IH]; simpl; [tauto|].
  destruct (String.eqb_spec k key) as [->|Hne].
  - split; [discriminate | tauto].
  - rewrite IH. tauto.
Qed.

Lemma wellFormed_elements items :
  wellFormed (JArr items) -> Forall wellFormed items.
Proof.
  induction items as [|x l IH]; intros H; constructor.
  - apply H.
  - apply IH. apply H.
Qed.

Lemma wellFormed_properties props :
  wellFormed (JObj props) ->
  NoDup (ownKeys props) /\ Forall (fun kv : string * json => wellFormed (snd kv)) props.
Proof.
  intros [ND H]. split; [exact ND|]. clear ND.
  induction props as [|[k v] l IH]; constructor.
  - apply H.
  - apply IH. apply H.
Qed.

(** Deep-equal values have, schema by schema, the same status and the same
    parsed value. *)
Lemma parse_respects_deepEqual x :
  forall y, wellFormed x -> wellFormed y -> deepEqual x y = true ->
            kidsAgree (parse getter x) (parse getter y).
Proof.
  induction x as [|b|n|s|items IH|props IH] using json_ind;
    intros y Wx Wy HE; destruct y as [|b'|n'|s'|items'|props'];
    try (simpl in HE; discriminate);
    intros sch HR p p'; rewrite !parse_viewOf; apply parseView_respects;
    try exact HR; simpl.
  - exact I.
  - simpl in HE. apply Bool.eqb_prop in HE. exact HE.
  - simpl in HE. apply Z.eqb_eq in HE. exact HE.
  - simpl in HE. apply String.eqb_eq in HE. exact HE.
  - apply deepEqual_arrays in HE.
    apply wellFormed_elements in Wx, Wy.
    split; [apply (Forall2_length HE)|].
    revert Wx Wy IH. induction HE as [|a b l l' Hab _ IHl]; intros Wx Wy IH;
      simpl; constructor.
    + inversion IH; inversion Wx; inversion Wy; subst. auto.
    + inversion IH; inversion Wx; inversion Wy; subst. auto.
  - apply deepEqual_objects in HE. destruct HE as [Hlen HP].
    apply wellFormed_properties in Wx, Wy.
    destruct Wx as [NDx Wx], Wy as [NDy Wy].
    (* the two objects have the same keys *)
    assert (Hsub : incl (ownKeys props) (ownKeys props')).
    { intros k Hk. unfold ownKeys in Hk. apply in_map_iff in Hk.
      destruct Hk as [[k' v] [<- Hin]]. rewrite Forall_forall in HP.
      destruct (HP _ Hin) as [w [Hw _]]. simpl in Hw.
      apply getProp_Some_In in Hw. apply (in_map fst) in Hw. exact Hw. }
    assert (Hsup : incl (ownKeys props') (ownKeys props)).
    { apply (NoDup_length_incl NDx); [|exact Hsub].
      unfold ownKeys. rewrite !length_map. lia. }
    (* under each key the values are deep-equal *)
    assert (Hval : forall key v, getProp key props = Some v ->
                                 exists w, getProp key props' = Some w
                                           /\ deepEqual v w = true
                                           /\ kidsAgree (parse getter v) (parse getter w)).
    { intros key v Hg. apply getProp_Some_In in Hg.
      rewrite Forall_forall in HP, IH, Wx, Wy.
      destruct (HP _ Hg) as [w [Hw Hvw]]. simpl in Hw, Hvw.
      exists w. split; [exact Hw|]. split; [exact Hvw|].
      apply (IH _ Hg w (Wx _ Hg)); [|exact Hvw].
      apply getProp_Some_In in Hw. apply (Wy _ Hw). }
    split; [|split].
    + intros key sch' HR' q q'. unfold parseValue.
      destruct (getProp key props) as [v|] eqn:Hg.
      * destruct (Hval key v Hg) as [w [-> [_ Hk]]]. apply Hk. exact HR'.
      * assert (Hg' : getProp key props' = None).
        { apply getProp_None. intros Hin. apply Hsup in Hin.
          apply getProp_None in Hg. contradiction. }
        rewrite Hg'. apply sameOutcome_parseView. exact I.
    + intros key. split; [apply Hsub | apply Hsup].
    + intros key tag. split; intros Hg.
      * destruct (Hval key _ Hg) as [w [Hw [Hvw _]]].
        destruct w; simpl in Hvw; try discriminate.
        apply String.eqb_eq in Hvw. subst. exact Hw.
      * destruct (getProp key props) as [v|] eqn:Hv.
        -- destruct (Hval key v Hv) as [w [Hw [Hvw _]]].
           rewrite Hg in Hw. injection Hw as <-.
           destruct v; simpl in Hvw; try discriminate.
           apply String.eqb_eq in Hvw. subst. reflexivity.
        -- exfalso. apply getProp_None in Hv. apply Hv. apply Hsup.
           apply getProp_Some_In in Hg. apply (in_map fst) in Hg. exact Hg.
Qed.

End DeepEqual.

Lemma getter_is_recordFree n : recordFree (getter n) = true.
Proof. destruct n; reflexivity. Qed.

(* ================================================================= *)
(** ** The validation engine *)

Lemma errorIssues_safeParse s data :
  errorIssues (safeParse getter s data) = Returns (issues (parseValue getter data s [])).
Proof.
  destruct (safeParse_returns getter s data) as [[v [E HV]]|[e [E [_ [He _]]]]];
    rewrite E; simpl.
  - f_equal. symmetry. apply wellReported_parseValue.
    unfold isValid in HV. destruct (status _); congruence.
  - rewrite He. reflexivity.
Qed.

Lemma keyIssues_returns key :
  exists found, keyIssues key = Returns found
                /\ Forall (fun i => issuePath i = [PKey key]) found.
Proof.
  unfold keyIssues.
  destruct (safeParse_returns getter rollOption (Some (JStr key)))
    as [[v [E _]]|[e [E _]]];
    rewrite E; eexists; split; try reflexivity; repeat constructor.
Qed.

Lemma valueIssues_returns superValidate key value :
  valueIssues superValidate key value
  = Returns
      (map (fun issue => withPath (PKey key :: issuePath issue) issue)
           (issues
              (parseValue getter value
                 (if String.eqb (typeof value) "string" then rollOption
                  else animationObjects superValidate) []))).
Proof.
  unfold valueIssues.
  destruct (String.eqb (typeof value) "string");
    rewrite errorIssues_safeParse; reflexivity.
Qed.

(** The token-images schema reads the [_tokenImages] property and nothing
    else of the object it is given. *)
Lemma tokenImages_reads_one_property props props' p :
  getProp "_tokenImages" props = getProp "_tokenImages" props' ->
  parse getter (JObj props) tokenImages p = parse getter (JObj props') tokenImages p.
Proof.
  intros E. rewrite !parse_viewOf. simpl. rewrite E. reflexivity.
Qed.

Lemma getProp_In {A : Type} key (v : A) props :
  NoDup (ownKeys props) -> In (key, v) props -> getProp key props = Some v.
Proof.
  induction props as [|[k w] rest IH]; simpl; intros ND Hin; [contradiction|].
  inversion ND as [|? ? Hnot ND']; subst.
  destruct Hin as [[= -> ->]|Hin].
  - rewrite String.eqb_refl. reflexivity.
  - destruct (String.eqb_spec k key) as [->|_].
    + exfalso. apply Hnot. change key with (fst (key, v)). apply in_map. exact Hin.
    + apply IH; assumption.
Qed.

(** One turn of the loop sees the entry it is at, not its siblings. *)
Lemma entryIssues_alone superValidate props key v :
  NoDup (ownKeys props) -> In (key, v) props ->
  entryIssues superValidate (JObj props) key
  = entryIssues superValidate (JObj [(key, v)]) key.
Proof.
  intros ND Hin. unfold entryIssues.
  pose proof (getProp_In key v props ND Hin) as Hg.
  destruct (String.eqb_spec key "_tokenImages") as [->|_].
  - unfold safeParse, parseValue.
    rewrite (tokenImages_reads_one_property props [("_tokenImages", v)]);
      [reflexivity|]. rewrite Hg. reflexivity.
  - simpl asObject. rewrite Hg. simpl. rewrite String.eqb_refl. reflexivity.
Qed.

Lemma entryIssues_returns superValidate data key :
  exists found, entryIssues superValidate data key = Returns found.
Proof.
  unfold entryIssues. destruct (String.eqb key "_tokenImages").
  - rewrite errorIssues_safeParse. eauto.
  - destruct (keyIssues_returns key) as [found [E _]]. rewrite E.
    rewrite valueIssues_returns. simpl. eauto.
Qed.

Lemma forEach_collect {A : Type} (g : A -> outcome (list ZodIssue)) xs :
  (forall x, In x xs -> exists found, g x = Returns found) ->
  forall acc,
  exists perKey,
    Forall2 (fun x found => g x = Returns found) xs perKey
    /\ forEach xs (fun issues x => pushed <- g x ;; Returns (issues ++ pushed)) acc
       = Returns (acc ++ List.concat perKey).
Proof.
  induction xs as [|x rest IH]; intros Hg acc.
  - exists []. split; [constructor|]. simpl. rewrite app_nil_r. reflexivity.
  - destruct (Hg x (or_introl eq_refl)) as [found E].
    destruct (IH (fun y Hy => Hg y (or_intror Hy)) (acc ++ found)) as [perKey [HF HE]].
    exists (found :: perKey). split; [constructor; assumption|].
    simpl. rewrite E. simpl. rewrite HE, <- app_assoc. reflexivity.
Qed.

Lemma forEach_map {A B S : Type} (f : A -> B) xs (body : S -> B -> outcome S) acc :
  forEach (map f xs) body acc = forEach xs (fun a x => body a (f x)) acc.
Proof.
  revert acc. induction xs as [|x rest IH]; intros acc; simpl; [reflexivity|].
  destruct (body acc (f x)); simpl; [apply IH | reflexivity].
Qed.

Lemma Forall2_entries_alone superValidate props :
  NoDup (ownKeys props) ->
  forall entries perKey,
    incl entries props ->
    Forall2 (fun kv found =>
               entryIssues superValidate (JObj props) (fst kv) = Returns found)
            entries perKey ->
    Forall2 (fun kv found =>
               entryIssues superValidate (JObj [kv]) (fst kv) = Returns found)
            entries perKey.
Proof.
  intros ND entries perKey Hincl HF.
  induction HF as [|kv found rest perKey E _ IH]; constructor.
  - rewrite <- E. symmetry. destruct kv as [k v].
    apply entryIssues_alone; [exact ND|]. apply Hincl. left. reflexivity.
  - apply IH. intros kv' Hin. apply Hincl. right. exact Hin.
Qed.

(** C1.  [validateAnimationData] returns for every input, with
    [{success: true}] or [{success: false, error}]; on an object literal the
    issues it reports are the concatenation, key after key, of the issues
    that key yields when validated alone (as the only entry of a document),
    and the result is [{success: true}] exactly when that concatenation is
    empty.  What one entry contributes is therefore neither suppressed nor
    altered by its siblings. *)
Theorem validateAnimationData_collects_every_key
    (superValidate : list json -> list IssueData) :
  (forall data, exists result, validateAnimationData superValidate data = Returns result)
  /\ (forall props,
        NoDup (ownKeys props) ->
        exists perKey,
          Forall2 (fun kv found =>
                     entryIssues superValidate (JObj [kv]) (fst kv) = Returns found)
                  props perKey
          /\ validateAnimationData superValidate (JObj props)
             = Returns match List.concat perKey with
                       | [] => success_true
                       | _ :: _ => success_false (List.concat perKey)
                       end).
Proof.
  assert (HO : forall props,
             exists perKey,
               Forall2 (fun kv found =>
                          entryIssues superValidate (JObj props) (fst kv) = Returns found)
                       props perKey
               /\ validateAnimationData superValidate (JObj props)
                  = Returns match List.concat perKey with
                            | [] => success_true
                            | _ :: _ => success_false (List.concat perKey)
                            end).
  { intros props. unfold validateAnimationData. simpl.
    unfold ownKeys. rewrite forEach_map.
    destruct (forEach_collect
                (fun kv : string * json => entryIssues superValidate (JObj props) (fst kv))
                props
                (fun kv _ => entryIssues_returns superValidate (JObj props) (fst kv)) [])
      as [perKey [HF HE]].
    exists perKey. split; [exact HF|].
    rewrite HE. simpl. destruct (List.concat perKey); reflexivity. }
  split.
  - intros data. destruct data; try (eexists; reflexivity).
    destruct (HO props) as [perKey [_ E]]. rewrite E. eauto.
  - intros props ND. destruct (HO props) as [perKey [HF E]].
    exists perKey. split; [|exact E].
    apply (Forall2_entries_alone superValidate props ND props perKey);
      [apply incl_refl | exact HF].
Qed.

Lemma validateAnimationData_collects_every_key_witness :
  NoDup (ownKeys [("foo", JStr "bar!"); ("a b", JNum 1)])
  /\ exists perKey,
       Forall2 (fun kv found =>
                  entryIssues noSuperIssues (JObj [kv]) (fst kv) = Returns found)
               [("foo", JStr "bar!"); ("a b", JNum 1)] perKey
       /\ validateAnimationData noSuperIssues (JObj [("foo", JStr "bar!"); ("a b", JNum 1)])
          = Returns match List.concat perKey with
                    | [] => success_true
                    | _ :: _ => success_false (List.concat perKey)
                    end.
Proof.
  assert (ND : NoDup (ownKeys [("foo", JStr "bar!"); ("a b", JNum 1)])).
  { repeat constructor; simpl; intuition discriminate. }
  split; [exact ND|].
  exact (proj2 (validateAnimationData_collects_every_key noSuperIssues) _ ND).
Defined.

(** A root that is not an object literal is answered with one issue, whose
    path is empty. *)
Lemma validateAnimationData_rejects_non_objects
    (superValidate : list json -> list IssueData) data :
  (forall props, data <> JObj props) ->
  validateAnimationData superValidate data = Returns (success_false [rootIssue data])
  /\ issuePath (rootIssue data) = [].
Proof.
  intros H. split; [|reflexivity].
  destruct data; try reflexivity. exfalso. apply (H props). reflexivity.
Qed.

(** C2.  The issue for a root that is not an object literal does not tell
    arrays and [null] apart: for both the [received] it carries is
    ['object'].  The two tests of the source compare [data] itself with
    [Array.isArray(data)] and with the string ['null'], so ['array'] is what
    [false] receives and ['null'] what the string ["null"] receives. *)
Theorem rootIssue_reports_object_for_array_and_null
    (superValidate : list json -> list IssueData) :
  (forall items,
      validateAnimationData superValidate (JArr items)
      = Returns (success_false
                   [mkIssue (invalid_type "object" "object") []
                      (Some "JSON must represent an object.")]))
  /\ validateAnimationData superValidate JNull
     = Returns (success_false
                  [mkIssue (invalid_type "object" "object") []
                     (Some "JSON must represent an object.")])
  /\ validateAnimationData superValidate (JBool false)
     = Returns (success_false
                  [mkIssue (invalid_type "object" "array") []
                     (Some "JSON must represent an object.")])
  /\ validateAnimationData superValidate (JStr "null")
     = Returns (success_false
                  [mkIssue (invalid_type "object" "null") []
                     (Some "JSON must represent an object.")]).
Proof. repeat split; reflexivity. Qed.

(** C3.  For an entry other than [_tokenImages], what the loop pushes is the
    issue for the key, at path [[key]], followed by the issues of the value:
    those of validating the value on its own -- as a roll option when it is
    a string, as an array of animation objects otherwise -- each with [key]
    put in front of its path within the value. *)
Theorem value_issues_are_prefixed_by_the_key
    (superValidate : list json -> list IssueData) props key value :
  NoDup (ownKeys props) ->
  In (key, value) props ->
  key <> "_tokenImages" ->
  let within :=
    issues (parseValue getter (Some value)
              (match value with
               | JStr _ => rollOption
               | _ => animationObjects superValidate
               end) []) in
  exists forKey,
    keyIssues key = Returns forKey
    /\ valueIssues superValidate key (Some value)
       = Returns (map (fun issue =>
                         mkIssue (issueCode issue) (PKey key :: issuePath issue)
                           (issueMessage issue)) within)
    /\ entryIssues superValidate (JObj props) key
       = Returns (forKey
                  ++ map (fun issue =>
                            mkIssue (issueCode issue) (PKey key :: issuePath issue)
                              (issueMessage issue)) within)
    /\ Forall (fun issue => exists rest, issuePath issue = PKey key :: rest)
         (forKey
          ++ map (fun issue =>
                    mkIssue (issueCode issue) (PKey key :: issuePath issue)
                      (issueMessage issue)) within).
Proof.
  intros ND Hin Hkey within.
  destruct (keyIssues_returns key) as [forKey [EK HK]].
  exists forKey.
  assert (EV : valueIssues superValidate key (Some value)
               = Returns (map (fun issue =>
                                 mkIssue (issueCode issue) (PKey key :: issuePath issue)
                                   (issueMessage issue)) within)).
  { rewrite valueIssues_returns. unfold within, withPath.
    destruct value; reflexivity. }
  repeat split; try assumption.
  - unfold entryIssues.
    destruct (String.eqb_spec key "_tokenImages") as [E|_]; [contradiction|].
    simpl asObject. rewrite (getProp_In key value props ND Hin).
    rewrite EK, EV. reflexivity.
  - apply Forall_app. split.
    + revert HK. apply Forall_impl. intros i Hi. exists []. exact Hi.
    + apply Forall_map. apply Forall_forall. intros i _. simpl. eauto.
Qed.

Lemma value_issues_are_prefixed_by_the_key_witness :
  exists forKey,
    keyIssues "foo" = Returns forKey
    /\ valueIssues noSuperIssues "foo" (Some (JArr [JNum 1]))
       = Returns [mkIssue (invalid_type "object" "number") [PKey "foo"; PIndex 0] None]
    /\ entryIssues noSuperIssues (JObj [("foo", JArr [JNum 1])]) "foo"
       = Returns (forKey
                  ++ [mkIssue (invalid_type "object" "number") [PKey "foo"; PIndex 0] None])
    /\ Forall (fun issue => exists rest, issuePath issue = PKey "foo" :: rest)
         (forKey
          ++ [mkIssue (invalid_type "object" "number") [PKey "foo"; PIndex 0] None]).
Proof.
  refine (value_issues_are_prefixed_by_the_key noSuperIssues
            [("foo", JArr [JNum 1])] "foo" (JArr [JNum 1]) _ _ _).
  - repeat constructor. simpl. tauto.
  - left. reflexivity.
  - discriminate.
Defined.

(** C8.  The document [{"foo": "not-a-valid-roll-option!"}] fails with
    exactly one issue, the [invalid_string] issue of the roll-option pattern
    at path [["foo"]]: the key passes the pattern, the value does not. *)
Theorem foo_scenario (superValidate : list json -> list IssueData) :
  validateAnimationData superValidate (JObj [("foo", JStr "not-a-valid-roll-option!")])
  = Returns (success_false
               [mkIssue (invalid_string "regex") [PKey "foo"]
                  (Some "String must be a valid roll option.")])
  /\ keyIssues "foo" = Returns []
  /\ Regex.test Patterns.rollOption "foo" = true
  /\ Regex.test Patterns.rollOption "not-a-valid-roll-option!" = false.
Proof. repeat split; vm_compute; reflexivity. Qed.

(** C10.  The empty document is valid. *)
Theorem empty_document_is_valid (superValidate : list json -> list IssueData) :
  validateAnimationData superValidate (JObj []) = Returns success_true.
Proof. reflexivity. Qed.

(** C9.  [getJSONSchema] returns the converted schema for ['animations'] and
    for ['tokenImages'], and throws for every other name. *)
Theorem getJSONSchema_known_names_only
    (superValidate : list json -> list IssueData) (JsonSchema7Type : Type)
    (zodToJsonSchema : schema -> zodToJsonSchemaOptions -> JsonSchema7Type) :
  (exists document,
      getJSONSchema superValidate JsonSchema7Type zodToJsonSchema "animations"
      = Returns document)
  /\ (exists document,
        getJSONSchema superValidate JsonSchema7Type zodToJsonSchema "tokenImages"
        = Returns document)
  /\ (forall schemaName,
        schemaName <> "animations" -> schemaName <> "tokenImages" ->
        getJSONSchema superValidate JsonSchema7Type zodToJsonSchema schemaName
        = Throws "Unknown schema name").
Proof.
  repeat split; try (eexists; reflexivity).
  intros schemaName Ha Ht. unfold getJSONSchema.
  destruct (String.eqb_spec schemaName "animations"); [contradiction|].
  destruct (String.eqb_spec schemaName "tokenImages"); [contradiction|].
  reflexivity.
Qed.

Lemma getJSONSchema_known_names_only_witness :
  "animation" <> "animations" /\ "animation" <> "tokenImages"
  /\ getJSONSchema noSuperIssues schema (fun s _ => s) "animation"
     = Throws "Unknown schema name".
Proof.
  assert (Ha : "animation" <> "animations") by discriminate.
  assert (Ht : "animation" <> "tokenImages") by discriminate.
  split; [exact Ha|]. split; [exact Ht|].
  exact (proj2 (proj2 (getJSONSchema_known_names_only noSuperIssues schema (fun s _ => s)))
           "animation" Ha Ht).
Defined.

(* ================================================================= *)
(** ** The predicate grammar *)

Lemma flat_map_defined {A B : Type} (f : A -> option B) (d : B) l :
  Forall (fun x => exists w, f x = Some w) l ->
  flat_map (fun x => match f x with Some v => [v] | None => [] end) l
  = map (fun x => match f x with Some v => v | None => d end) l.
Proof.
  induction 1 as [|x rest [w Hw] _ IH]; simpl; [reflexivity|].
  rewrite Hw, IH. reflexivity.
Qed.

(** The argument of a combinator: a non-empty array of predicates without
    two equal entries. *)
Lemma predicates_valid v p :
  isValid (parse getter v predicates p) = true ->
  exists arr,
    v = JArr arr /\ arr <> [] /\ NoDup arr
    /\ Forall (fun x => forall q, isValid (parse getter x predicate q) = true) arr
    /\ NoDup (map (fun x => value (parse getter x predicate [])) arr).
Proof.
  unfold predicates, refineArray, Methods.refine, Methods.refineAt, Methods.min, z.array.
  rewrite parse_effects. intros H.
  apply refined_valid in H. destruct H as [HV [_ HR]].
  destruct v; try (rewrite parse_viewOf in HV; discriminate).
  apply array_valid in HV. destruct HV as [Hmin [Hall Hval]].
  exists items. split; [reflexivity|].
  assert (HN : NoDup (map (fun x => value (parse getter x predicate [])) items)).
  { specialize (HR _ Hval). simpl in HR.
    destruct (Nat.eqb _ _) eqn:HU; [|discriminate].
    apply uniqueItems_serializations in HU.
    (* every element is valid, so each contributes exactly its parsed value *)
    rewrite (flat_map_defined (fun x => value (parse getter x predicate [])) JNull) in HU.
    - apply NoDup_map_inv in HU.
      rewrite <- (map_map (fun x => value (parse getter x predicate []))
                          (fun o => match o with Some v => v | None => JNull end)) in HU.
      apply NoDup_map_inv in HU. exact HU.
    - revert Hall. apply Forall_impl. intros x Hx.
      apply (valid_has_value getter x predicate [] (Hx [])). }
  split; [|split; [|split]].
  - specialize (Hmin 1 eq_refl). destruct items; [simpl in Hmin; lia | discriminate].
  - apply NoDup_map_inv in HN. exact HN.
  - exact Hall.
  - exact HN.
Qed.

(** No two entries of an accepted combinator array are deep-equal, however
    their objects order their keys: the entries are compared after the
    parse, which has rebuilt each object in the order of its schema. *)
Lemma predicates_valid_deepEqual arr p :
  isValid (parse getter (JArr arr) predicates p) = true ->
  wellFormed (JArr arr) ->
  forall i j x y,
    i <> j -> nth_error arr i = Some x -> nth_error arr j = Some y ->
    deepEqual x y = false.
Proof.
  intros H W i j x y Hij Hx Hy.
  apply predicates_valid in H. destruct H as [arr' [E [_ [_ [_ HN]]]]].
  injection E as <-.
  destruct (deepEqual x y) eqn:HE; [exfalso | reflexivity].
  apply wellFormed_elements in W. rewrite Forall_forall in W.
  assert (HS : sameOutcome (parse getter x predicate []) (parse getter y predicate [])).
  { apply (parse_respects_deepEqual getter getter_is_recordFree x y).
    - apply W. apply (nth_error_In _ _ Hx).
    - apply W. apply (nth_error_In _ _ Hy).
    - exact HE.
    - reflexivity. }
  destruct HS as [_ HS].
  apply Hij. rewrite NoDup_nth_error in HN. apply HN.
  - rewrite length_map. apply nth_error_Some. rewrite Hx. discriminate.
  - rewrite !nth_error_map, Hx, Hy. simpl. rewrite HS. reflexivity.
Qed.

Lemma rollOption_valid j p :
  isValid (parse getter j rollOption p) = true ->
  exists s, j = JStr s /\ Regex.test Patterns.rollOption s = true.
Proof.
  intros H. apply string_valid in H. destruct H as [s [-> H]].
  exists s. split; [reflexivity|]. simpl in H.
  destruct (Regex.test Patterns.rollOption s); [reflexivity | discriminate].
Qed.

(** The argument of a comparison: a roll option, then a roll option or a
    number. *)
Lemma comparison_tuple_valid v p :
  isValid (parse getter v
             (z.tuple [Now rollOption; Now (Methods.or z.number rollOption)]) p) = true ->
  exists a b,
    v = JArr [JStr a; b]
    /\ Regex.test Patterns.rollOption a = true
    /\ ((exists n, b = JNum n)
        \/ (exists s, b = JStr s /\ Regex.test Patterns.rollOption s = true)).
Proof.
  intros H. rewrite parse_viewOf in H.
  destruct v; try discriminate.
  destruct items as [|a [|b [|c rest]]]; try discriminate.
  - (* exactly two elements *)
    simpl in H. apply mergeArray_valid in H. destruct H as [_ [HF _]].
    inversion HF as [|? ? Ha HF']; subst. inversion HF' as [|? ? Hb _]; subst.
    apply rollOption_valid in Ha. destruct Ha as [s [-> Hs]].
    exists s, b. split; [reflexivity|]. split; [exact Hs|].
    unfold Methods.or in Hb. rewrite parse_union in Hb.
    rewrite isValid_unionResult in Hb. simpl in Hb.
    apply orb_true_iff in Hb. destruct Hb as [Hb|Hb].
    + right. apply rollOption_valid in Hb. exact Hb.
    + rewrite orb_false_r in Hb. left. apply number_valid in Hb.
      destruct Hb as [n [-> _]]. eauto.
  - (* more than two: [too_big] *)
    simpl in H. apply mergeArray_valid in H. destruct H as [H _]. discriminate.
Qed.

Lemma single_strict_object_valid key c v p :
  isValid (parse getter (JObj [(key, v)]) (ZodObject [(key, c)] unknownKeys_strict) p) = true ->
  isValid (parse getter v (resolve getter c) (p ++ [PKey key])) = true.
Proof.
  intros H. apply object_valid in H. destruct H as [HF _].
  inversion HF as [|? ? H _]; subst. simpl in H. rewrite String.eqb_refl in H. exact H.
Qed.

(** Which option of the union can accept [{ key: v }]. *)
Lemma predicate_object_valid key v p :
  isValid (parse getter (JObj [(key, v)]) predicate p) = true ->
  (In key comparisonKeys
   /\ isValid (parse getter v
                 (z.tuple [Now rollOption; Now (Methods.or z.number rollOption)])
                 (p ++ [PKey key])) = true)
  \/ (In key combinatorKeys
      /\ isValid (parse getter v predicates (p ++ [PKey key])) = true)
  \/ (key = "not" /\ isValid (parse getter v predicate (p ++ [PKey key])) = true).
Proof.
  intros H. unfold predicate, z.union in H. rewrite parse_union in H.
  rewrite isValid_unionResult in H. apply existsb_exists in H.
  destruct H as [r [Hin Hr]]. apply in_map_iff in Hin.
  destruct Hin as [o [<- Hin]].
  assert (Hreject : forall shp,
             includes (map fst shp) key = false ->
             isValid (parse getter (JObj [(key, v)])
                        (ZodObject shp unknownKeys_strict) p) = true -> False).
  { intros shp Hk HV.
    rewrite (strict_object_rejects_unknown_key getter [(key, v)] shp p key) in HV;
      [discriminate | left; reflexivity | exact Hk]. }
  assert (Hkey : forall k, includes [k] key = false \/ key = k).
  { intros k. simpl. destruct (String.eqb_spec key k); auto. }
  simpl in Hin.
  repeat match goal with
         | H : _ \/ _ |- _ => destruct H as [H|H]
         end; try contradiction; subst o.
  - rewrite parse_viewOf in Hr. discriminate.
  - destruct (Hkey "eq") as [Hk| ->]; [exfalso; refine (Hreject _ _ Hr); exact Hk|].
    left. split; [simpl; tauto|]. apply single_strict_object_valid in Hr. exact Hr.
  - destruct (Hkey "gt") as [Hk| ->]; [exfalso; refine (Hreject _ _ Hr); exact Hk|].
    left. split; [simpl; tauto|]. apply single_strict_object_valid in Hr. exact Hr.
  - destruct (Hkey "gte") as [Hk| ->]; [exfalso; refine (Hreject _ _ Hr); exact Hk|].
    left. split; [simpl; tauto|]. apply single_strict_object_valid in Hr. exact Hr.
  - destruct (Hkey "lt") as [Hk| ->]; [exfalso; refine (Hreject _ _ Hr); exact Hk|].
    left. split; [simpl; tauto|]. apply single_strict_object_valid in Hr. exact Hr.
  - destruct (Hkey "lte") as [Hk| ->]; [exfalso; refine (Hreject _ _ Hr); exact Hk|].
    left. split; [simpl; tauto|]. apply single_strict_object_valid in Hr. exact Hr.
  - destruct (Hkey "and") as [Hk| ->]; [exfalso; refine (Hreject _ _ Hr); exact Hk|].
    right. left. split; [simpl; tauto|]. apply single_strict_object_valid in Hr. exact Hr.
  - destruct (Hkey "or") as [Hk| ->]; [exfalso; refine (Hreject _ _ Hr); exact Hk|].
    right. left. split; [simpl; tauto|]. apply single_strict_object_valid in Hr. exact Hr.
  - destruct (Hkey "xor") as [Hk| ->]; [exfalso; refine (Hreject _ _ Hr); exact Hk|].
    right. left. split; [simpl; tauto|]. apply single_strict_object_valid in Hr. exact Hr.
  - destruct (Hkey "not") as [Hk| ->]; [exfalso; refine (Hreject _ _ Hr); exact Hk|].
    right. right. split; [reflexivity|]. apply single_strict_object_valid in Hr. exact Hr.
  - destruct (Hkey "nand") as [Hk| ->]; [exfalso; refine (Hreject _ _ Hr); exact Hk|].
    right. left. split; [simpl; tauto|]. apply single_strict_object_valid in Hr. exact Hr.
  - destruct (Hkey "nor") as [Hk| ->]; [exfalso; refine (Hreject _ _ Hr); exact Hk|].
    right. left. split; [simpl; tauto|]. apply single_strict_object_valid in Hr. exact Hr.
  - (* { if, then }: a single key leaves one of the two undefined *)
    exfalso. apply object_valid in Hr. destruct Hr as [HF _].
    inversion HF as [|? ? Hif HF']; subst. inversion HF' as [|? ? Hthen _]; subst.
    simpl in Hif, Hthen.
    destruct (String.eqb_spec key "if") as [->|_];
      [simpl in Hthen; discriminate | simpl in Hif; discriminate].
  - destruct (Hkey "iff") as [Hk| ->]; [exfalso; refine (Hreject _ _ Hr); exact Hk|].
    right. left. split; [simpl; tauto|]. apply single_strict_object_valid in Hr. exact Hr.
Qed.

(** C6.  A combinator object is accepted only with a non-empty array of
    accepted predicates no two of which are equal, be it as written or, for
    a value without repeated keys, up to the order of the keys of nested
    objects; a comparison object only with a pair of a roll option and a
    roll option or number.  [{eq: ["a","b"]}] passes and
    [{eq: ["a","a","a"]}] fails. *)
Theorem predicate_combinators_and_comparisons :
  (forall op v parsed,
      In op combinatorKeys ->
      safeParse getter predicate (Some (JObj [(op, v)])) = SafeParseSuccess parsed ->
      exists arr,
        v = JArr arr /\ arr <> [] /\ NoDup arr
        /\ Forall (fun x => exists w,
                       safeParse getter predicate (Some x) = SafeParseSuccess w) arr
        /\ (wellFormed v ->
            forall i j x y,
              i <> j -> nth_error arr i = Some x -> nth_error arr j = Some y ->
              deepEqual x y = false))
  /\ (forall op v parsed,
        In op comparisonKeys ->
        safeParse getter predicate (Some (JObj [(op, v)])) = SafeParseSuccess parsed ->
        exists a b,
          v = JArr [JStr a; b]
          /\ Regex.test Patterns.rollOption a = true
          /\ ((exists n, b = JNum n)
              \/ (exists s, b = JStr s /\ Regex.test Patterns.rollOption s = true)))
  /\ safeParse getter predicate (Some (JObj [("eq", JArr [JStr "a"; JStr "b"])]))
     = SafeParseSuccess (Some (JObj [("eq", JArr [JStr "a"; JStr "b"])]))
  /\ safeParse getter predicate (Some (JObj [("eq", JArr [JStr "a"; JStr "a"; JStr "a"])]))
     = SafeParseError [mkIssue (too_big "array" 2 true false) [PKey "eq"] None].
Proof.
  assert (HS : forall data parsed,
             safeParse getter predicate (Some data) = SafeParseSuccess parsed ->
             isValid (parse getter data predicate []) = true).
  { intros data parsed H.
    destruct (safeParse_returns getter predicate (Some data)) as [[w [_ HV]]|[e [E _]]].
    - exact HV.
    - congruence. }
  split; [|split; [|split]].
  - intros op v parsed Hop H. apply HS in H. apply predicate_object_valid in H.
    destruct H as [[Hk _]|[[_ H]|[-> _]]].
    + exfalso. simpl in Hop, Hk.
      repeat match goal with H : _ \/ _ |- _ => destruct H as [H|H] end;
        try contradiction; subst; discriminate.
    + pose proof H as HV.
      apply predicates_valid in H. destruct H as [arr [-> [Hne [Hnd [Hall _]]]]].
      exists arr. split; [reflexivity|]. split; [exact Hne|]. split; [exact Hnd|].
      split.
      * revert Hall. apply Forall_impl. intros x Hx.
        destruct (safeParse_returns getter predicate (Some x)) as [[w [E _]]|[e [_ [_ [_ HI]]]]].
        -- exists w. exact E.
        -- unfold parseValue in HI. rewrite (Hx []) in HI. discriminate.
      * intros W. apply (predicates_valid_deepEqual arr _ HV W).
    + exfalso. simpl in Hop.
      repeat match goal with H : _ \/ _ |- _ => destruct H as [H|H] end;
        try contradiction; discriminate.
  - intros op v parsed Hop H. apply HS in H. apply predicate_object_valid in H.
    destruct H as [[_ H]|[[Hk _]|[-> _]]].
    + apply comparison_tuple_valid in H. exact H.
    + exfalso. simpl in Hop, Hk.
      repeat match goal with H : _ \/ _ |- _ => destruct H as [H|H] end;
        try contradiction; subst; discriminate.
    + exfalso. simpl in Hop.
      repeat match goal with H : _ \/ _ |- _ => destruct H as [H|H] end;
        try contradiction; discriminate.
  - vm_compute. reflexivity.
  - vm_compute. reflexivity.
Qed.

Lemma predicate_combinators_and_comparisons_witness :
  In "and" combinatorKeys
  /\ In "eq" comparisonKeys
  /\ (exists arr,
         JArr [JStr "a"; JStr "b"] = JArr arr /\ arr <> [] /\ NoDup arr
         /\ Forall (fun x => exists w,
                        safeParse getter predicate (Some x) = SafeParseSuccess w) arr
         /\ (wellFormed (JArr [JStr "a"; JStr "b"]) ->
             forall i j x y,
               i <> j -> nth_error arr i = Some x -> nth_error arr j = Some y ->
               deepEqual x y = false))
  /\ (exists a b,
         JArr [JStr "a"; JNum 3] = JArr [JStr a; b]
         /\ Regex.test Patterns.rollOption a = true
         /\ ((exists n, b = JNum n)
             \/ (exists s, b = JStr s /\ Regex.test Patterns.rollOption s = true))).
Proof.
  assert (Hand : In "and" combinatorKeys) by (simpl; tauto).
  assert (Heq : In "eq" comparisonKeys) by (simpl; tauto).
  split; [exact Hand|]. split; [exact Heq|]. split.
  - apply (proj1 predicate_combinators_and_comparisons "and" (JArr [JStr "a"; JStr "b"])
             (Some (JObj [("and", JArr [JStr "a"; JStr "b"])])) Hand).
    vm_compute. reflexivity.
  - apply (proj1 (proj2 predicate_combinators_and_comparisons) "eq" (JArr [JStr "a"; JNum 3])
             (Some (JObj [("eq", JArr [JStr "a"; JNum 3])])) Heq).
    vm_compute. reflexivity.
Defined.

(** Two entries that differ only in the order of their keys are duplicates
    for the combinator, although [uniqueItems] alone tells them apart. *)
Example and_rejects_reordered_duplicate :
  safeParse getter predicate
    (Some (JObj [("and", JArr [JObj [("if", JStr "a"); ("then", JStr "b")];
                               JObj [("then", JStr "b"); ("if", JStr "a")]])]))
  = SafeParseError [mkIssue custom [PKey "and"] (Some "Items must be unique.")].
Proof. vm_compute. reflexivity. Qed.

(* ================================================================= *)
(** ** The Blur filter *)
















Lemma getProp_map_snd {A B : Type} (f : A -> B) key (props : list (string * A)) :
  getProp key (map (fun kv : string * A => (fst kv, f (snd kv))) props)
  = option_map f (getProp key props).
Proof.
  induction props as [|[k v] rest IH]; simpl; [reflexivity|].
  destruct (String.eqb k key); [reflexivity | exact IH].
Qed.

(** A discriminated union hands the object to the option its tag selects. *)
Lemma parse_discriminatedUnion props d options tag o p :
  getProp d props = Some (JStr tag) ->
  getProp tag options = Some o ->
  parse getter (JObj props) (ZodDiscriminatedUnion d options) p
  = parse getter (JObj props) o p.
Proof.
  intros Hd Ho. rewrite !parse_viewOf. cbn [parseView viewOf]. rewrite Hd.
  rewrite (getProp_map_snd
             (fun s => parseView getter
                         (VObj props (fun key => parseValue getter (getProp key props)))
                         s p)), Ho.
  reflexivity.
Qed.






(* ================================================================= *)
(** ** The token-images schema *)

Section Rejection.

(** How a rejection travels up through the nodes of a schema. *)
Lemma object_rejects_field props shp uk p key c :
  In (key, c) shp ->
  (forall q, isValid (parseValue getter (getProp key props) (resolve getter c) q) = false) ->
  isValid (parse getter (JObj props) (ZodObject shp uk) p) = false.
Proof.
  intros Hin Hbad. destruct (isValid _) eqn:HV; [exfalso | reflexivity].
  apply object_valid in HV. destruct HV as [HF _].
  rewrite Forall_forall in HF. specialize (HF _ Hin). simpl in HF.
  rewrite Hbad in HF. discriminate.
Qed.

Lemma array_rejects_element items type minLength p x :
  In x items ->
  (forall q, isValid (parse getter x (resolve getter type) q) = false) ->
  isValid (parse getter (JArr items) (ZodArray type minLength) p) = false.
Proof.
  intros Hin Hbad. destruct (isValid _) eqn:HV; [exfalso | reflexivity].
  apply array_valid in HV. destruct HV as [_ [HF _]].
  rewrite Forall_forall in HF. specialize (HF _ Hin []).
  rewrite Hbad in HF. discriminate.
Qed.

Lemma effects_rejects j inner refinement p :
  isValid (parse getter j inner p) = false ->
  isValid (parse getter j (ZodEffects inner refinement) p) = false.
Proof. intros H. rewrite parse_effects. apply refined_invalid. exact H. Qed.

Lemma union_rejects j options p :
  Forall (fun o => isValid (parse getter j o p) = false) options ->
  isValid (parse getter j (ZodUnion options) p) = false.
Proof.
  intros H. rewrite parse_union, isValid_unionResult.
  apply existsb_false. apply Forall_map. exact H.
Qed.

End Rejection.

Lemma tokenImages_rejects_entry props entries entry :
  getProp "_tokenImages" props = Some (JArr entries) ->
  In entry entries ->
  (forall q, isValid (parse getter entry tokenImageEntry q) = false) ->
  forall p, isValid (parse getter (JObj props) tokenImages p) = false.
Proof.
  intros Hg Hin Hbad p. unfold tokenImages, z.object.
  eapply (object_rejects_field props _ _ p "_tokenImages"); [left; reflexivity|].
  intros q. rewrite Hg. unfold parseValue.
  apply effects_rejects.
  apply (array_rejects_element entries _ _ q entry Hin). exact Hbad.
Qed.

Lemma tokenImageEntry_rejects_rule eprops rules rule :
  getProp "rules" eprops = Some (JArr rules) ->
  In rule rules ->
  (forall q, isValid (parse getter rule tokenImageRule q) = false) ->
  forall p, isValid (parse getter (JObj eprops) tokenImageEntry p) = false.
Proof.
  intros Hg Hin Hbad p. unfold tokenImageEntry, Methods.strict, z.object.
  eapply (object_rejects_field eprops _ _ p "rules").
  - do 3 right. left. reflexivity.
  - intros q. rewrite Hg. unfold parseValue.
    apply effects_rejects.
    apply (array_rejects_element rules _ _ q rule Hin). exact Hbad.
Qed.

Lemma tokenImageRule_object rprops p :
  isValid (parse getter (JObj rprops) tokenImageRuleObject p) = false ->
  isValid (parse getter (JObj rprops) tokenImageRule p) = false.
Proof.
  intros H. apply union_rejects. constructor; [|constructor; [exact H | constructor]].
  rewrite parse_viewOf. reflexivity.
Qed.

Lemma ruleObject_rejects_field rprops key c :
  In (key, c) (match tokenImageRuleObject with
               | ZodObject shp _ => shp
               | _ => []
               end) ->
  (forall q, isValid (parseValue getter (getProp key rprops) (resolve getter c) q) = false) ->
  forall p, isValid (parse getter (JObj rprops) tokenImageRule p) = false.
Proof.
  intros Hin Hbad p. apply tokenImageRule_object.
  apply (object_rejects_field rprops _ _ p key c Hin Hbad).
Qed.

(** C4, as the code has it.  The token-images schema reads the
    [_tokenImages] property of the root and ignores every other key of it;
    below the root it is closed: an unrecognized key in an entry of the
    array, in a rule object, or in the [animation], [ring], [subject] or
    [colors] object of a rule makes the validation fail. *)
Theorem tokenImages_is_closed_below_the_root :
  (forall props props' p,
      getProp "_tokenImages" props = getProp "_tokenImages" props' ->
      parse getter (JObj props) tokenImages p = parse getter (JObj props') tokenImages p)
  /\ (forall props entries eprops key p,
        getProp "_tokenImages" props = Some (JArr entries) ->
        In (JObj eprops) entries ->
        unknownKey entryKeys eprops key ->
        isValid (parse getter (JObj props) tokenImages p) = false)
  /\ (forall props entries eprops rules rprops,
        getProp "_tokenImages" props = Some (JArr entries) ->
        In (JObj eprops) entries ->
        getProp "rules" eprops = Some (JArr rules) ->
        In (JObj rprops) rules ->
        forall p,
          (forall key, unknownKey ruleKeys rprops key ->
                       isValid (parse getter (JObj props) tokenImages p) = false)
          /\ (forall aprops key,
                 getProp "animation" rprops = Some (JObj aprops) ->
                 unknownKey ["duration"; "transition"; "easing"; "name"] aprops key ->
                 isValid (parse getter (JObj props) tokenImages p) = false)
          /\ (forall gprops,
                 getProp "ring" rprops = Some (JObj gprops) ->
                 (forall key, unknownKey ["subject"; "colors"] gprops key ->
                              isValid (parse getter (JObj props) tokenImages p) = false)
                 /\ (forall sprops key,
                        getProp "subject" gprops = Some (JObj sprops) ->
                        unknownKey ["texture"; "scale"] sprops key ->
                        isValid (parse getter (JObj props) tokenImages p) = false)
                 /\ (forall cprops key,
                        getProp "colors" gprops = Some (JObj cprops) ->
                        unknownKey ["background"; "ring"] cprops key ->
                        isValid (parse getter (JObj props) tokenImages p) = false))).
Proof.
  split; [exact tokenImages_reads_one_property|]. split.
  - intros props entries eprops key p Hg Hin [Hk Hu].
    apply (tokenImages_rejects_entry props entries (JObj eprops) Hg Hin).
    intros q. apply (strict_object_rejects_unknown_key getter eprops _ q key Hk). exact Hu.
  - intros props entries eprops rules rprops Hg Hin Hr Hrule p.
    assert (Hup : (forall q, isValid (parse getter (JObj rprops) tokenImageRule q) = false) ->
                  isValid (parse getter (JObj props) tokenImages p) = false).
    { intros Hbad.
      apply (tokenImages_rejects_entry props entries (JObj eprops) Hg Hin).
      apply (tokenImageEntry_rejects_rule eprops rules (JObj rprops) Hr Hrule Hbad). }
    split; [|split].
    + intros key [Hk Hu]. apply Hup. intros q. apply tokenImageRule_object.
      apply (strict_object_rejects_unknown_key getter rprops _ q key Hk). exact Hu.
    + intros aprops key Ha [Hk Hu]. apply Hup.
      eapply (ruleObject_rejects_field rprops "animation").
      * simpl. repeat first [left; reflexivity | right].
      * intros q. rewrite Ha. unfold parseValue. apply effects_rejects.
        apply (strict_object_rejects_unknown_key getter aprops _ q key Hk). exact Hu.
    + intros gprops Hring.
      assert (Hup' : (forall q, isValid (parse getter (JObj gprops)
                                    (ZodObject
                                       [prop "subject"
                                          (refine' nonEmpty
                                             (ZodObject
                                                [prop "texture" filePath;
                                                 prop "scale" (ZodOptional z.number)]
                                                unknownKeys_strict));
                                        prop "colors"
                                          (ZodOptional
                                             (refine' nonEmpty
                                                (ZodObject
                                                   [prop "background" (ZodOptional z.string);
                                                    prop "ring" (ZodOptional z.string)]
                                                   unknownKeys_strict)))]
                                       unknownKeys_strict) q) = false) ->
                     isValid (parse getter (JObj props) tokenImages p) = false).
      { intros Hbad. apply Hup.
        eapply (ruleObject_rejects_field rprops "ring").
        - simpl. repeat first [left; reflexivity | right].
        - intros q. rewrite Hring. unfold parseValue.
          cbn [resolve]. rewrite parse_optional. apply effects_rejects. apply Hbad. }
      split; [|split].
      * intros key [Hk Hu]. apply Hup'. intros q.
        apply (strict_object_rejects_unknown_key getter gprops _ q key Hk). exact Hu.
      * intros sprops key Hs [Hk Hu]. apply Hup'. intros q.
        eapply (object_rejects_field gprops _ _ q "subject"); [left; reflexivity|].
        intros q'. rewrite Hs. unfold parseValue. apply effects_rejects.
        apply (strict_object_rejects_unknown_key getter sprops _ q' key Hk). exact Hu.
      * intros cprops key Hc [Hk Hu]. apply Hup'. intros q.
        eapply (object_rejects_field gprops _ _ q "colors");
          [right; left; reflexivity|].
        intros q'. rewrite Hc. unfold parseValue. cbn [resolve].
        rewrite parse_optional. apply effects_rejects.
        apply (strict_object_rejects_unknown_key getter cprops _ q' key Hk). exact Hu.
Qed.

Lemma tokenImages_is_closed_below_the_root_witness :
  unknownKey entryKeys [("name", JStr "a"); ("colour", JStr "red")] "colour"
  /\ isValid (parse getter
                (JObj [("_tokenImages",
                        JArr [JObj [("name", JStr "a"); ("colour", JStr "red")]])])
                tokenImages []) = false
  /\ parse getter (JObj [("_tokenImages", JArr [sampleEntry]); ("strike", JNum 1)])
       tokenImages []
     = parse getter (JObj [("_tokenImages", JArr [sampleEntry])]) tokenImages [].
Proof.
  assert (HU : unknownKey entryKeys [("name", JStr "a"); ("colour", JStr "red")] "colour").
  { split; [simpl; tauto | reflexivity]. }
  split; [exact HU|]. split.
  - apply (proj1 (proj2 tokenImages_is_closed_below_the_root)
             [("_tokenImages", JArr [JObj [("name", JStr "a"); ("colour", JStr "red")]])]
             [JObj [("name", JStr "a"); ("colour", JStr "red")]]
             [("name", JStr "a"); ("colour", JStr "red")] "colour" [] eq_refl
             (or_introl eq_refl) HU).
  - apply (proj1 tokenImages_is_closed_below_the_root). reflexivity.
Defined.

(** A root object with a key the token-images schema does not know is
    accepted by it, and the document as a whole is valid. *)
Lemma tokenImages_accepts_unknown_sibling :
  safeParse getter tokenImages
    (Some (JObj [("_tokenImages", JArr [sampleEntry]); ("unknown sibling", JNum 1)]))
  = SafeParseSuccess (Some (JObj [("_tokenImages", JArr [sampleEntry])]))
  /\ validateAnimationData noSuperIssues
       (JObj [("_tokenImages", JArr [sampleEntry]); ("strike", JStr "hit")])
     = Returns success_true.
Proof. split; vm_compute; reflexivity. Qed.

(* ================================================================= *)
(** ** [JSON.stringify] tells values apart *)

Lemma append_assoc' (a b c : string) : ((a ++ b) ++ c = a ++ (b ++ c))%string.
Proof. induction a as [|x a IH]; simpl; [reflexivity | rewrite IH; reflexivity]. Qed.

Lemma unquoteChar_quoteChar c r :
  unquoteChar (quoteChar c ++ r) = Some (c, r).
Proof.
  destruct c as [[|] [|] [|] [|] [|] [|] [|] [|]]; reflexivity.
Qed.

Lemma quoteChar_head c r r' : (quoteChar c ++ r)%string <> String dquote r'.
Proof.
  destruct c as [[|] [|] [|] [|] [|] [|] [|] [|]]; discriminate.
Qed.

Lemma quoteBody_inj s :
  forall t r1 r2,
    (quoteBody s ++ String dquote r1 = quoteBody t ++ String dquote r2)%string ->
    s = t /\ r1 = r2.
Proof.
  induction s as [|c s IH]; intros [|c' t] r1 r2; simpl; intros H.
  - injection H as H. auto.
  - rewrite append_assoc' in H. symmetry in H. apply quoteChar_head in H. contradiction.
  - rewrite append_assoc' in H. apply quoteChar_head in H. contradiction.
  - rewrite !append_assoc' in H.
    assert (E : unquoteChar (quoteChar c ++ quoteBody s ++ String dquote r1)
                = unquoteChar (quoteChar c' ++ quoteBody t ++ String dquote r2))
      by (rewrite H; reflexivity).
    rewrite !unquoteChar_quoteChar in E. injection E as -> E.
    apply IH in E. destruct E as [-> ->]. auto.
Qed.

Lemma quoteJSONString_inj s t r1 r2 :
  (quoteJSONString s ++ r1 = quoteJSONString t ++ r2)%string -> s = t /\ r1 = r2.
Proof.
  unfold quoteJSONString. simpl. intros H. injection H as H.
  rewrite !append_assoc' in H. simpl in H. apply quoteBody_inj in H. exact H.
Qed.

Lemma string_of_uint_inj d1 :
  forall d2 r1 r2,
    delimited r1 = true -> delimited r2 = true ->
    (NilEmpty.string_of_uint d1 ++ r1 = NilEmpty.string_of_uint d2 ++ r2)%string ->
    d1 = d2 /\ r1 = r2.
Proof.
  induction d1; intros d2 r1 r2 H1 H2 H; destruct d2; simpl in H;
    try discriminate;
    try (subst; simpl in *; discriminate);
    try (injection H as H; destruct (IHd1 _ _ _ H1 H2 H) as [-> ->]; auto).
  auto.
Qed.

Lemma string_of_uint_head d r :
  d <> Decimal.Nil ->
  exists x tail, (NilEmpty.string_of_uint d ++ r)%string = String x tail
                 /\ digitHead x = true.
Proof.
  intros Hd. destruct d; try contradiction; simpl; eexists; eexists; split;
    try reflexivity; reflexivity.
Qed.

Lemma digitHead_valueHead x : digitHead x = true -> valueHead x = true.
Proof.
  destruct x as [[|] [|] [|] [|] [|] [|] [|] [|]]; simpl; intros H;
    first [reflexivity | discriminate].
Qed.

Lemma to_int_cases n :
  exists d, d <> Decimal.Nil
            /\ (Z.to_int n = Decimal.Pos d \/ Z.to_int n = Decimal.Neg d).
Proof.
  destruct n; simpl.
  - exists Decimal.zero. split; [discriminate | auto].
  - exists (Pos.to_uint p). split; [apply DecimalPos.Unsigned.to_uint_nonnil | auto].
  - exists (Pos.to_uint p). split; [apply DecimalPos.Unsigned.to_uint_nonnil | auto].
Qed.

Lemma numberHead_valueHead x : numberHead x = true -> valueHead x = true.
Proof.
  destruct x as [[|] [|] [|] [|] [|] [|] [|] [|]]; simpl; intros H;
    first [reflexivity | discriminate].
Qed.

Lemma numberToString_head n r :
  exists x tail, (numberToString n ++ r)%string = String x tail /\ numberHead x = true.
Proof.
  unfold numberToString. destruct (to_int_cases n) as [d [Hd [-> | ->]]]; simpl.
  - destruct (string_of_uint_head d r Hd) as [x [tail [E Hx]]].
    exists x, tail. split; [exact E|]. unfold numberHead. rewrite Hx. apply orb_true_r.
  - eexists. eexists. split; reflexivity.
Qed.

Lemma numberToString_inj n m r1 r2 :
  delimited r1 = true -> delimited r2 = true ->
  (numberToString n ++ r1 = numberToString m ++ r2)%string ->
  n = m /\ r1 = r2.
Proof.
  unfold numberToString. intros H1 H2 H.
  destruct (to_int_cases n) as [d [Hd En]], (to_int_cases m) as [e [He Em]].
  assert (HE : Z.to_int n = Z.to_int m /\ r1 = r2).
  { destruct En as [En|En], Em as [Em|Em]; rewrite En, Em in *; simpl in H.
    - destruct (string_of_uint_inj _ _ _ _ H1 H2 H) as [-> ->]. auto.
    - destruct (string_of_uint_head d r1 Hd) as [x [tail [E Hx]]].
      rewrite E in H. injection H as -> _. discriminate.
    - destruct (string_of_uint_head e r2 He) as [x [tail [E Hx]]].
      rewrite E in H. injection H as <- _. discriminate.
    - injection H as H.
      destruct (string_of_uint_inj _ _ _ _ H1 H2 H) as [-> ->]. auto. }
  destruct HE as [HE ->]. apply DecimalZ.to_int_inj in HE. auto.
Qed.

Lemma stringify_head j r :
  exists x tail, (stringify j ++ r)%string = String x tail /\ valueHead x = true.
Proof.
  destruct j as [|[|]|n|s|items|props]; simpl;
    try (eexists; eexists; split; reflexivity).
  destruct (numberToString_head n r) as [x [tail [E Hx]]].
  exists x, tail. split; [exact E | apply numberHead_valueHead; exact Hx].
Qed.

Lemma joinWith_cons s ss r :
  (joinWith "," (s :: ss) ++ r = s ++ joinTail ss r)%string.
Proof.
  destruct ss as [|s' ss]; [reflexivity|].
  cbn [joinWith joinTail]. rewrite append_assoc'. reflexivity.
Qed.

Lemma delimited_joinTail ss c r :
  (Ascii.eqb c "]" || Ascii.eqb c "}" = true) ->
  delimited (joinTail ss (String c r)) = true.
Proof.
  intros H. destruct ss; simpl; [|reflexivity].
  rewrite <- orb_assoc. rewrite H. apply orb_true_r.
Qed.

(** A comma-separated sequence closed by a bracket reads back uniquely as
    soon as each of its items does. *)
Lemma join_inj {A : Type} (pr : A -> string) (close : ascii) :
  (Ascii.eqb close "]" || Ascii.eqb close "}" = true) ->
  (forall e r, exists x tail, (pr e ++ r)%string = String x tail /\ valueHead x = true) ->
  forall l1,
    Forall (fun e => forall e' r1 r2,
                delimited r1 = true -> delimited r2 = true ->
                (pr e ++ r1 = pr e' ++ r2)%string -> e = e' /\ r1 = r2) l1 ->
    forall l2 r1 r2,
      (joinWith "," (map pr l1) ++ String close r1
       = joinWith "," (map pr l2) ++ String close r2)%string ->
      l1 = l2 /\ r1 = r2.
Proof.
  intros Hclose Hhead l1 HF.
  assert (Hnot : valueHead close = false).
  { pose proof Hclose as HC. apply orb_true_iff in HC.
    destruct HC as [HC|HC]; apply Ascii.eqb_eq in HC; rewrite HC; reflexivity. }
  induction HF as [|e l1 He _ IH]; intros [|e' l2] r1 r2 H.
  - simpl in H. injection H as H. auto.
  - exfalso. cbn [map] in H. rewrite joinWith_cons in H. simpl in H.
    destruct (Hhead e' (joinTail (map pr l2) (String close r2))) as [x [tail [E Hx]]].
    rewrite E in H. injection H as <- _. congruence.
  - exfalso. cbn [map] in H. rewrite joinWith_cons in H. simpl in H.
    destruct (Hhead e (joinTail (map pr l1) (String close r1))) as [x [tail [E Hx]]].
    rewrite E in H. injection H as -> _. congruence.
  - cbn [map] in H. rewrite !joinWith_cons in H.
    apply He in H; try (apply delimited_joinTail; exact Hclose).
    destruct H as [-> H].
    destruct l1 as [|a l1], l2 as [|b l2]; simpl in H.
    + injection H as H. subst. auto.
    + injection H as H _. subst. simpl in Hclose. discriminate.
    + injection H as H _. subst. simpl in Hclose. discriminate.
    + injection H as H.
      destruct (IH (b :: l2) r1 r2 H) as [E ->]. rewrite E. auto.
Qed.

Lemma stringify_inj_delimited a :
  forall b r1 r2,
    delimited r1 = true -> delimited r2 = true ->
    (stringify a ++ r1 = stringify b ++ r2)%string ->
    a = b /\ r1 = r2.
Proof.
  induction a as [|x|n|s|items IH|props IH] using json_ind; intros b r1 r2 H1 H2 H.
  - destruct b as [|[|]|m|t|items'|props']; simpl in H; try discriminate.
    + injection H as H. auto.
    + destruct (numberToString_head m r2) as [c [tail [E Hc]]].
      rewrite E in H. injection H as <- _. discriminate.
  - destruct x, b as [|[|]|m|t|items'|props']; simpl in H; try discriminate;
      try (injection H as H; auto; fail);
      destruct (numberToString_head m r2) as [c [tail [E Hc]]];
      rewrite E in H; injection H as <- _; discriminate.
  - destruct b as [|[|]|m|t|items'|props']; simpl in H;
      try (destruct (numberToString_head n r1) as [c [tail [E Hc]]];
           rewrite E in H; injection H as -> _; discriminate).
    destruct (numberToString_inj n m r1 r2 H1 H2 H) as [-> ->]. auto.
  - destruct b as [|[|]|m|t|items'|props']; try (simpl in H; discriminate).
    + exfalso. simpl in H.
      destruct (numberToString_head m r2) as [c [tail [E Hc]]].
      rewrite E in H. injection H as <- _. discriminate.
    + cbn [stringify] in H. apply quoteJSONString_inj in H. destruct H as [-> ->]. auto.
  - destruct b as [|[|]|m|t|items'|props']; try (simpl in H; discriminate).
    + exfalso. simpl in H.
      destruct (numberToString_head m r2) as [c [tail [E Hc]]].
      rewrite E in H. injection H as <- _. discriminate.
    + simpl in H. injection H as H. rewrite !append_assoc' in H. simpl in H.
      apply (join_inj stringify "]" eq_refl stringify_head items IH) in H.
      destruct H as [-> ->]. auto.
  - destruct b as [|[|]|m|t|items'|props']; try (simpl in H; discriminate).
    + exfalso. simpl in H.
      destruct (numberToString_head m r2) as [c [tail [E Hc]]].
      rewrite E in H. injection H as <- _. discriminate.
    + simpl in H. injection H as H. rewrite !append_assoc' in H. simpl in H.
      apply (join_inj
               (fun kv : string * json =>
                  let (k, v) := kv in (quoteJSONString k ++ ":" ++ stringify v)%string)
               "}" eq_refl) in H.
      * destruct H as [-> ->]. auto.
      * intros [k v] r. simpl. eexists. eexists. split; reflexivity.
      * revert IH. apply Forall_impl. intros [k v] Hv [k' v'] q1 q2 Hq1 Hq2 Hq.
        simpl in Hv. rewrite !append_assoc' in Hq. apply quoteJSONString_inj in Hq.
        destruct Hq as [-> Hq]. simpl in Hq. injection Hq as Hq.
        apply Hv in Hq; try assumption. destruct Hq as [-> ->]. auto.
Qed.

(** Two values with the same serialization are the same value (the numbers
    being integers printed in plain decimal). *)
Lemma stringify_inj a b : stringify a = stringify b -> a = b.
Proof.
  intros H.
  destruct (stringify_inj_delimited a b EmptyString EmptyString eq_refl eq_refl) as [E _].
  - rewrite H. reflexivity.
  - exact E.
Qed.

(* ================================================================= *)
(** ** The unique-items refinement *)

Lemma NoDup_stringify arr : NoDup (map stringify arr) <-> NoDup arr.
Proof.
  split.
  - apply NoDup_map_inv.
  - intros H. induction H as [|x l Hnot _ IH]; simpl; constructor; [|exact IH].
    intros Hin. apply in_map_iff in Hin. destruct Hin as [y [E Hy]].
    apply stringify_inj in E. subst. contradiction.
Qed.





(* ================================================================= *)
(** ** The patterns *)

Section RegexSemantics.

Import Regex.

Lemma append_nil_r (s : string) : (s ++ "")%string = s.
Proof. induction s as [|c s IH]; simpl; [reflexivity | rewrite IH; reflexivity]. Qed.

Lemma append_empty (s t : string) : (s ++ t)%string = "" -> s = "" /\ t = "".
Proof. destruct s; simpl; [tauto | discriminate]. Qed.

Lemma Matches_Never s : ~ Matches Never s.
Proof. intros H. inversion H. Qed.

Lemma Matches_Eps s : Matches Eps s <-> s = "".
Proof. split; [intros H; inversion H; reflexivity | intros ->; constructor]. Qed.

Lemma Matches_Seq a b s :
  Matches (Seq a b) s <-> exists u v, s = (u ++ v)%string /\ Matches a u /\ Matches b v.
Proof.
  split.
  - intros H. inversion H; subst. eauto.
  - intros [u [v [-> [Ha Hb]]]]. constructor; assumption.
Qed.

Lemma Matches_Alt a b s : Matches (Alt a b) s <-> Matches a s \/ Matches b s.
Proof.
  split.
  - intros H. inversion H; subst; auto.
  - intros [H|H]; [apply MAltL | apply MAltR]; exact H.
Qed.

Lemma Matches_Class p s :
  Matches (Class p) s <-> exists c, s = String c "" /\ p c = true.
Proof.
  split.
  - intros H. inversion H; subst. eauto.
  - intros [c [-> H]]. constructor. exact H.
Qed.

Lemma nullable_Matches r : nullable r = true <-> Matches r "".
Proof.
  induction r as [| |p|a IHa b IHb|a IHa b IHb|a IHa]; simpl.
  - split; [discriminate | intros H; inversion H].
  - split; [constructor | reflexivity].
  - split; [discriminate | intros H; inversion H].
  - rewrite andb_true_iff, IHa, IHb, Matches_Seq. split.
    + intros [Ha Hb]. exists "", "". auto.
    + intros [u [v [E [Ha Hb]]]]. symmetry in E. apply append_empty in E.
      destruct E as [-> ->]. auto.
  - rewrite orb_true_iff, IHa, IHb, Matches_Alt. tauto.
  - split; [constructor | reflexivity].
Qed.

Lemma Matches_seq' a b s : Matches (seq' a b) s <-> Matches (Seq a b) s.
Proof.
  rewrite Matches_Seq. destruct a; simpl; try (rewrite Matches_Seq; tauto).
  - split; [intros H; inversion H|]. intros [u [v [_ [H _]]]]. inversion H.
  - split.
    + intros H. exists "", s. repeat split; [constructor | exact H].
    + intros [u [v [-> [Hu Hv]]]]. inversion Hu; subst. exact Hv.
Qed.

Lemma Matches_alt' a b s : Matches (alt' a b) s <-> Matches a s \/ Matches b s.
Proof.
  destruct a, b; simpl; rewrite ?Matches_Alt;
    split; intros H; auto;
    repeat match goal with
           | H : _ \/ _ |- _ => destruct H as [H|H]
           | H : Matches Never _ |- _ => inversion H
           end; auto.
Qed.

Lemma Matches_Star_cons a c s :
  Matches (Star a) (String c s) ->
  exists u v, s = (u ++ v)%string /\ Matches a (String c u) /\ Matches (Star a) v.
Proof.
  intros H. remember (Star a) as r eqn:Er. remember (String c s) as w eqn:Ew.
  revert s Ew.
  induction H as [| | | | | |a' u v Hu _ Hv IH]; intros s' Ew; try discriminate.
  injection Er as ->. destruct u as [|c' u'].
  - simpl in Ew. apply IH; [reflexivity | exact Ew].
  - simpl in Ew. injection Ew as -> <-. exists u', v. auto.
Qed.

Lemma deriv_Matches c r : forall s, Matches (deriv c r) s <-> Matches r (String c s).
Proof.
  induction r as [| |p|a IHa b IHb|a IHa b IHb|a IHa]; intros s; simpl.
  - split; intros H; inversion H.
  - split; intros H; inversion H.
  - destruct (p c) eqn:Hp.
    + rewrite Matches_Eps, Matches_Class. split.
      * intros ->. eauto.
      * intros [c' [E _]]. injection E as _ E. exact E.
    + split; [intros H; inversion H|]. rewrite Matches_Class.
      intros [c' [E H]]. injection E as <- _. congruence.
  - rewrite Matches_alt', Matches_seq', !Matches_Seq. split.
    + intros [[u [v [-> [Hu Hv]]]]|H].
      * apply IHa in Hu. exists (String c u), v. auto.
      * destruct (nullable a) eqn:Hn; [|inversion H].
        apply IHb in H. apply nullable_Matches in Hn. exists "", (String c s). auto.
    + intros [u [v [E [Hu Hv]]]]. destruct u as [|c' u'].
      * simpl in E. subst v. right.
        apply nullable_Matches in Hu. rewrite Hu. apply IHb. exact Hv.
      * simpl in E. injection E as <- ->. left. exists u', v.
        repeat split; [apply IHa; exact Hu | exact Hv].
  - rewrite Matches_alt', Matches_Alt, IHa, IHb. tauto.
  - rewrite Matches_seq', Matches_Seq. split.
    + intros [u [v [-> [Hu Hv]]]]. apply IHa in Hu.
      change (String c (u ++ v)) with (String c u ++ v)%string.
      constructor; assumption.
    + intros H. apply Matches_Star_cons in H. destruct H as [u [v [-> [Hu Hv]]]].
      exists u, v. repeat split; [apply IHa; exact Hu | exact Hv].
Qed.

(** The matcher decides the language. *)
Lemma test_Matches s : forall r, test r s = true <-> Matches r s.
Proof.
  induction s as [|c s IH]; intros r; simpl.
  - apply nullable_Matches.
  - rewrite IH. apply deriv_Matches.
Qed.

Lemma Matches_Star a s :
  Matches (Star a) s <-> exists parts, Forall (Matches a) parts /\ s = glue parts.
Proof.
  split.
  - intros H. remember (Star a) as r eqn:Er.
    induction H as [| | | | | |a' u v Hu _ Hv IH]; try discriminate.
    + exists []. split; [constructor | reflexivity].
    + injection Er as ->. destruct (IH eq_refl) as [parts [HF ->]].
      exists (u :: parts). split; [constructor; assumption | reflexivity].
  - intros [parts [HF ->]]. induction HF as [|x l Hx _ IH]; simpl.
    + constructor.
    + constructor; assumption.
Qed.

Lemma Matches_Star_Class p s : Matches (Star (Class p)) s <-> allChars p s = true.
Proof.
  split.
  - intros H. remember (Star (Class p)) as r eqn:Er.
    induction H as [| | | | | |a' u v Hu _ Hv IH]; try discriminate.
    + reflexivity.
    + injection Er as ->. inversion Hu; subst. simpl.
      rewrite (IH eq_refl). rewrite H0. reflexivity.
  - induction s as [|c s IH]; simpl; intros H.
    + constructor.
    + apply andb_true_iff in H. destruct H as [Hc Hs].
      change (String c s) with (String c "" ++ s)%string.
      constructor; [constructor; exact Hc | apply IH; exact Hs].
Qed.

Lemma Matches_Plus_Class p s : Matches (Plus (Class p)) s <-> run p s = true.
Proof.
  unfold Plus. rewrite Matches_Seq. split.
  - intros [u [v [-> [Hu Hv]]]]. inversion Hu; subst. simpl.
    apply Matches_Star_Class in Hv. rewrite H0, Hv. reflexivity.
  - destruct s as [|c s]; simpl; [discriminate|]. intros H.
    apply andb_true_iff in H. destruct H as [Hc Hs].
    exists (String c ""), s. repeat split.
    + constructor. exact Hc.
    + apply Matches_Star_Class. exact Hs.
Qed.

Lemma Matches_Opt a s : Matches (Opt a) s <-> Matches a s \/ s = "".
Proof. unfold Opt. rewrite Matches_Alt, Matches_Eps. tauto. Qed.

Lemma Matches_lit c s : Matches (lit c) s <-> s = String c "".
Proof.
  unfold lit, chr. rewrite Matches_Class. split.
  - intros [c' [-> H]]. apply Ascii.eqb_eq in H. subst. reflexivity.
  - intros ->. exists c. split; [reflexivity | apply Ascii.eqb_refl].
Qed.

Lemma allChars_app p s t :
  allChars p (s ++ t) = allChars p s && allChars p t.
Proof.
  induction s as [|c s IH]; simpl; [reflexivity|].
  rewrite IH, andb_assoc. reflexivity.
Qed.

Lemma allChars_weaken (p q : charClass) s :
  (forall c, p c = true -> q c = true) -> allChars p s = true -> allChars q s = true.
Proof.
  intros Hpq. induction s as [|c s IH]; simpl; [reflexivity|].
  intros H. apply andb_true_iff in H. destruct H as [Hc Hs].
  rewrite (Hpq c Hc), (IH Hs). reflexivity.
Qed.

Lemma run_allChars p s : run p s = true -> allChars p s = true.
Proof. destruct s; [discriminate | trivial]. Qed.

End RegexSemantics.

Section PatternGrammars.

Import Regex.

Lemma joinWith_glue sep ws :
  forall u, joinWith sep (u :: ws) = (u ++ glue (map (fun w => sep ++ w) ws))%string.
Proof.
  induction ws as [|w ws IH]; intros u.
  - simpl. rewrite append_nil_r. reflexivity.
  - change (joinWith sep (u :: w :: ws)) with (u ++ sep ++ joinWith sep (w :: ws))%string.
    rewrite IH. simpl. rewrite append_assoc'. reflexivity.
Qed.

(** [r (?: sep r)*]: one or more [r], joined by the separator. *)
Lemma Matches_joined r sep s :
  Matches (Seq r (Star (Seq (lit sep) r))) s
  <-> exists parts,
        parts <> [] /\ Forall (Matches r) parts /\ s = joinWith (String sep "") parts.
Proof.
  rewrite Matches_Seq. split.
  - intros [u [v [-> [Hu Hv]]]]. apply Matches_Star in Hv.
    destruct Hv as [parts [HF ->]].
    assert (HW : exists ws, Forall (Matches r) ws
                            /\ parts = map (fun w => String sep "" ++ w)%string ws).
    { induction HF as [|x l Hx _ [ws [HF' ->]]].
      - exists []. split; [constructor | reflexivity].
      - apply Matches_Seq in Hx. destruct Hx as [a [b [-> [Ha Hb]]]].
        apply Matches_lit in Ha. subst a.
        exists (b :: ws). split; [constructor; assumption | reflexivity]. }
    destruct HW as [ws [HF' ->]].
    exists (u :: ws). split; [discriminate|]. split; [constructor; assumption|].
    rewrite joinWith_glue. reflexivity.
  - intros [[|u ws] [Hne [HF ->]]]; [contradiction|].
    inversion HF as [|? ? Hu HF']; subst.
    exists u, (glue (map (fun w => String sep "" ++ w)%string ws)).
    split; [apply joinWith_glue|]. split; [exact Hu|].
    apply Matches_Star. exists (map (fun w => String sep "" ++ w)%string ws).
    split; [|reflexivity].
    clear -HF'. induction HF' as [|w l Hw _ IH]; simpl; constructor; [|exact IH].
    apply Matches_Seq. exists (String sep ""), w.
    split; [reflexivity|]. split; [apply Matches_lit; reflexivity | exact Hw].
Qed.

Lemma regex_string_valid r m j p :
  isValid (parse getter j (ZodString [SRegex r m]) p) = true
  <-> exists s, j = JStr s /\ test r s = true.
Proof.
  split.
  - intros H. apply string_valid in H. destruct H as [s [-> H]].
    exists s. split; [reflexivity|]. simpl in H.
    destruct (test r s); [reflexivity | discriminate].
  - intros [s [-> H]]. rewrite parse_viewOf. simpl. rewrite H. reflexivity.
Qed.

Lemma slug_groups s :
  test Patterns.slug s = true
  <-> exists groups,
        groups <> [] /\ Forall (fun g => run Patterns.lowerDigit g = true) groups
        /\ s = joinWith "-" groups.
Proof.
  rewrite test_Matches.
  change Patterns.slug
    with (Seq (Plus (Class Patterns.lowerDigit))
              (Star (Seq (lit "-") (Plus (Class Patterns.lowerDigit))))).
  rewrite Matches_joined.
  split; intros [groups [Hne [HF E]]]; exists groups; repeat split; try assumption;
    revert HF; apply Forall_impl; intros g; apply Matches_Plus_Class.
Qed.

(** X1.  The slug schema accepts exactly the strings made of one or more
    non-empty groups of lower-case letters and digits joined by single
    hyphens. *)
Theorem slug_accepts_hyphenated_groups (j : json) (p : path) :
  isValid (parse getter j slug p) = true
  <-> exists groups,
        groups <> []
        /\ Forall (fun g => run Patterns.lowerDigit g = true) groups
        /\ j = JStr (joinWith "-" groups).
Proof.
  unfold slug. unfold Methods.regex, Methods.addStringCheck, z.string. simpl app.
  rewrite regex_string_valid. split.
  - intros [s [-> H]]. apply slug_groups in H.
    destruct H as [groups [Hne [HF ->]]]. eauto.
  - intros [groups [Hne [HF ->]]]. eexists. split; [reflexivity|].
    apply slug_groups. eauto.
Qed.

Lemma Matches_numeric_suffix x :
  Matches (Opt (Seq (lit ":") (Seq (Opt (lit "-")) (Plus (Class digit))))) x
  <-> x = ""
      \/ exists d, run digit d = true
                   /\ (x = (":" ++ d)%string \/ x = (":-" ++ d)%string).
Proof.
  rewrite Matches_Opt, Matches_Seq. split.
  - intros [[u [v [-> [Hu Hv]]]]|H]; [|left; exact H]. right.
    apply Matches_lit in Hu. subst u.
    apply Matches_Seq in Hv. destruct Hv as [sg [d [-> [Hsg Hd]]]].
    apply Matches_Plus_Class in Hd. exists d. split; [exact Hd|].
    apply Matches_Opt in Hsg. destruct Hsg as [Hsg| ->].
    + apply Matches_lit in Hsg. subst sg. right. reflexivity.
    + left. reflexivity.
  - intros [->|[d [Hd [->| ->]]]]; [right; reflexivity| |]; left.
    + exists ":", d. split; [reflexivity|]. split; [apply Matches_lit; reflexivity|].
      apply Matches_Seq. exists "", d. split; [reflexivity|].
      split; [apply Matches_Opt; right; reflexivity | apply Matches_Plus_Class; exact Hd].
    + exists ":", ("-" ++ d)%string. split; [reflexivity|].
      split; [apply Matches_lit; reflexivity|].
      apply Matches_Seq. exists "-", d. split; [reflexivity|].
      split; [apply Matches_Opt; left; apply Matches_lit; reflexivity
             | apply Matches_Plus_Class; exact Hd].
Qed.

Lemma rollOption_segments s :
  test Patterns.rollOption s = true
  <-> exists slugs suffix,
        slugs <> []
        /\ Forall (fun g => test Patterns.slug g = true) slugs
        /\ (suffix = ""
            \/ exists d, run digit d = true
                         /\ (suffix = (":" ++ d)%string \/ suffix = (":-" ++ d)%string))
        /\ s = (joinWith ":" slugs ++ suffix)%string.
Proof.
  rewrite test_Matches.
  set (L := Plus (Class Patterns.lowerDigit)).
  set (B := Star (Seq (lit "-") L)).
  set (D := Opt (Seq (lit ":") (Seq (Opt (lit "-")) (Plus (Class digit))))).
  change Patterns.rollOption
    with (Seq L (Seq B (Seq (Star (Seq (lit ":") (Seq L B))) D))).
  assert (HS : forall g, Matches (Seq L B) g <-> test Patterns.slug g = true).
  { intros g. rewrite test_Matches. reflexivity. }
  split.
  - intros H. apply Matches_Seq in H. destruct H as [u [r1 [-> [Hu H]]]].
    apply Matches_Seq in H. destruct H as [v [r2 [-> [Hv H]]]].
    apply Matches_Seq in H. destruct H as [w [x [-> [Hw Hx]]]].
    assert (HJ : Matches (Seq (Seq L B) (Star (Seq (lit ":") (Seq L B)))) ((u ++ v) ++ w)).
    { constructor; [constructor; assumption | exact Hw]. }
    apply Matches_joined in HJ. destruct HJ as [slugs [Hne [HF E]]].
    exists slugs, x. split; [exact Hne|]. split.
    + revert HF. apply Forall_impl. intros g. apply HS.
    + split; [apply Matches_numeric_suffix; exact Hx|].
      rewrite <- E. rewrite !append_assoc'. reflexivity.
  - intros [slugs [suffix [Hne [HF [Hx ->]]]]].
    assert (HJ : Matches (Seq (Seq L B) (Star (Seq (lit ":") (Seq L B))))
                   (joinWith ":" slugs)).
    { apply Matches_joined. exists slugs. split; [exact Hne|]. split; [|reflexivity].
      revert HF. apply Forall_impl. intros g. apply HS. }
    apply Matches_Seq in HJ. destruct HJ as [uv [w [-> [Huv Hw]]]].
    apply Matches_Seq in Huv. destruct Huv as [u [v [-> [Hu Hv]]]].
    rewrite !append_assoc'.
    constructor; [exact Hu|]. constructor; [exact Hv|]. constructor; [exact Hw|].
    apply Matches_numeric_suffix. exact Hx.
Qed.

(** X2.  A roll option is one or more slugs joined by colons, optionally
    followed by a colon and an integer, possibly negative; in particular
    every slug is a roll option. *)
Theorem rollOption_accepts_slugs_joined_by_colons :
  (forall j p,
      isValid (parse getter j rollOption p) = true
      <-> exists slugs suffix,
            slugs <> []
            /\ Forall (fun g => forall q, isValid (parse getter (JStr g) slug q) = true)
                 slugs
            /\ (suffix = ""
                \/ exists d, run digit d = true
                             /\ (suffix = (":" ++ d)%string
                                 \/ suffix = (":-" ++ d)%string))
            /\ j = JStr (joinWith ":" slugs ++ suffix))
  /\ (forall j p q,
         isValid (parse getter j slug p) = true ->
         isValid (parse getter j rollOption q) = true).
Proof.
  assert (HV : forall g, test Patterns.slug g = true
                         <-> forall q, isValid (parse getter (JStr g) slug q) = true).
  { intros g. unfold slug, Methods.regex, Methods.addStringCheck, z.string. simpl app.
    split.
    - intros H q. apply regex_string_valid. eauto.
    - intros H. specialize (H []). apply regex_string_valid in H.
      destruct H as [s [E H]]. injection E as <-. exact H. }
  assert (HR : forall j p,
             isValid (parse getter j rollOption p) = true
             <-> exists s, j = JStr s /\ test Patterns.rollOption s = true).
  { intros j p. unfold rollOption, Methods.regex, Methods.addStringCheck, z.string.
    simpl app. apply regex_string_valid. }
  split.
  - intros j p. rewrite HR. split.
    + intros [s [-> H]]. apply rollOption_segments in H.
      destruct H as [slugs [suffix [Hne [HF [Hx ->]]]]].
      exists slugs, suffix. repeat split; try assumption.
      revert HF. apply Forall_impl. intros g. apply HV.
    + intros [slugs [suffix [Hne [HF [Hx ->]]]]]. eexists. split; [reflexivity|].
      apply rollOption_segments. exists slugs, suffix. repeat split; try assumption.
      revert HF. apply Forall_impl. intros g. apply HV.
  - intros j p q H. rewrite HR.
    unfold slug, Methods.regex, Methods.addStringCheck, z.string in H. simpl app in H.
    apply regex_string_valid in H. destruct H as [s [-> H]].
    exists s. split; [reflexivity|].
    apply rollOption_segments. exists [s], "". split; [discriminate|].
    split; [constructor; [exact H | constructor]|]. split; [left; reflexivity|].
    simpl. rewrite append_nil_r. reflexivity.
Qed.

End PatternGrammars.

Section PatternClasses.

Import Regex.

Lemma Matches_Times_Class p n :
  forall s, Matches (Times n (Class p)) s
            <-> String.length s = n /\ allChars p s = true.
Proof.
  induction n as [|n IH]; intros s; simpl Times.
  - rewrite Matches_Eps. split.
    + intros ->. split; reflexivity.
    + intros [H _]. destruct s; [reflexivity | discriminate].
  - rewrite Matches_Seq. split.
    + intros [u [v [-> [Hu Hv]]]]. apply Matches_Class in Hu.
      destruct Hu as [c [-> Hc]]. apply IH in Hv. destruct Hv as [Hl Ha].
      simpl. rewrite Hl, Hc, Ha. split; reflexivity.
    + intros [Hl Ha]. destruct s as [|c s]; [discriminate|].
      simpl in Hl, Ha. apply andb_true_iff in Ha. destruct Ha as [Hc Ha].
      exists (String c ""), s. split; [reflexivity|].
      split; [apply Matches_Class; eauto | apply IH; split; [lia | exact Ha]].
Qed.

Lemma length_append (s t : string) :
  String.length (s ++ t) = String.length s + String.length t.
Proof. induction s as [|c s IH]; simpl; [reflexivity | rewrite IH; reflexivity]. Qed.

Lemma hash_ignoreCase c :
  chr "#" c || chr "#" (swapCase c) = true <-> c = "#"%char.
Proof.
  destruct c as [[] [] [] [] [] [] [] []]; vm_compute;
    split; intros H; try reflexivity; discriminate.
Qed.

Lemma hex_ignoreCase c :
  cup digit (range "a" "f") c || cup digit (range "a" "f") (swapCase c)
  = cup digit (cup (range "a" "f") (range "A" "F")) c.
Proof. destruct c as [[] [] [] [] [] [] [] []]; vm_compute; reflexivity. Qed.

Lemma allChars_ext (p q : charClass) s :
  (forall c, p c = q c) -> allChars p s = allChars q s.
Proof.
  intros H. induction s as [|c s IH]; simpl; [reflexivity|]. rewrite H, IH. reflexivity.
Qed.

Lemma hexColour_digits s :
  test Patterns.hexColour s = true
  <-> exists ds,
        s = String "#" ds
        /\ (String.length ds = 3 \/ String.length ds = 6)
        /\ allChars (cup digit (cup (range "a" "f") (range "A" "F"))) ds = true.
Proof.
  rewrite test_Matches.
  set (H := fun c => cup digit (range "a" "f") c || cup digit (range "a" "f") (swapCase c)).
  change Patterns.hexColour
    with (Seq (Class (fun c => chr "#" c || chr "#" (swapCase c)))
              (Seq (Times 3 (Class H)) (Opt (Times 3 (Class H))))).
  assert (HE : forall ds, allChars H ds
                          = allChars (cup digit (cup (range "a" "f") (range "A" "F"))) ds).
  { intros ds. apply allChars_ext. intros c. apply hex_ignoreCase. }
  rewrite Matches_Seq. split.
  - intros [u [v [-> [Hu Hv]]]]. apply Matches_Class in Hu.
    destruct Hu as [c [-> Hc]]. apply hash_ignoreCase in Hc. subst c.
    apply Matches_Seq in Hv. destruct Hv as [a [b [-> [Ha Hb]]]].
    apply Matches_Times_Class in Ha. destruct Ha as [La Ha].
    exists (a ++ b)%string. split; [reflexivity|].
    rewrite length_append, allChars_app, <- !HE, Ha, La.
    apply Matches_Opt in Hb. destruct Hb as [Hb| ->].
    + apply Matches_Times_Class in Hb. destruct Hb as [Lb Hb].
      rewrite Lb, Hb. split; [right; reflexivity | reflexivity].
    + split; [left; reflexivity | reflexivity].
  - intros [ds [-> [Hl Ha]]]. rewrite <- HE in Ha.
    exists "#", ds. split; [reflexivity|].
    split; [apply Matches_Class; exists "#"%char; split; reflexivity|].
    apply Matches_Seq. destruct Hl as [Hl|Hl].
    + exists ds, "". split; [rewrite append_nil_r; reflexivity|].
      split; [apply Matches_Times_Class; auto | apply Matches_Opt; right; reflexivity].
    + destruct ds as [|c1 [|c2 [|c3 rest]]]; try discriminate.
      simpl in Ha. apply andb_true_iff in Ha. destruct Ha as [H1 Ha].
      apply andb_true_iff in Ha. destruct Ha as [H2 Ha].
      apply andb_true_iff in Ha. destruct Ha as [H3 Ha].
      exists (String c1 (String c2 (String c3 ""))), rest.
      split; [reflexivity|]. split.
      * apply Matches_Times_Class. simpl. rewrite H1, H2, H3. auto.
      * apply Matches_Opt. left. apply Matches_Times_Class.
        simpl in Hl. split; [lia | exact Ha].
Qed.

(** X3.  The hexadecimal colour schema accepts exactly the strings made of
    [#] and three or six hexadecimal digits, in either case. *)
Theorem hexColour_accepts_three_or_six_digits (j : json) (p : path) :
  isValid (parse getter j hexColour p) = true
  <-> exists ds,
        j = JStr (String "#" ds)
        /\ (String.length ds = 3 \/ String.length ds = 6)
        /\ allChars (cup digit (cup (range "a" "f") (range "A" "F"))) ds = true.
Proof.
  unfold hexColour, Methods.regex, Methods.addStringCheck, z.string. simpl app.
  rewrite regex_string_valid. split.
  - intros [s [-> H]]. apply hexColour_digits in H.
    destruct H as [ds [-> H]]. eauto.
  - intros [ds [-> H]]. eexists. split; [reflexivity|].
    apply hexColour_digits. eauto.
Qed.

Lemma word_is_safe c :
  word c = true -> noneOf (String dquote ":<>?\|") c = true.
Proof. destruct c as [[] [] [] [] [] [] [] []]; vm_compute; trivial. Qed.

Lemma pathChar_is_safe c :
  Patterns.pathChar c = true -> noneOf (String dquote ":<>?\|") c = true.
Proof. destruct c as [[] [] [] [] [] [] [] []]; vm_compute; trivial. Qed.

Lemma filePath_parts s :
  test Patterns.filePath s = true ->
  allChars (noneOf (String dquote ":<>?\|")) s = true
  /\ (exists dir rest, s = (dir ++ "/" ++ rest)%string /\ 2 <= String.length dir)
  /\ (exists stem ext,
         s = (stem ++ "." ++ ext)%string
         /\ (String.length ext = 3 \/ String.length ext = 4)
         /\ allChars word ext = true).
Proof.
  rewrite test_Matches.
  set (P := Plus (Class Patterns.pathChar)).
  change Patterns.filePath
    with (Seq (Class word)
            (Seq P
               (Seq (Plus (Seq (lit "/") P))
                  (Seq (lit ".")
                     (Seq (Class word) (Seq (Class word) (Seq (Class word)
                                                              (Opt (Class word))))))))).
  set (safe := noneOf (String dquote ":<>?\|")).
  intros H.
  apply Matches_Seq in H. destruct H as [w [r1 [-> [Hw H]]]].
  apply Matches_Class in Hw. destruct Hw as [c0 [-> Hc0]].
  apply Matches_Seq in H. destruct H as [d [r2 [-> [Hd H]]]].
  apply Matches_Plus_Class in Hd.
  apply Matches_Seq in H. destruct H as [m [r3 [-> [Hm H]]]].
  apply Matches_Seq in H. destruct H as [dot [r4 [-> [Hdot H]]]].
  apply Matches_lit in Hdot. subst dot.
  apply Matches_Seq in H. destruct H as [e1 [r5 [-> [He1 H]]]].
  apply Matches_Class in He1. destruct He1 as [c1 [-> Hc1]].
  apply Matches_Seq in H. destruct H as [e2 [r6 [-> [He2 H]]]].
  apply Matches_Class in He2. destruct He2 as [c2 [-> Hc2]].
  apply Matches_Seq in H. destruct H as [e3 [e4 [-> [He3 He4]]]].
  apply Matches_Class in He3. destruct He3 as [c3 [-> Hc3]].
  (* the directories after the first one *)
  assert (HM : allChars safe m = true
               /\ exists tl, m = ("/" ++ tl)%string).
  { unfold Plus in Hm. apply Matches_Seq in Hm. destruct Hm as [a [b [-> [Ha Hb]]]].
    assert (HP : forall x, Matches (Seq (lit "/") P) x ->
                           allChars safe x = true /\ exists tl, x = ("/" ++ tl)%string).
    { intros x Hx. apply Matches_Seq in Hx. destruct Hx as [sl [y [-> [Hsl Hy]]]].
      apply Matches_lit in Hsl. subst sl. apply Matches_Plus_Class in Hy.
      split; [|eauto]. simpl.
      apply run_allChars in Hy.
      apply (allChars_weaken _ safe _ pathChar_is_safe Hy). }
    destruct (HP a Ha) as [Sa [tl ->]]. split; [|eexists; simpl; reflexivity].
    rewrite allChars_app, Sa. simpl.
    apply Matches_Star in Hb. destruct Hb as [parts [HF ->]].
    induction HF as [|x l Hx _ IH]; simpl; [reflexivity|].
    rewrite allChars_app, IH. destruct (HP x Hx) as [-> _]. reflexivity. }
  destruct HM as [Sm [tl ->]].
  assert (Sd : allChars safe d = true).
  { apply run_allChars in Hd. apply (allChars_weaken _ safe _ pathChar_is_safe Hd). }
  assert (Se : allChars word e4 = true
               /\ (String.length e4 = 0 \/ String.length e4 = 1)).
  { apply Matches_Opt in He4. destruct He4 as [He4| ->].
    - apply Matches_Class in He4. destruct He4 as [c4 [-> Hc4]]. simpl.
      rewrite Hc4. auto.
    - simpl. auto. }
  destruct Se as [Se Le].
  split; [|split].
  - pose proof (word_is_safe _ Hc0 : safe c0 = true) as S0.
    pose proof (word_is_safe _ Hc1 : safe c1 = true) as S1.
    pose proof (word_is_safe _ Hc2 : safe c2 = true) as S2.
    pose proof (word_is_safe _ Hc3 : safe c3 = true) as S3.
    pose proof (allChars_weaken _ safe _ word_is_safe Se) as S4.
    change (String c0 "" ++ d ++ ("/" ++ tl)
              ++ "." ++ String c1 "" ++ String c2 "" ++ String c3 "" ++ e4)%string
      with (String c0 (d ++ ("/" ++ tl)
              ++ String "." (String c1 (String c2 (String c3 e4)))))%string.
    assert (HC : forall c x, allChars safe (String c x) = safe c && allChars safe x)
      by reflexivity.
    rewrite HC, S0, allChars_app, Sd, allChars_app, Sm, !HC, S1, S2, S3, S4.
    reflexivity.
  - exists (String c0 d). eexists. split.
    + simpl. reflexivity.
    + simpl. destruct d; [discriminate | simpl; lia].
  - exists (String c0 (d ++ "/" ++ tl))%string,
           (String c1 (String c2 (String c3 e4))).
    split; [|split].
    + simpl. f_equal. rewrite append_assoc'. reflexivity.
    + simpl. lia.
    + simpl. rewrite Hc1, Hc2, Hc3, Se. reflexivity.
Qed.

(** X4.  A file path accepted by the schema contains none of the characters
    its message calls unsafe (the double quote, [:], [<], [>], [?], the
    backslash and [|]), has a directory part of at least two characters
    before a [/], and ends in a dot and an extension of three or four word
    characters. *)
Theorem filePath_is_safe_and_has_directory_and_extension (j : json) (p : path) :
  isValid (parse getter j filePath p) = true ->
  exists s,
    j = JStr s
    /\ allChars (noneOf (String dquote ":<>?\|")) s = true
    /\ (exists dir rest, s = (dir ++ "/" ++ rest)%string /\ 2 <= String.length dir)
    /\ (exists stem ext,
           s = (stem ++ "." ++ ext)%string
           /\ (String.length ext = 3 \/ String.length ext = 4)
           /\ allChars word ext = true).
Proof.
  unfold filePath, Methods.regex, Methods.addStringCheck, z.string. simpl app.
  intros H. apply regex_string_valid in H. destruct H as [s [-> H]].
  exists s. split; [reflexivity|]. apply filePath_parts. exact H.
Qed.

Lemma filePath_is_safe_and_has_directory_and_extension_witness :
  exists s,
    JStr "modules/pf2e/fire.webm" = JStr s
    /\ allChars (noneOf (String dquote ":<>?\|")) s = true
    /\ (exists dir rest, s = (dir ++ "/" ++ rest)%string /\ 2 <= String.length dir)
    /\ (exists stem ext,
           s = (stem ++ "." ++ ext)%string
           /\ (String.length ext = 3 \/ String.length ext = 4)
           /\ allChars word ext = true).
Proof.
  apply (filePath_is_safe_and_has_directory_and_extension
           (JStr "modules/pf2e/fire.webm") []).
  vm_compute. reflexivity.
Defined.

End PatternClasses.

(* ================================================================= *)
(** ** Where the issues are reported *)

Lemma under_nil p st v : under p (mkReturn st v []).
Proof. constructor. Qed.

Lemma under_here p st v code m : under p (mkReturn st v [mkIssue code p m]).
Proof. repeat constructor. exists []. simpl. rewrite app_nil_r. reflexivity. Qed.

Lemma under_issues p r r' : issues r = issues r' -> under p r -> under p r'.
Proof. unfold under. intros ->. trivial. Qed.

Lemma under_below p q r : under (p ++ q) r -> under p r.
Proof.
  unfold under. apply Forall_impl. intros i [q' E]. exists (q ++ q').
  rewrite E, app_assoc. reflexivity.
Qed.

Lemma under_flat_map p (rs : list ParseReturn) st v extra :
  Forall (under p) rs ->
  Forall (fun i => exists q, issuePath i = p ++ q) extra ->
  under p (mkReturn st v (extra ++ flat_map issues rs)).
Proof.
  intros HF HE. unfold under. simpl. apply Forall_app. split; [exact HE|].
  induction HF as [|r l Hr _ IH]; simpl; [constructor|].
  apply Forall_app. split; assumption.
Qed.

Lemma under_mergeArray p st extra rs :
  Forall (under p) rs ->
  Forall (fun i => exists q, issuePath i = p ++ q) extra ->
  under p (mergeArray st (extra ++ flat_map issues rs) rs).
Proof.
  intros HF HE. unfold mergeArray.
  destruct (existsb isAborted rs); apply under_flat_map; assumption.
Qed.

Lemma under_typeMismatch e d p : under p (typeMismatch e d p).
Proof. apply under_here. Qed.

Lemma under_checked {C : Type} p v (f : C -> list ZodIssue) checks :
  (forall c, Forall (fun i => issuePath i = p) (f c)) ->
  under p (checked v (flat_map f checks)).
Proof.
  intros Hf. unfold under, checked. simpl.
  induction checks as [|c l IH]; simpl; [constructor|].
  apply Forall_app. split; [|exact IH].
  specialize (Hf c). revert Hf. apply Forall_impl. intros i ->.
  exists []. rewrite app_nil_r. reflexivity.
Qed.

Lemma under_unionResult p rs : Forall (under p) rs -> under p (unionResult p rs).
Proof.
  intros HF. unfold unionResult.
  destruct (find isValid rs); [apply under_nil|].
  destruct (find isDirty rs) as [r|] eqn:Hf; [|apply under_here].
  apply find_some in Hf. rewrite Forall_forall in HF. apply HF. apply Hf.
Qed.

Lemma under_refined p refinement r : under p r -> under p (refined p refinement r).
Proof.
  intros H. unfold refined.
  destruct (status r); destruct (value r); try exact H;
    try (unfold under; simpl; apply Forall_app; split; [exact H|];
         apply Forall_map; apply Forall_forall; intros d _; simpl; eauto).
Qed.

Lemma parseView_under getter s :
  forall dv p, kidsUnder dv -> under p (parseView getter dv s p).
Proof.
  induction s as [checks|checks| | | |v|values|shp uk|type minLength|items
                 |keyType valueType IHs|options H|disc options H|inner IHs
                 |inner refinement IHs] using schema_ind;
    intros dv p Hd; simpl.
  - destruct dv; try apply under_typeMismatch.
    apply under_checked. intros [n m|r m]; simpl.
    + destruct (Nat.ltb _ _); repeat constructor.
    + destruct (Regex.test _ _); repeat constructor.
  - destruct dv; try apply under_typeMismatch.
    apply under_checked. intros [|v i|v i]; simpl.
    + constructor.
    + destruct (if i then _ else _); repeat constructor.
    + destruct (if i then _ else _); repeat constructor.
  - destruct dv; try apply under_typeMismatch. apply under_nil.
  - destruct dv; try apply under_typeMismatch. apply under_nil.
  - destruct dv; try apply under_typeMismatch. apply under_nil.
  - destruct (dataOf dv); [|apply under_here].
    destruct (strictEquals j v); [apply under_nil | apply under_here].
  - destruct dv; try apply under_typeMismatch.
    destruct (includes values s); [apply under_nil | apply under_here].
  - destruct dv; try apply under_typeMismatch.
    match goal with
    | |- under p (mergeObjectSync ?st (?kids ++ ?unrec) ?pairs) =>
        assert (HK : Forall (fun i => exists q, issuePath i = p ++ q) (kids ++ unrec))
    end.
    { apply Forall_app. split.
      - induction shp as [|kc rest IH]; simpl; [constructor|].
        apply Forall_app. split; [|exact IH].
        apply (under_below p [PKey (fst kc)]). apply Hd.
      - destruct uk; [constructor|].
        destruct (List.filter _ (ownKeys raw)); repeat constructor.
        exists []. simpl. rewrite app_nil_r. reflexivity. }
    unfold mergeObjectSync. destruct (existsb isAborted _); exact HK.
  - destruct dv; try apply under_typeMismatch.
    apply under_mergeArray.
    + apply Forall_map. apply Forall_forall. intros [i k] Hin. simpl.
      apply in_combine_r in Hin. simpl in Hd. rewrite Forall_forall in Hd.
      apply (under_below p [PIndex i]). apply Hd. exact Hin.
    + destruct minLength; [|constructor].
      destruct (Nat.ltb _ _); repeat constructor.
      exists []. simpl. rewrite app_nil_r. reflexivity.
  - destruct dv; try apply under_typeMismatch.
    destruct (Nat.ltb _ _); [apply under_here|].
    apply under_mergeArray.
    + apply Forall_map. apply Forall_forall. intros [i [k c]] Hin. simpl.
      apply in_combine_r in Hin. apply in_combine_l in Hin.
      simpl in Hd. rewrite Forall_forall in Hd.
      apply (under_below p [PIndex i]). apply Hd. exact Hin.
    + destruct (Nat.ltb _ _); repeat constructor.
      exists []. simpl. rewrite app_nil_r. reflexivity.
  - destruct dv; try apply under_typeMismatch.
    match goal with
    | |- under p (if _ then INVALID ?added else mkReturn _ _ ?added) =>
        assert (HK : Forall (fun i => exists q, issuePath i = p ++ q) added)
    end.
    { induction (ownKeys raw) as [|k rest IH]; simpl; [constructor|].
      apply Forall_app. split; [|exact IH].
      apply Forall_app. split.
      - apply (under_below p [PKey k]). apply IHs. exact I.
      - apply (under_below p [PKey k]). apply Hd. }
    destruct (existsb _ _); exact HK.
  - apply under_unionResult.
    apply Forall_map. revert H. apply Forall_impl. intros o Ho. apply Ho. exact Hd.
  - destruct dv; try apply under_typeMismatch.
    assert (HB : forall code m,
               under p (INVALID [mkIssue code (p ++ [PKey disc]) m])).
    { intros code m. constructor; [exists [PKey disc]; reflexivity | constructor]. }
    destruct (getProp disc raw) as [[| | |tag| |]|]; try apply HB.
    destruct (getProp tag _) eqn:Hg; [|apply HB].
    revert Hg. clear HB. induction H as [|lo l Hlo _ IH]; simpl; [discriminate|].
    destruct (String.eqb (fst lo) tag).
    + intros [= <-]. apply Hlo. exact Hd.
    + exact IH.
  - destruct dv; try apply under_nil; apply IHs; exact Hd.
  - apply under_refined. apply IHs. exact Hd.
Qed.

Lemma parse_under getter j : forall s p, under p (parse getter j s p).
Proof.
  induction j as [|b|n|s|items IH|props IH] using json_ind; intros sch p;
    rewrite parse_viewOf; apply parseView_under; simpl; try exact I.
  - apply Forall_map. exact IH.
  - intros key s1 p1. unfold parseValue.
    destruct (getProp key props) eqn:Hg.
    + revert Hg. induction IH as [|[k v] l Hkv _ IHl]; simpl; [discriminate|].
      destruct (String.eqb k key).
      * intros [= <-]. apply Hkv.
      * exact IHl.
    + apply parseView_under. exact I.
Qed.

Lemma parseValue_under getter data s p : under p (parseValue getter data s p).
Proof.
  destruct data; simpl; [apply parse_under | apply parseView_under; exact I].
Qed.

(* ================================================================= *)
(** ** Documents *)

Lemma pushed_returns superValidate data key :
  entryIssues superValidate data key = Returns (pushed superValidate data key).
Proof.
  unfold pushed. destruct (entryIssues_returns superValidate data key) as [found ->].
  reflexivity.
Qed.

Lemma validateAnimationData_object superValidate props :
  validateAnimationData superValidate (JObj props)
  = Returns
      match flat_map (fun kv : string * json =>
                        pushed superValidate (JObj props) (fst kv)) props with
      | [] => success_true
      | found => success_false found
      end.
Proof.
  unfold validateAnimationData. simpl. unfold ownKeys. rewrite forEach_map.
  destruct (forEach_collect
              (fun kv : string * json => entryIssues superValidate (JObj props) (fst kv))
              props
              (fun kv _ => entryIssues_returns superValidate (JObj props) (fst kv)) [])
    as [perKey [HF HE]].
  rewrite HE. simpl.
  assert (E : List.concat perKey
              = flat_map (fun kv : string * json =>
                            pushed superValidate (JObj props) (fst kv)) props).
  { clear HE. remember (JObj props) as data eqn:Ed. clear Ed.
    induction HF as [|kv found l l' Hkv _ IH]; simpl; [reflexivity|].
    rewrite IH. f_equal. rewrite pushed_returns in Hkv. congruence. }
  rewrite E. destruct (flat_map _ props); reflexivity.
Qed.

Lemma pushed_alone superValidate props key v :
  NoDup (ownKeys props) -> In (key, v) props ->
  pushed superValidate (JObj props) key = pushed superValidate (JObj [(key, v)]) key.
Proof.
  intros ND Hin. unfold pushed. rewrite (entryIssues_alone _ props key v ND Hin).
  reflexivity.
Qed.

Lemma pushed_entries superValidate props :
  NoDup (ownKeys props) ->
  flat_map (fun kv : string * json => pushed superValidate (JObj props) (fst kv)) props
  = flat_map (fun kv : string * json => pushed superValidate (JObj [kv]) (fst kv)) props.
Proof.
  intros ND.
  assert (HE : forall entries,
             incl entries props ->
             flat_map (fun kv : string * json =>
                         pushed superValidate (JObj props) (fst kv)) entries
             = flat_map (fun kv : string * json =>
                           pushed superValidate (JObj [kv]) (fst kv)) entries).
  { induction entries as [|[k v] rest IH]; intros Hincl; simpl; [reflexivity|].
    rewrite IH by (intros x Hx; apply Hincl; right; exact Hx).
    rewrite (pushed_alone superValidate props k v ND (Hincl _ (or_introl eq_refl))).
    reflexivity. }
  apply HE. apply incl_refl.
Qed.

(** X16.  The order of the top-level keys does not matter: two documents
    with the same entries in different orders both succeed or both fail,
    and then with the same issues up to their order. *)
Theorem validateAnimationData_ignores_key_order
    (superValidate : list json -> list IssueData) (props props' : list (string * json)) :
  NoDup (ownKeys props) ->
  Permutation props props' ->
  (validateAnimationData superValidate (JObj props) = Returns success_true
   /\ validateAnimationData superValidate (JObj props') = Returns success_true)
  \/ (exists error error',
         validateAnimationData superValidate (JObj props)
         = Returns (success_false error)
         /\ validateAnimationData superValidate (JObj props')
            = Returns (success_false error')
         /\ Permutation error error').
Proof.
  intros ND HP.
  assert (ND' : NoDup (ownKeys props')).
  { unfold ownKeys. apply (Permutation_NoDup (Permutation_map fst HP)). exact ND. }
  rewrite !validateAnimationData_object, !pushed_entries by assumption.
  pose proof (Permutation_flat_map
                (fun kv : string * json => pushed superValidate (JObj [kv]) (fst kv))
                HP) as HF.
  destruct (flat_map _ props) as [|i l];
    destruct (flat_map _ props') as [|i' l'].
  - left. split; reflexivity.
  - apply Permutation_nil in HF. discriminate.
  - apply Permutation_sym, Permutation_nil in HF. discriminate.
  - right. eauto.
Qed.

Lemma validateAnimationData_ignores_key_order_witness :
  (validateAnimationData noSuperIssues
     (JObj [("foo", JStr "bar!"); ("a b", JStr "c")]) = Returns success_true
   /\ validateAnimationData noSuperIssues
        (JObj [("a b", JStr "c"); ("foo", JStr "bar!")]) = Returns success_true)
  \/ (exists error error',
         validateAnimationData noSuperIssues
           (JObj [("foo", JStr "bar!"); ("a b", JStr "c")])
         = Returns (success_false error)
         /\ validateAnimationData noSuperIssues
              (JObj [("a b", JStr "c"); ("foo", JStr "bar!")])
            = Returns (success_false error')
         /\ Permutation error error').
Proof.
  apply (validateAnimationData_ignores_key_order noSuperIssues
           [("foo", JStr "bar!"); ("a b", JStr "c")]
           [("a b", JStr "c"); ("foo", JStr "bar!")]).
  - repeat constructor; simpl; intuition discriminate.
  - apply perm_swap.
Defined.

(** X17.  A document that holds the entries of two documents without a
    common key, in whatever order the object lists them, is valid exactly
    when both are, and its issues are those of the two, up to their
    order. *)
Theorem validateAnimationData_merges_documents
    (superValidate : list json -> list IssueData) (a b merged : list (string * json)) :
  NoDup (ownKeys merged) ->
  Permutation merged (a ++ b) ->
  (validateAnimationData superValidate (JObj merged) = Returns success_true
   <-> validateAnimationData superValidate (JObj a) = Returns success_true
       /\ validateAnimationData superValidate (JObj b) = Returns success_true)
  /\ (forall error,
         validateAnimationData superValidate (JObj merged)
         = Returns (success_false error) ->
         Permutation error
           (match validateAnimationData superValidate (JObj a) with
            | Returns (success_false found) => found
            | _ => []
            end
            ++ match validateAnimationData superValidate (JObj b) with
               | Returns (success_false found) => found
               | _ => []
               end)).
Proof.
  intros ND HP.
  assert (NDab : NoDup (ownKeys (a ++ b))).
  { unfold ownKeys. apply (Permutation_NoDup (Permutation_map fst HP)). exact ND. }
  assert (NDa : NoDup (ownKeys a) /\ NoDup (ownKeys b)).
  { unfold ownKeys in *. rewrite map_app in NDab.
    split; [apply (NoDup_app_remove_r _ _ NDab) | apply (NoDup_app_remove_l _ _ NDab)]. }
  destruct NDa as [NDa NDb].
  rewrite !validateAnimationData_object, !pushed_entries by assumption.
  pose proof (Permutation_flat_map
                (fun kv : string * json => pushed superValidate (JObj [kv]) (fst kv))
                HP) as HF.
  rewrite flat_map_app in HF.
  destruct (flat_map _ merged) as [|i0 l0].
  - apply Permutation_nil in HF. apply app_eq_nil in HF. destruct HF as [-> ->].
    split; [tauto | discriminate].
  - split.
    + split; [discriminate|]. intros [Ha Hb]. exfalso.
      destruct (flat_map _ a); [|discriminate].
      destruct (flat_map _ b); [|discriminate].
      apply Permutation_sym, Permutation_nil in HF. discriminate.
    + intros error [= <-].
      destruct (flat_map _ a), (flat_map _ b); exact HF.
Qed.

Lemma validateAnimationData_merges_documents_witness :
  validateAnimationData noSuperIssues (JObj [("1", JStr "y!"); ("b", JStr "x!")])
  = Returns
      (success_false
         [mkIssue (invalid_string "regex") [PKey "1"]
            (Some "String must be a valid roll option.");
          mkIssue (invalid_string "regex") [PKey "b"]
            (Some "String must be a valid roll option.")])
  /\ Permutation
       [mkIssue (invalid_string "regex") [PKey "1"]
          (Some "String must be a valid roll option.");
        mkIssue (invalid_string "regex") [PKey "b"]
          (Some "String must be a valid roll option.")]
       (match validateAnimationData noSuperIssues (JObj [("b", JStr "x!")]) with
        | Returns (success_false found) => found
        | _ => []
        end
        ++ match validateAnimationData noSuperIssues (JObj [("1", JStr "y!")]) with
           | Returns (success_false found) => found
           | _ => []
           end).
Proof.
  assert (H : validateAnimationData noSuperIssues (JObj [("1", JStr "y!"); ("b", JStr "x!")])
              = Returns
                  (success_false
                     [mkIssue (invalid_string "regex") [PKey "1"]
                        (Some "String must be a valid roll option.");
                      mkIssue (invalid_string "regex") [PKey "b"]
                        (Some "String must be a valid roll option.")]))
    by (vm_compute; reflexivity).
  split; [exact H|].
  apply (proj2 (validateAnimationData_merges_documents noSuperIssues
                  [("b", JStr "x!")] [("1", JStr "y!")]
                  [("1", JStr "y!"); ("b", JStr "x!")]
                  ltac:(repeat constructor; simpl; intuition discriminate)
                  (perm_swap _ _ []))).
  exact H.
Defined.

Lemma pushed_paths superValidate props key :
  Forall (fun i => exists rest, issuePath i = PKey key :: rest)
         (pushed superValidate (JObj props) key).
Proof.
  unfold pushed, entryIssues.
  destruct (String.eqb_spec key "_tokenImages") as [->|_].
  - rewrite errorIssues_safeParse. unfold parseValue.
    rewrite parse_viewOf. simpl.
    match goal with
    | |- Forall _ (issues (mergeObjectSync _ ?added _)) =>
        assert (HK : Forall (fun i => exists rest,
                               issuePath i = PKey "_tokenImages" :: rest) added)
    end.
    { rewrite !app_nil_r.
      apply (parseValue_under getter (getProp "_tokenImages" props) _
               [PKey "_tokenImages"]). }
    unfold mergeObjectSync. destruct (existsb isAborted _); exact HK.
  - destruct (keyIssues_returns key) as [forKey [-> HK]].
    rewrite valueIssues_returns. simpl.
    apply Forall_app. split.
    + revert HK. apply Forall_impl. intros i ->. eauto.
    + apply Forall_map. apply Forall_forall. intros i _. simpl. eauto.
Qed.

(** X18.  Every issue reported for an object literal is located under one of
    its top-level keys: its path starts with that key.  Only the issue for
    a root that is not an object literal has the empty path. *)
Theorem validateAnimationData_issues_start_with_a_key
    (superValidate : list json -> list IssueData) (data : json) (error : list ZodIssue) :
  validateAnimationData superValidate data = Returns (success_false error) ->
  (exists props,
      data = JObj props
      /\ Forall (fun i => exists key rest,
                   In key (ownKeys props) /\ issuePath i = PKey key :: rest) error)
  \/ ((forall props, data <> JObj props) /\ error = [rootIssue data]).
Proof.
  intros H. destruct data as [|b|n|s|items|props];
    try (right; split; [discriminate|];
         unfold validateAnimationData in H; simpl in H; injection H as <-; reflexivity).
  left. exists props. split; [reflexivity|].
  rewrite validateAnimationData_object in H.
  assert (HF : Forall (fun i => exists key rest,
                         In key (ownKeys props) /\ issuePath i = PKey key :: rest)
                 (flat_map (fun kv : string * json =>
                              pushed superValidate (JObj props) (fst kv)) props)).
  { apply Forall_flat_map. apply Forall_forall. intros [k v] Hin.
    pose proof (pushed_paths superValidate props k) as HP.
    revert HP. apply Forall_impl. intros i [rest E].
    exists k, rest. split; [|exact E].
    unfold ownKeys. apply (in_map fst) in Hin. exact Hin. }
  destruct (flat_map _ props); [discriminate|].
  injection H as <-. exact HF.
Qed.

Lemma validateAnimationData_issues_start_with_a_key_witness :
  (exists props,
      JObj [("foo", JStr "not-a-valid-roll-option!")] = JObj props
      /\ Forall (fun i => exists key rest,
                   In key (ownKeys props) /\ issuePath i = PKey key :: rest)
           [mkIssue (invalid_string "regex") [PKey "foo"]
              (Some "String must be a valid roll option.")])
  \/ ((forall props, JObj [("foo", JStr "not-a-valid-roll-option!")] <> JObj props)
      /\ [mkIssue (invalid_string "regex") [PKey "foo"]
            (Some "String must be a valid roll option.")]
         = [rootIssue (JObj [("foo", JStr "not-a-valid-roll-option!")])]).
Proof.
  apply (validateAnimationData_issues_start_with_a_key noSuperIssues
           (JObj [("foo", JStr "not-a-valid-roll-option!")])).
  vm_compute. reflexivity.
Defined.

Lemma safeParse_rollOption s :
  safeParse getter rollOption (Some (JStr s))
  = if Regex.test Patterns.rollOption s
    then SafeParseSuccess (Some (JStr s))
    else SafeParseError
           [mkIssue (invalid_string "regex") []
              (Some "String must be a valid roll option.")].
Proof.
  unfold safeParse, handleResult, parseValue. rewrite parse_viewOf.
  simpl. destruct (Regex.test Patterns.rollOption s); reflexivity.
Qed.

(** X19.  An alias entry (a string under a key other than [_tokenImages])
    is checked twice against the roll-option pattern, once for the key and
    once for the value; each failure is one [invalid_string] issue, both at
    the path of the key and told apart by their messages only. *)
Theorem alias_entry_checks_key_and_value
    (superValidate : list json -> list IssueData) (key value : string) :
  key <> "_tokenImages" ->
  validateAnimationData superValidate (JObj [(key, JStr value)])
  = Returns
      match
        (if Regex.test Patterns.rollOption key then []
         else [mkIssue (invalid_string "regex") [PKey key]
                 (Some "Must be a valid roll option.")])
        ++ (if Regex.test Patterns.rollOption value then []
            else [mkIssue (invalid_string "regex") [PKey key]
                    (Some "String must be a valid roll option.")])
      with
      | [] => success_true
      | found => success_false found
      end.
Proof.
  intros Hk. unfold validateAnimationData. cbn [typeof isArray strictEquals negb orb
    String.eqb Ascii.eqb Bool.eqb asObject ownKeys map fst forEach bind].
  unfold entryIssues. apply String.eqb_neq in Hk. rewrite Hk.
  unfold keyIssues, valueIssues. cbn [asObject getProp]. rewrite String.eqb_refl.
  cbn [typeof String.eqb Ascii.eqb Bool.eqb]. rewrite !safeParse_rollOption.
  destruct (Regex.test Patterns.rollOption key),
    (Regex.test Patterns.rollOption value); reflexivity.
Qed.

Lemma alias_entry_checks_key_and_value_witness :
  validateAnimationData noSuperIssues (JObj [("Bad Key", JStr "ok")])
  = Returns
      match
        (if Regex.test Patterns.rollOption "Bad Key" then []
         else [mkIssue (invalid_string "regex") [PKey "Bad Key"]
                 (Some "Must be a valid roll option.")])
        ++ (if Regex.test Patterns.rollOption "ok" then []
            else [mkIssue (invalid_string "regex") [PKey "Bad Key"]
                    (Some "String must be a valid roll option.")])
      with
      | [] => success_true
      | found => success_false found
      end.
Proof.
  apply (alias_entry_checks_key_and_value noSuperIssues "Bad Key" "ok").
  discriminate.
Defined.

(** X20.  A value that is neither a string nor an array is answered, under
    a valid key, with exactly one issue: an [invalid_type] expecting an
    array and naming the type received, at the path of the key; the
    multi-entry check is not consulted. *)
Theorem non_array_value_is_one_invalid_type_issue
    (superValidate : list json -> list IssueData) (key : string) (value : json) :
  key <> "_tokenImages" ->
  Regex.test Patterns.rollOption key = true ->
  (forall s, value <> JStr s) ->
  (forall items, value <> JArr items) ->
  validateAnimationData superValidate (JObj [(key, value)])
  = Returns
      (success_false
         [mkIssue (invalid_type "array" (getParsedType (viewOf getter value)))
            [PKey key] None]).
Proof.
  intros Hk Hr Hs Ha. unfold validateAnimationData.
  cbn [typeof isArray strictEquals negb orb
    String.eqb Ascii.eqb Bool.eqb asObject ownKeys map fst forEach bind].
  unfold entryIssues. apply String.eqb_neq in Hk. rewrite Hk.
  unfold keyIssues, valueIssues. cbn [asObject getProp]. rewrite String.eqb_refl.
  rewrite safeParse_rollOption, Hr.
  destruct value as [|b|n|s|items|props];
    try (contradiction (Hs s eq_refl)); try (contradiction (Ha items eq_refl));
    reflexivity.
Qed.

Lemma non_array_value_is_one_invalid_type_issue_witness :
  validateAnimationData noSuperIssues (JObj [("foo", JNull)])
  = Returns
      (success_false
         [mkIssue (invalid_type "array" (getParsedType (viewOf getter JNull)))
            [PKey "foo"] None]).
Proof.
  apply (non_array_value_is_one_invalid_type_issue noSuperIssues "foo" JNull);
    try discriminate; reflexivity.
Defined.

(* ================================================================= *)
(** ** Numbers and offsets *)

Lemma nonZero_refinement (v : json) :
  (if fst nonZero v then [] else [mkIssueData custom [] (Some (snd nonZero)) false]) = []
  <-> v <> JNum 0.
Proof.
  unfold nonZero. simpl. destruct v as [|b|n|s|items|props]; simpl;
    try (split; [discriminate | reflexivity]).
  destruct (Z.eqb_spec n 0) as [->|Hne]; simpl.
  - split; [discriminate | intros H; contradiction H; reflexivity].
  - split; [intros _ [= E]; contradiction | reflexivity].
Qed.

(** X5.  An angle is a number greater than -180, at most 180 and other
    than 0; nothing else is accepted. *)
Theorem angle_accepts_nonzero_degrees (j : json) (p : path) :
  isValid (parse getter j angle p) = true
  <-> exists n, j = JNum n /\ (-180 < n <= 180)%Z /\ n <> 0%Z.
Proof.
  unfold angle, refine', Methods.refine, Methods.refineAt.
  unfold Methods.lte, Methods.gt, Methods.addNumberCheck, z.number. simpl app.
  rewrite parse_effects. split.
  - intros H. apply refined_valid in H. destruct H as [HV [_ HR]].
    pose proof HV as HN. apply number_valid in HN. destruct HN as [n [-> HC]].
    exists n. split; [reflexivity|].
    assert (Hb : (-180 < n <= 180)%Z).
    { simpl in HC.
      destruct (Z.leb_spec n (-180)); [discriminate|].
      destruct (Z.gtb_spec n 180); [discriminate | lia]. }
    split; [exact Hb|].
    rewrite (number_accepts getter n _ p HC) in HR.
    specialize (HR _ eq_refl). apply nonZero_refinement in HR. congruence.
  - intros [n [-> [Hb Hz]]].
    assert (HC : flat_map (numberCheck p n)
                   [NMin (-180) false; NMax 180 true] = []).
    { simpl. destruct (Z.leb_spec n (-180)); [lia|].
      destruct (Z.gtb_spec n 180); [lia | reflexivity]. }
    rewrite (number_accepts getter n _ p HC).
    rewrite (refined_passes p _ _ (JNum n)); try reflexivity.
    apply nonZero_refinement. congruence.
Qed.

Lemma getProp_project keys props k :
  In k keys -> getProp k (project keys props) = getProp k props.
Proof.
  unfold project. induction keys as [|k' rest IH]; simpl; intros Hin; [contradiction|].
  destruct (String.eqb_spec k' k) as [->|Hne].
  - destruct (getProp k props) eqn:Hg; simpl.
    + rewrite String.eqb_refl. reflexivity.
    + destruct (in_dec string_dec k rest) as [Hr|Hr]; [apply IH; exact Hr|].
      clear IH Hin.
      induction rest as [|k'' rest IH]; simpl; [reflexivity|].
      destruct (getProp k'' props); simpl.
      * destruct (String.eqb_spec k'' k) as [->|_]; [exfalso; apply Hr; left; reflexivity|].
        apply IH. intros H. apply Hr. right. exact H.
      * apply IH. intros H. apply Hr. right. exact H.
  - destruct Hin as [->|Hin]; [contradiction Hne; reflexivity|].
    destruct (getProp k' props); simpl.
    + destruct (String.eqb_spec k' k); [contradiction|]. apply IH. exact Hin.
    + apply IH. exact Hin.
Qed.

Lemma project_nonEmpty keys props k :
  In k keys -> getProp k props <> None -> fst nonEmpty (JObj (project keys props)) = true.
Proof.
  intros Hin Hg. rewrite <- (getProp_project keys props k Hin) in Hg.
  simpl. destruct (project keys props); [contradiction Hg; reflexivity | reflexivity].
Qed.

Lemma project_empty keys props :
  (forall k, In k keys -> getProp k props = None) -> project keys props = [].
Proof.
  unfold project. induction keys as [|k rest IH]; intros H; simpl; [reflexivity|].
  rewrite (H k (or_introl eq_refl)). apply IH. intros k' Hk. apply H. right. exact Hk.
Qed.

Lemma includes_In keys k : includes keys k = true <-> In k keys.
Proof.
  unfold includes. rewrite existsb_exists. split.
  - intros [x [Hin E]]. apply String.eqb_eq in E. subst. exact Hin.
  - intros Hin. exists k. split; [exact Hin | apply String.eqb_refl].
Qed.

(** A strict object whose fields hand their values on: it accepts the
    objects with known keys and acceptable fields, and rebuilds them in the
    order of its shape. *)
Lemma strict_object_accepts shape oks props p :
  Forall2 (fun (kc : string * child) ok => accepts (resolve getter (snd kc)) ok) shape oks ->
  (isValid (parse getter (JObj props) (ZodObject shape unknownKeys_strict) p) = true
   <-> Forall2 (fun (kc : string * child) (ok : jsvalue -> Prop) =>
                  ok (getProp (fst kc) props)) shape oks
       /\ Forall (fun k => In k (map fst shape)) (ownKeys props))
  /\ (isValid (parse getter (JObj props) (ZodObject shape unknownKeys_strict) p) = true ->
      parse getter (JObj props) (ZodObject shape unknownKeys_strict) p
      = mkReturn valid (Some (JObj (project (map fst shape) props))) []).
Proof.
  intros HA.
  assert (HK : Forall (fun k => In k (map fst shape)) (ownKeys props)
               <-> Forall (fun k => includes (map fst shape) k = true) (ownKeys props)).
  { split; apply Forall_impl; intros k; apply includes_In. }
  assert (HOK : Forall2 (fun (kc : string * child) (ok : jsvalue -> Prop) =>
                           ok (getProp (fst kc) props)) shape oks ->
                Forall (fun kc : string * child =>
                          parseValue getter (getProp (fst kc) props)
                            (resolve getter (snd kc)) (p ++ [PKey (fst kc)])
                          = OK (getProp (fst kc) props)) shape).
  { clear HK. intros H. induction HA as [|kc ok l l' Hkc _ IH]; [constructor|].
    inversion H; subst. constructor; [|apply IH; assumption].
    apply (proj2 (Hkc _ _)). assumption. }
  assert (HACC : Forall2 (fun (kc : string * child) (ok : jsvalue -> Prop) =>
                            ok (getProp (fst kc) props)) shape oks ->
                 Forall (fun k => In k (map fst shape)) (ownKeys props) ->
                 parse getter (JObj props) (ZodObject shape unknownKeys_strict) p
                 = mkReturn valid (Some (JObj (project (map fst shape) props))) []).
  { intros H Hkeys. apply HOK in H. rewrite object_accepts.
    - f_equal. f_equal. f_equal. unfold project. rewrite flat_map_concat_map.
      rewrite (flat_map_concat_map _ (map fst shape)), map_map. f_equal.
      clear -H. induction H as [|kc l Hkc _ IH]; simpl; [reflexivity|].
      rewrite Hkc, IH. reflexivity.
    - revert H. apply Forall_impl. intros kc ->. reflexivity.
    - apply HK. exact Hkeys. }
  assert (HV : isValid (parse getter (JObj props) (ZodObject shape unknownKeys_strict) p)
               = true ->
               Forall2 (fun (kc : string * child) (ok : jsvalue -> Prop) =>
                          ok (getProp (fst kc) props)) shape oks
               /\ Forall (fun k => In k (map fst shape)) (ownKeys props)).
  { intros H. apply object_valid in H. destruct H as [HF [Hstrict _]].
    split; [|apply HK; apply Hstrict; reflexivity].
    clear HK HOK HACC Hstrict.
    induction HA as [|kc ok l l' Hkc _ IH]; [constructor|].
    inversion HF as [|? ? Hh HF']; subst. constructor; [|apply IH; exact HF'].
    destruct (proj1 (Hkc _ _) Hh) as [Hok _]. exact Hok. }
  split.
  - split; [exact HV|]. intros [H Hkeys]. rewrite (HACC H Hkeys). reflexivity.
  - intros H. destruct (HV H) as [H1 H2]. apply HACC; assumption.
Qed.

Lemma accepts_optional_literal_true :
  accepts (ZodOptional (ZodLiteral JTrue)) (fun data => data = None \/ data = Some JTrue).
Proof.
  intros data q. destruct data as [j|]; simpl.
  - rewrite parse_optional, parse_viewOf.
    assert (HD : dataOf (viewOf getter j) = Some j) by (destruct j; reflexivity).
    cbn [parseView]. rewrite HD.
    destruct j as [|[]|n|s|items|props]; simpl;
      (split; [try discriminate; auto | intros [H|H]; try discriminate; auto]).
  - split; [auto | reflexivity].
Qed.

Lemma accepts_optional_number :
  accepts (ZodOptional (ZodNumber [])) (fun data => data = None \/ exists n, data = Some (JNum n)).
Proof.
  intros data q. destruct data as [j|]; simpl.
  - rewrite parse_optional. split.
    + intros H. pose proof (number_valid getter j [] q H) as [n [-> _]].
      rewrite (number_accepts getter n [] q eq_refl). split; [eauto | reflexivity].
    + intros [H|[n [= ->]]]; [discriminate|]. apply number_accepts. reflexivity.
  - split; [auto | reflexivity].
Qed.

Lemma accepts_optional s ok :
  accepts s (fun data => exists v, data = Some v /\ ok v) ->
  accepts (ZodOptional s) (fun data => data = None \/ exists v, data = Some v /\ ok v).
Proof.
  intros HA data q. destruct data as [j|].
  - unfold parseValue. rewrite parse_optional.
    destruct (HA (Some j) q) as [H1 H2]. unfold parseValue in H1, H2. split.
    + intros H. destruct (H1 H) as [Hok Hv]. auto.
    + intros [H|H]; [discriminate | auto].
  - split; [auto | reflexivity].
Qed.

(** One dimension of an offset: a number other than 0, or a range of two
    different numbers. *)
Lemma accepts_offsetDimension :
  accepts offsetDimension
    (fun data =>
       data = None
       \/ exists v, data = Some v
                    /\ ((exists n, v = JNum n /\ n <> 0%Z)
                        \/ (exists a b, v = JArr [JNum a; JNum b] /\ a <> b))).
Proof.
  unfold offsetDimension, Methods.optional. apply accepts_optional.
  intros data q. destruct data as [j|].
  2:{ split; [|intros [v [H _]]; discriminate].
      intros H. exfalso. unfold Methods.or in H. vm_compute in H. discriminate. }
  unfold parseValue, Methods.or, refine', Methods.refine, Methods.refineAt.
  unfold z.tuple, z.number.
  rewrite parse_union. unfold map. rewrite !parse_effects.
  split.
  - intros H.
    destruct (value_unionResult _ _ H) as [r [Hf Hv]]. rewrite Hv. clear Hv.
    rewrite isValid_unionResult in H. clear H.
    unfold find in Hf.
    destruct (isValid (refined q _ (parse getter j (ZodNumber []) q))) eqn:H1.
    + injection Hf as <-.
      apply refined_valid in H1. destruct H1 as [HV [Hval HR]].
      destruct (number_valid getter j [] q HV) as [n [-> _]].
      rewrite (number_accepts getter n [] q eq_refl) in Hval, HR.
      specialize (HR _ eq_refl). apply nonZero_refinement in HR.
      split; [|exact Hval]. exists (JNum n). split; [reflexivity|].
      left. exists n. split; [reflexivity | congruence].
    + destruct (isValid (refined q _ (parse getter j (ZodTuple _) q))) eqn:H2;
        [|discriminate].
      injection Hf as <-.
      apply refined_valid in H2. destruct H2 as [HV [Hval HR]].
      rewrite parse_viewOf in HV, HR, Hval.
      destruct j as [|b|n|s|items|props]; try discriminate.
      destruct items as [|a [|b [|c rest]]]; try discriminate.
      * cbn in HV, HR, Hval.
        pose proof HV as HM. apply mergeArray_valid in HM. destruct HM as [_ [HF _]].
        inversion HF as [|? ? Ha HF']; subst. inversion HF' as [|? ? Hb _]; subst.
        destruct (number_valid getter a [] _ Ha) as [na [-> _]].
        destruct (number_valid getter b [] _ Hb) as [nb [-> _]].
        cbn in HR, Hval. split; [|exact Hval].
        specialize (HR _ eq_refl). cbn in HR.
        exists (JArr [JNum na; JNum nb]). split; [reflexivity|]. right.
        exists na, nb. split; [reflexivity|].
        destruct (Z.eqb_spec na nb); [discriminate | assumption].
      * cbn in HV. apply mergeArray_valid in HV. destruct HV as [HV _]. discriminate.
  - intros [v [[= <-] [[n [-> Hn]]|[a [b [-> Hab]]]]]].
    + rewrite (number_accepts getter n [] q eq_refl).
      rewrite (refined_passes q _ _ (JNum n)); try reflexivity.
      apply nonZero_refinement. congruence.
    + rewrite !parse_viewOf. cbn.
      destruct (Z.eqb_spec a b); [contradiction | reflexivity].
Qed.

Lemma offset_shape :
  exists refinement1 refinement2,
    offset
    = ZodEffects
        (ZodEffects
           (ZodObject [("x", Now offsetDimension); ("y", Now offsetDimension);
                       ("flipX", Now (ZodOptional (ZodLiteral JTrue)));
                       ("flipY", Now (ZodOptional (ZodLiteral JTrue)))]
              unknownKeys_strict)
           refinement1)
        refinement2
    /\ (forall v, refinement1 v = [] <-> fst nonEmpty v = true)
    /\ (forall v, refinement2 v = []
                  <-> truthy (field "x" v) || truthy (field "y" v) = true).
Proof.
  do 2 eexists. split; [reflexivity|]. split; intros v.
  - destruct (fst nonEmpty v); split; (reflexivity || discriminate).
  - destruct (truthy (field "x" v) || truthy (field "y" v));
      split; (reflexivity || discriminate).
Qed.

(** X6.  An offset whose numbers are safe integers is accepted exactly when
    it has no other key than [x], [y], [flipX] and [flipY], gives at least
    one of [x] and [y], each as a number other than 0 or as a range of two
    different numbers, and sets the flips it has to [true]. *)
Theorem offset_needs_a_dimension (props : list (string * json)) (p : path) :
  safeNumbers (JObj props) = true ->
  isValid (parse getter (JObj props) offset p) = true
  <-> Forall (fun k => In k ["x"; "y"; "flipX"; "flipY"]) (ownKeys props)
      /\ (getProp "x" props <> None \/ getProp "y" props <> None)
      /\ (forall v,
             getProp "x" props = Some v \/ getProp "y" props = Some v ->
             (exists n, v = JNum n /\ n <> 0%Z)
             \/ (exists a b, v = JArr [JNum a; JNum b] /\ a <> b))
      /\ (forall v,
             getProp "flipX" props = Some v \/ getProp "flipY" props = Some v ->
             v = JBool true).
Proof.
  intros _.
  destruct offset_shape as [r1 [r2 [-> [Hr1 Hr2]]]].
  rewrite !parse_effects.
  set (dim := fun data : jsvalue =>
                data = None
                \/ exists v, data = Some v
                             /\ ((exists n, v = JNum n /\ n <> 0%Z)
                                 \/ (exists a b, v = JArr [JNum a; JNum b] /\ a <> b))).
  set (flip := fun data : jsvalue => data = None \/ data = Some JTrue).
  destruct (strict_object_accepts
              [("x", Now offsetDimension); ("y", Now offsetDimension);
               ("flipX", Now (ZodOptional (ZodLiteral JTrue)));
               ("flipY", Now (ZodOptional (ZodLiteral JTrue)))]
              [dim; dim; flip; flip] props p) as [Hiff Hval].
  { constructor; [apply accepts_offsetDimension|].
    constructor; [apply accepts_offsetDimension|].
    constructor; [apply accepts_optional_literal_true|].
    constructor; [apply accepts_optional_literal_true | constructor]. }
  assert (HT : forall k, In k ["x"; "y"] -> dim (getProp k props) ->
                         truthy (getProp k props)
                         = match getProp k props with Some _ => true | None => false end).
  { intros k _ [->|[v [-> [[n [-> Hn]]|[a [b [-> _]]]]]]]; simpl; try reflexivity.
    destruct (Z.eqb_spec n 0); [contradiction | reflexivity]. }
  split.
  - intros H. apply refined_valid in H. destruct H as [H [Hv2 HR2]].
    apply refined_valid in H. destruct H as [H [Hv1 HR1]].
    rewrite Hv1 in HR2. rewrite (Hval H) in HR2. specialize (HR2 _ eq_refl).
    apply Hr2 in HR2. unfold field in HR2.
    rewrite !getProp_project in HR2 by (simpl; tauto).
    apply Hiff in H. destruct H as [HF Hkeys].
    inversion HF as [|? ? ? ? Hx HF1]; subst. inversion HF1 as [|? ? ? ? Hy HF2]; subst.
    inversion HF2 as [|? ? ? ? Hfx HF3]; subst. inversion HF3 as [|? ? ? ? Hfy _]; subst.
    cbn [fst] in *.
    rewrite (HT "x"), (HT "y") in HR2 by (simpl; tauto || assumption).
    split; [exact Hkeys|]. split; [|split].
    + destruct (getProp "x" props); [left; discriminate|].
      destruct (getProp "y" props); [right; discriminate | discriminate].
    + intros v [Hg|Hg].
      * destruct Hx as [Hx|[w [Hx Hd]]]; [congruence|].
        rewrite Hg in Hx. injection Hx as <-. exact Hd.
      * destruct Hy as [Hy|[w [Hy Hd]]]; [congruence|].
        rewrite Hg in Hy. injection Hy as <-. exact Hd.
    + intros v [Hg|Hg].
      * destruct Hfx as [Hf|Hf]; rewrite Hg in Hf; [discriminate|].
        injection Hf as ->. reflexivity.
      * destruct Hfy as [Hf|Hf]; rewrite Hg in Hf; [discriminate|].
        injection Hf as ->. reflexivity.
  - intros [Hkeys [Hxy [Hdim Hflip]]].
    assert (HF : Forall2 (fun (kc : string * child) (ok : jsvalue -> Prop) =>
                            ok (getProp (fst kc) props))
                   [("x", Now offsetDimension); ("y", Now offsetDimension);
                    ("flipX", Now (ZodOptional (ZodLiteral JTrue)));
                    ("flipY", Now (ZodOptional (ZodLiteral JTrue)))]
                   [dim; dim; flip; flip]).
    { constructor; [|constructor; [|constructor; [|constructor; [|constructor]]]];
        cbn [fst]; unfold dim, flip.
      - destruct (getProp "x" props) as [v|] eqn:Hg; [right | left; reflexivity].
        exists v. split; [reflexivity|]. apply Hdim. left. reflexivity.
      - destruct (getProp "y" props) as [v|] eqn:Hg; [right | left; reflexivity].
        exists v. split; [reflexivity|]. apply Hdim. right. reflexivity.
      - destruct (getProp "flipX" props) as [v|] eqn:Hg; [right | left; reflexivity].
        rewrite (Hflip v) by (left; reflexivity). reflexivity.
      - destruct (getProp "flipY" props) as [v|] eqn:Hg; [right | left; reflexivity].
        rewrite (Hflip v) by (right; reflexivity). reflexivity. }
    assert (HV : isValid (parse getter (JObj props)
                            (ZodObject [("x", Now offsetDimension); ("y", Now offsetDimension);
                                        ("flipX", Now (ZodOptional (ZodLiteral JTrue)));
                                        ("flipY", Now (ZodOptional (ZodLiteral JTrue)))]
                               unknownKeys_strict) p) = true).
    { apply Hiff. split; assumption. }
    rewrite (Hval HV).
    inversion HF as [|? ? ? ? Hx HF1]; subst. inversion HF1 as [|? ? ? ? Hy _]; subst.
    cbn [fst] in *.
    set (parsed := project _ props).
    rewrite (refined_passes p r1 (mkReturn valid (Some (JObj parsed)) []) (JObj parsed)
               eq_refl eq_refl eq_refl).
    + rewrite (refined_passes p r2 (mkReturn valid (Some (JObj parsed)) []) (JObj parsed)
                 eq_refl eq_refl eq_refl); [reflexivity|].
      apply Hr2. unfold field, parsed. rewrite !getProp_project by (simpl; tauto).
      rewrite (HT "x"), (HT "y") by (simpl; tauto || assumption).
      destruct Hxy as [H|H]; destruct (getProp "x" props), (getProp "y" props);
        try reflexivity; contradiction H; reflexivity.
    + apply Hr1. destruct Hxy as [H|H].
      * apply (project_nonEmpty _ props "x"); [simpl; tauto | exact H].
      * apply (project_nonEmpty _ props "y"); [simpl; tauto | exact H].
Qed.

Lemma offset_needs_a_dimension_witness :
  safeNumbers (JObj [("x", JArr [JNum (-10); JNum 10]); ("flipY", JBool true)]) = true
  /\ isValid (parse getter
                (JObj [("x", JArr [JNum (-10); JNum 10]); ("flipY", JBool true)])
                offset []) = true
  /\ isValid (parse getter (JObj [("flipY", JBool true)]) offset []) = false.
Proof.
  split; [reflexivity|]. split.
  - apply (offset_needs_a_dimension
             [("x", JArr [JNum (-10); JNum 10]); ("flipY", JBool true)] [] eq_refl).
    split; [|split; [|split]].
    + repeat constructor; simpl; tauto.
    + left. discriminate.
    + intros v [[= <-]|H]; [|discriminate].
      right. exists (-10)%Z, 10%Z. split; [reflexivity | discriminate].
    + intros v [H|[= <-]]; [discriminate | reflexivity].
  - destruct (isValid (parse getter (JObj [("flipY", JBool true)]) offset [])) eqn:H;
      [exfalso | reflexivity].
    apply (offset_needs_a_dimension [("flipY", JBool true)] [] eq_refl) in H.
    destruct H as [_ [[H|H] _]]; apply H; reflexivity.
Defined.

(* ================================================================= *)
(** ** Repeats *)

Lemma accepts_number checks (P : Z -> Prop) :
  (forall n q, flat_map (numberCheck q n) checks = [] <-> P n) ->
  accepts (ZodNumber checks)
    (fun data => exists v, data = Some v /\ exists n, v = JNum n /\ P n).
Proof.
  intros HP data q. destruct data as [j|]; simpl.
  - split.
    + intros H. destruct (number_valid getter j checks q H) as [n [-> Hc]].
      rewrite (number_accepts getter n checks q Hc).
      split; [|reflexivity]. exists (JNum n). split; [reflexivity|].
      exists n. split; [reflexivity | apply (HP n q); exact Hc].
    + intros [v [[= <-] [n [-> Hn]]]]. apply number_accepts. apply HP. exact Hn.
  - split; [discriminate | intros [v [H _]]; discriminate].
Qed.

Lemma repeatsOptions_shape :
  exists refinement1 refinement2,
    repeatsOptions
    = ZodEffects
        (ZodEffects
           (ZodObject [("count", Now (ZodNumber [NMin 1 true]));
                       ("delayMin", Now (ZodOptional (ZodNumber [])));
                       ("delayMax", Now (ZodOptional (ZodNumber [NMin 0 false])))]
              unknownKeys_strict)
           refinement1)
        refinement2
    /\ (forall v, refinement1 v = []
                  <-> (if truthy (field "delayMax" v)
                       then truthy (field "delayMin" v)
                            || negb (strictDiffers (field "delayMin" v) (Some (JNum 0)))
                       else true) = true)
    /\ (forall v, refinement2 v = []
                  <-> (if truthy (field "delayMax" v)
                       then greater (field "delayMax" v) (field "delayMin" v)
                       else true) = true).
Proof.
  do 2 eexists. split; [reflexivity|]. split; intros v.
  - match goal with |- (if ?c then _ else _) = _ <-> _ => destruct c end;
      split; (reflexivity || discriminate).
  - match goal with |- (if ?c then _ else _) = _ <-> _ => destruct c end;
      split; (reflexivity || discriminate).
Qed.

(** X7.  The object form of [repeats], its numbers being safe integers, is
    accepted exactly when it has no other key than [count], [delayMin] and
    [delayMax], a [count] of at least 1, a numeric [delayMin] if any, and a
    [delayMax], if any, that is positive and comes with a smaller
    [delayMin]. *)
Theorem repeats_delayMax_needs_smaller_delayMin (props : list (string * json)) (p : path) :
  safeNumbers (JObj props) = true ->
  isValid (parse getter (JObj props) repeatsOptions p) = true
  <-> Forall (fun k => In k ["count"; "delayMin"; "delayMax"]) (ownKeys props)
      /\ (exists c, getProp "count" props = Some (JNum c) /\ (1 <= c)%Z)
      /\ (forall v, getProp "delayMin" props = Some v -> exists m, v = JNum m)
      /\ (forall v,
             getProp "delayMax" props = Some v ->
             exists M m,
               v = JNum M /\ (0 < M)%Z
               /\ getProp "delayMin" props = Some (JNum m) /\ (m < M)%Z).
Proof.
  intros _.
  destruct repeatsOptions_shape as [r1 [r2 [-> [Hr1 Hr2]]]].
  rewrite !parse_effects.
  set (shape := [("count", Now (ZodNumber [NMin 1 true]));
                 ("delayMin", Now (ZodOptional (ZodNumber [])));
                 ("delayMax", Now (ZodOptional (ZodNumber [NMin 0 false])))]).
  set (count := fun data : jsvalue =>
                  exists v, data = Some v /\ exists n, v = JNum n /\ (1 <= n)%Z).
  set (dmin := fun data : jsvalue => data = None \/ exists n, data = Some (JNum n)).
  set (dmax := fun data : jsvalue =>
                 data = None
                 \/ exists v, data = Some v /\ exists n, v = JNum n /\ (0 < n)%Z).
  destruct (strict_object_accepts shape [count; dmin; dmax] props p) as [Hiff Hval].
  { constructor; [|constructor; [|constructor; [|constructor]]].
    - apply accepts_number. intros n q. simpl.
      destruct (Z.ltb_spec n 1) as [Hn|Hn]; split; intros Hx; try discriminate; try reflexivity; lia.
    - apply accepts_optional_number.
    - apply accepts_optional. apply accepts_number. intros n q. simpl.
      destruct (Z.leb_spec n 0) as [Hn|Hn]; split; intros Hx; try discriminate; try reflexivity; lia. }
  set (parsed := project (map fst shape) props) in *.
  assert (HG : forall k, In k ["count"; "delayMin"; "delayMax"] ->
                         field k (JObj parsed) = getProp k props).
  { intros k Hk. apply getProp_project. exact Hk. }
  split.
  - intros H. apply refined_valid in H. destruct H as [H [Hv2 HR2]].
    apply refined_valid in H. destruct H as [H [Hv1 HR1]].
    rewrite Hv1 in HR2. rewrite (Hval H) in HR1, HR2.
    specialize (HR1 _ eq_refl). specialize (HR2 _ eq_refl).
    apply Hr1 in HR1. apply Hr2 in HR2.
    rewrite !HG in HR1, HR2 by (simpl; tauto).
    apply Hiff in H. destruct H as [HF Hkeys].
    inversion HF as [|? ? ? ? Hc HF1]; subst. inversion HF1 as [|? ? ? ? Hm HF2]; subst.
    inversion HF2 as [|? ? ? ? HM _]; subst. cbn [fst] in *.
    split; [exact Hkeys|]. split; [|split].
    + destruct Hc as [v [Hg [c [-> Hc]]]]. eauto.
    + intros v Hg. destruct Hm as [Hm|[m Hm]]; rewrite Hg in Hm; [discriminate|].
      injection Hm as ->. eauto.
    + intros v Hg. destruct HM as [HM|[w [HM [M [-> HMpos]]]]];
        rewrite Hg in HM; [discriminate|]. injection HM as ->.
      rewrite Hg in HR1, HR2. simpl in HR1, HR2.
      destruct (Z.eqb_spec M 0); [lia|]. simpl in HR1, HR2.
      destruct Hm as [Hm|[m Hm]]; rewrite Hm in HR1, HR2; [discriminate|].
      simpl in HR2. exists M, m. repeat split; try assumption; lia.
  - intros [Hkeys [[c [Hc Hc1]] [Hm HM]]].
    assert (HF : Forall2 (fun (kc : string * child) (ok : jsvalue -> Prop) =>
                            ok (getProp (fst kc) props)) shape [count; dmin; dmax]).
    { constructor; [|constructor; [|constructor; [|constructor]]];
        cbn [fst]; unfold count, dmin, dmax.
      - rewrite Hc. eauto.
      - destruct (getProp "delayMin" props) as [v|]; [right | left; reflexivity].
        destruct (Hm v eq_refl) as [m ->]. eauto.
      - destruct (getProp "delayMax" props) as [v|]; [right | left; reflexivity].
        destruct (HM v eq_refl) as [M [m [-> [HMpos _]]]]. eauto. }
    assert (HV : isValid (parse getter (JObj props)
                            (ZodObject shape unknownKeys_strict) p) = true).
    { apply Hiff. split; assumption. }
    rewrite (Hval HV).
    assert (HC : forall f,
               (if truthy (getProp "delayMax" props)
                then f (getProp "delayMax" props) (getProp "delayMin" props)
                else true) = true
               <-> (forall M m, getProp "delayMax" props = Some (JNum M) ->
                                getProp "delayMin" props = Some (JNum m) ->
                                f (Some (JNum M)) (Some (JNum m)) = true)).
    { intros f. destruct (getProp "delayMax" props) as [v|] eqn:Hg.
      - destruct (HM v eq_refl) as [M [m [-> [HMpos [Hgm Hlt]]]]]. rewrite Hgm. simpl.
        destruct (Z.eqb_spec M 0); [lia|]. simpl. split.
        + intros H M' m' [= <-] [= <-]. exact H.
        + intros H. apply H; reflexivity.
      - simpl. split; [intros _ M m H; discriminate | reflexivity]. }
    rewrite (refined_passes p r1 (mkReturn valid (Some (JObj parsed)) []) (JObj parsed)
               eq_refl eq_refl eq_refl).
    + rewrite (refined_passes p r2 (mkReturn valid (Some (JObj parsed)) []) (JObj parsed)
                 eq_refl eq_refl eq_refl); [reflexivity|].
      apply Hr2. rewrite !HG by (simpl; tauto).
      apply (HC greater). intros M m HgM Hgm. simpl.
      destruct (HM _ HgM) as [M' [m' [[= <-] [_ [Hgm' Hlt]]]]].
      rewrite Hgm in Hgm'. injection Hgm' as <-.
      apply Z.gtb_lt. exact Hlt.
    + apply Hr1. rewrite !HG by (simpl; tauto).
      apply (HC (fun _ b => truthy b || negb (strictDiffers b (Some (JNum 0))))).
      intros M m _ _. simpl. destruct (Z.eqb m 0); reflexivity.
Qed.

Lemma repeats_delayMax_needs_smaller_delayMin_witness :
  safeNumbers (JObj [("count", JNum 3); ("delayMin", JNum 100); ("delayMax", JNum 250)])
  = true
  /\ isValid (parse getter
                (JObj [("count", JNum 3); ("delayMin", JNum 100); ("delayMax", JNum 250)])
                repeatsOptions []) = true
  /\ isValid (parse getter
                (JObj [("count", JNum 3); ("delayMin", JNum 250); ("delayMax", JNum 250)])
                repeatsOptions []) = false.
Proof.
  split; [reflexivity|]. split.
  - apply (repeats_delayMax_needs_smaller_delayMin
             [("count", JNum 3); ("delayMin", JNum 100); ("delayMax", JNum 250)] []
             eq_refl).
    split; [|split; [|split]].
    + repeat constructor; simpl; tauto.
    + exists 3%Z. split; [reflexivity | lia].
    + intros v [= <-]. eauto.
    + intros v [= <-]. exists 250%Z, 100%Z. repeat split; lia.
  - destruct (isValid (parse getter
                         (JObj [("count", JNum 3); ("delayMin", JNum 250);
                                ("delayMax", JNum 250)])
                         repeatsOptions [])) eqn:H; [exfalso | reflexivity].
    apply (repeats_delayMax_needs_smaller_delayMin
             [("count", JNum 3); ("delayMin", JNum 250); ("delayMax", JNum 250)] []
             eq_refl) in H.
    destruct H as [_ [_ [_ H]]].
    destruct (H _ eq_refl) as [M [m [[= <-] [_ [[= <-] Hlt]]]]]. lia.
Defined.

(* ================================================================= *)
(** ** Filters *)

Lemma getProp_ownKeys {A : Type} key (props : list (string * A)) :
  getProp key props <> None <-> In key (ownKeys props).
Proof.
  induction props as [|[k v] rest IH]; simpl.
  - split; [intros H; contradiction H; reflexivity | tauto].
  - destruct (String.eqb_spec k key) as [->|Hne].
    + split; [auto | discriminate].
    + rewrite IH. split; [auto | intros [H|H]; [contradiction | exact H]].
Qed.

(** A filter is validated by the option its [type] names. *)
Lemma filterUnion_valid props p :
  isValid (parse getter (JObj props) filterUnion p) = true ->
  exists tag o,
    getProp "type" props = Some (JStr tag)
    /\ In (tag, o) [("ColorMatrix", filterColorMatrix); ("Glow", filterGlow);
                   ("Blur", filterBlur); ("Noise", filterNoise); ("Clip", filterClip)]
    /\ isValid (parse getter (JObj props) o p) = true.
Proof.
  intros H. unfold filterUnion, z.discriminatedUnion in H.
  destruct (getProp "type" props) as [[| | |tag| |]|] eqn:Ht;
    try (rewrite parse_viewOf in H; cbn [parseView viewOf] in H; rewrite Ht in H;
         discriminate).
  match type of H with
  | context [ZodDiscriminatedUnion _ ?options] =>
      destruct (getProp tag options) as [o|] eqn:Ho
  end.
  - rewrite (parse_discriminatedUnion props "type" _ tag o p Ht Ho) in H.
    exists tag, o. split; [reflexivity|]. split; [|exact H].
    apply getProp_Some_In in Ho. exact Ho.
  - rewrite parse_viewOf in H. cbn [parseView viewOf] in H. rewrite Ht in H.
    rewrite (getProp_map_snd
               (fun s => parseView getter
                           (VObj props (fun key => parseValue getter (getProp key props)))
                           s p)), Ho in H.
    discriminate.
Qed.

Lemma typed_object_needs_options props tag inner refinement p :
  getProp "options" props = None ->
  isValid (parse getter (JObj props)
             (ZodObject [("type", Now (ZodLiteral (JStr tag)));
                         ("options", Now (ZodEffects inner refinement))]
                unknownKeys_strict) p) = true ->
  isValid (parseView getter VUndefined inner (p ++ [PKey "options"])) = true.
Proof.
  intros Hn H. apply object_valid in H. destruct H as [HF _].
  inversion HF as [|? ? _ HF']; subst. inversion HF' as [|? ? Ho _]; subst.
  cbn [fst snd resolve] in Ho. rewrite Hn in Ho. unfold parseValue in Ho.
  cbn [parseView] in Ho.
  destruct (isValid (parseView getter VUndefined inner (p ++ [PKey "options"]))) eqn:E;
    [reflexivity|].
  rewrite (refined_invalid _ _ _ E) in Ho. discriminate.
Qed.

(** X8.  A filter names one of the five filter types; its [options] can be
    left out only for [Noise] and [Clip], and [Clip] takes none. *)
Theorem filter_options_are_optional_only_for_Noise_and_Clip
    (props : list (string * json)) (p : path) :
  (isValid (parse getter (JObj props) filterUnion p) = true ->
   exists tag,
     getProp "type" props = Some (JStr tag)
     /\ In tag ["ColorMatrix"; "Glow"; "Blur"; "Noise"; "Clip"]
     /\ (getProp "options" props = None -> tag = "Noise" \/ tag = "Clip")
     /\ (tag = "Clip" -> getProp "options" props = None))
  /\ (forall tag,
         In tag ["Noise"; "Clip"] ->
         parse getter (JObj [("type", JStr tag)]) filterUnion p
         = mkReturn valid (Some (JObj [("type", JStr tag)])) []).
Proof.
  split.
  - intros H. apply filterUnion_valid in H. destruct H as [tag [o [Ht [Hin H]]]].
    exists tag. split; [exact Ht|].
    simpl in Hin.
    destruct Hin as [E|[E|[E|[E|[E|[]]]]]]; injection E as <- <-;
      (split; [simpl; tauto|]).
    + split; [|discriminate]. intros Hn. exfalso.
      unfold filterColorMatrix in H.
      apply (typed_object_needs_options props _ _ _ p Hn) in H. discriminate.
    + split; [|discriminate]. intros Hn. exfalso.
      unfold filterGlow in H.
      apply (typed_object_needs_options props _ _ _ p Hn) in H. discriminate.
    + split; [|discriminate]. intros Hn. exfalso.
      unfold filterBlur, blurOptions in H.
      apply (typed_object_needs_options props _ _ _ p Hn) in H.
      unfold refine', Methods.refine, Methods.refineAt in H.
      cbn [parseView] in H. rewrite refined_invalid in H; [discriminate | reflexivity].
    + split; [auto | discriminate].
    + split; [auto|]. intros _.
      destruct (getProp "options" props) eqn:Hg; [exfalso | reflexivity].
      assert (Hk : In "options" (ownKeys props)).
      { apply getProp_ownKeys. rewrite Hg. discriminate. }
      assert (HX : isValid (parse getter (JObj props) filterClip p) = false).
      { apply (strict_object_rejects_unknown_key getter props
                 [("type", Now (ZodLiteral (JStr "Clip")))] p "options" Hk).
        reflexivity. }
      congruence.
  - intros tag [<-|[<-|[]]]; vm_compute; reflexivity.
Qed.

Lemma filter_options_are_optional_only_for_Noise_and_Clip_witness :
  exists tag,
    getProp "type" [("type", JStr "Noise")] = Some (JStr tag)
    /\ In tag ["ColorMatrix"; "Glow"; "Blur"; "Noise"; "Clip"]
    /\ (getProp "options" [("type", JStr "Noise")] = None -> tag = "Noise" \/ tag = "Clip")
    /\ (tag = "Clip" -> getProp "options" [("type", JStr "Noise")] = None).
Proof.
  apply (proj1 (filter_options_are_optional_only_for_Noise_and_Clip
                  [("type", JStr "Noise")] [])).
  vm_compute. reflexivity.
Defined.

(* ================================================================= *)
(** ** Token-image rules *)

Lemma regex_string_accepts r m s q :
  Regex.test r s = true ->
  parse getter (JStr s) (ZodString [SRegex r m]) q = OK (Some (JStr s)).
Proof. intros H. rewrite parse_viewOf. simpl. rewrite H. reflexivity. Qed.

Lemma positive_number_valid j q :
  isValid (parse getter j (ZodNumber [NMin 0 false]) q) = true <->
  exists n, j = JNum n /\ (0 < n)%Z.
Proof.
  split.
  - intros H. destruct (number_valid getter j _ q H) as [n [-> Hc]]. exists n.
    split; [reflexivity|]. simpl in Hc. destruct (Z.leb_spec n 0); [discriminate | lia].
  - intros [n [-> Hn]]. rewrite number_accepts; [reflexivity|].
    simpl. destruct (Z.leb_spec n 0); [lia | reflexivity].
Qed.

Lemma filePath_schema :
  exists message, filePath = ZodString [SRegex Patterns.filePath (Some message)].
Proof. eexists. reflexivity. Qed.

(** X10.  A rule written as an array is accepted exactly when it has all
    five elements: a slug, a file path, a positive scale, a second file
    path and a second positive number.  The last two are marked optional,
    but an array that leaves them out is too short for the tuple. *)
Theorem tokenImage_rule_tuple_has_five_elements (items : list json) (p : path) :
  isValid (parse getter (JArr items) tokenImageRule p) = true
  <-> exists name image scale ringImage ringScale,
        items = [JStr name; JStr image; JNum scale; JStr ringImage; JNum ringScale]
        /\ Regex.test Patterns.slug name = true
        /\ Regex.test Patterns.filePath image = true
        /\ (0 < scale)%Z
        /\ Regex.test Patterns.filePath ringImage = true
        /\ (0 < ringScale)%Z.
Proof.
  assert (E : tokenImageRule
              = ZodUnion
                  [ZodTuple [Now (ZodString [SRegex Patterns.slug
                                               (Some "String must be a valid slug.")]);
                             Now filePath;
                             Now (ZodNumber [NMin 0 false]);
                             Now (ZodOptional filePath);
                             Now (ZodOptional (ZodNumber [NMin 0 false]))];
                   tokenImageRuleObject]) by reflexivity.
  rewrite E. clear E. rewrite parse_union, isValid_unionResult. cbn [map existsb].
  assert (HO : isValid (parse getter (JArr items) tokenImageRuleObject p) = false)
    by (rewrite parse_viewOf; reflexivity).
  rewrite HO, !orb_false_r. clear HO.
  destruct filePath_schema as [message ->].
  split.
  - intros H. rewrite parse_viewOf in H.
    destruct items as [|a [|b [|c [|d [|e [|f rest]]]]]]; try discriminate.
    + simpl in H. apply mergeArray_valid in H. destruct H as [_ [HF _]].
      inversion HF as [|? ? Ha HF1]; subst. inversion HF1 as [|? ? Hb HF2]; subst.
      inversion HF2 as [|? ? Hc HF3]; subst. inversion HF3 as [|? ? Hd HF4]; subst.
      inversion HF4 as [|? ? He _]; subst.
      apply regex_string_valid in Ha. destruct Ha as [name [-> Ha]].
      apply regex_string_valid in Hb. destruct Hb as [image [-> Hb]].
      apply positive_number_valid in Hc. destruct Hc as [scale [-> Hc]].
      rewrite parse_optional in Hd, He.
      apply regex_string_valid in Hd. destruct Hd as [ringImage [-> Hd]].
      apply positive_number_valid in He. destruct He as [ringScale [-> He]].
      exists name, image, scale, ringImage, ringScale. auto 10.
    + simpl in H. apply mergeArray_valid in H. destruct H as [H _]. discriminate.
  - intros [name [image [scale [ringImage [ringScale [-> [Ha [Hb [Hc [Hd He]]]]]]]]]].
    rewrite parse_viewOf. cbn -[parse Regex.test Patterns.slug Patterns.filePath].
    rewrite !parse_optional.
    rewrite !regex_string_accepts by assumption.
    rewrite !number_accepts; [reflexivity| |];
      simpl; match goal with |- context [Z.leb ?n 0] => destruct (Z.leb_spec n 0) end;
      (lia || reflexivity).
Qed.

(* ================================================================= *)
(** ** Token images *)

(** X9.  [JSONValue] accepts every parsed JSON value except an array; an
    object is accepted whatever it holds, and handed on empty. *)
Theorem JSONValue_rejects_arrays_and_empties_objects (j : json) (p : path) :
  (isValid (parse getter j JSONValue p) = true <-> forall items, j <> JArr items)
  /\ (forall props,
         j = JObj props ->
         parse getter j JSONValue p = mkReturn valid (Some (JObj [])) []).
Proof.
  split.
  - destruct j as [|b|n|s|items|props]; split; intros H; try discriminate; try reflexivity.
    exfalso. apply (H items). reflexivity.
  - intros props ->. reflexivity.
Qed.

Lemma tokenImageEntry_shape :
  exists uuidMessage,
    tokenImageEntry
    = ZodObject
        [("name", Now (ZodString [SMin 1 None]));
         ("requires", Now (ZodString [SMin 1 None]));
         ("uuid", Now (ZodString [SRegex Patterns.uuid (Some uuidMessage)]));
         ("rules", Now (ZodEffects (ZodArray (Now tokenImageRule) (Some 1))
                          (fun v => if fst uniqueItems (asArray v) then []
                                    else [mkIssueData custom [] (Some (snd uniqueItems))
                                            false])))]
        unknownKeys_strict.
Proof. eexists. reflexivity. Qed.

(** X11.  An accepted token-image entry has the four properties [name],
    [requires], [uuid] and [rules] and no other: the name and the
    requirement are non-empty strings, the UUID matches its pattern, and
    the rules are a non-empty array of accepted rules. *)
Theorem tokenImageEntry_requires_its_four_properties
    (props : list (string * json)) (p : path) :
  isValid (parse getter (JObj props) tokenImageEntry p) = true ->
  Forall (fun k => In k ["name"; "requires"; "uuid"; "rules"]) (ownKeys props)
  /\ exists name requires uuid rules,
       getProp "name" props = Some (JStr name) /\ name <> ""
       /\ getProp "requires" props = Some (JStr requires) /\ requires <> ""
       /\ getProp "uuid" props = Some (JStr uuid)
       /\ Regex.test Patterns.uuid uuid = true
       /\ getProp "rules" props = Some (JArr rules) /\ rules <> []
       /\ Forall (fun rule => forall q, isValid (parse getter rule tokenImageRule q) = true)
            rules.
Proof.
  destruct tokenImageEntry_shape as [m ->]. intros H.
  apply object_valid in H. destruct H as [HF [Hstrict _]].
  split.
  - specialize (Hstrict eq_refl). revert Hstrict. apply Forall_impl. intros k Hk.
    apply includes_In in Hk. exact Hk.
  - inversion HF as [|? ? Hname HF1]; subst. inversion HF1 as [|? ? Hreq HF2]; subst.
    inversion HF2 as [|? ? Huuid HF3]; subst. inversion HF3 as [|? ? Hrules _]; subst.
    cbn [fst snd resolve] in Hname, Hreq, Huuid, Hrules.
    assert (HN : forall key,
               isValid (parseValue getter (getProp key props) (ZodString [SMin 1 None])
                          (p ++ [PKey key])) = true ->
               exists s, getProp key props = Some (JStr s) /\ s <> "").
    { intros key HV. destruct (getProp key props) as [j|]; [|discriminate].
      apply string_valid in HV. destruct HV as [s [-> Hc]].
      exists s. split; [reflexivity|]. intros ->. discriminate. }
    destruct (HN "name" Hname) as [name [Gn Nn]].
    destruct (HN "requires" Hreq) as [requires [Gr Nr]].
    destruct (getProp "uuid" props) as [ju|] eqn:Gu; [|discriminate].
    apply regex_string_valid in Huuid. destruct Huuid as [uuid [-> Hu]].
    destruct (getProp "rules" props) as [jr|] eqn:Grl; [|discriminate].
    unfold parseValue in Hrules. rewrite parse_effects in Hrules.
    apply refined_valid in Hrules. destruct Hrules as [Hrules _].
    destruct jr as [|b|n|s|rules|rprops]; try (rewrite parse_viewOf in Hrules; discriminate).
    apply array_valid in Hrules. destruct Hrules as [Hmin [Hall _]].
    exists name, requires, uuid, rules. repeat split; try assumption; try reflexivity.
    specialize (Hmin 1 eq_refl). destruct rules; [simpl in Hmin; lia | discriminate].
Qed.

Lemma tokenImageEntry_requires_its_four_properties_witness :
  Forall (fun k => In k ["name"; "requires"; "uuid"; "rules"])
    (ownKeys (asObject sampleEntry))
  /\ exists name requires uuid rules,
       getProp "name" (asObject sampleEntry) = Some (JStr name) /\ name <> ""
       /\ getProp "requires" (asObject sampleEntry) = Some (JStr requires) /\ requires <> ""
       /\ getProp "uuid" (asObject sampleEntry) = Some (JStr uuid)
       /\ Regex.test Patterns.uuid uuid = true
       /\ getProp "rules" (asObject sampleEntry) = Some (JArr rules) /\ rules <> []
       /\ Forall (fun rule => forall q, isValid (parse getter rule tokenImageRule q) = true)
            rules.
Proof.
  apply (tokenImageEntry_requires_its_four_properties (asObject sampleEntry) []).
  vm_compute. reflexivity.
Defined.

(* ================================================================= *)
(** ** Animation objects *)

Lemma mergeObjectSync_skips st added pairs1 pairs2 kr :
  Forall (fun kr : string * ParseReturn => snd kr = OK None) pairs1 ->
  Forall (fun kr : string * ParseReturn => snd kr = OK None) pairs2 ->
  mergeObjectSync st added (pairs1 ++ kr :: pairs2) = mergeObjectSync st added [kr].
Proof.
  intros H1 H2. unfold mergeObjectSync.
  assert (HA : forall f pairs,
             (f (OK None) = false) ->
             Forall (fun kr : string * ParseReturn => snd kr = OK None) pairs ->
             existsb f (map snd pairs) = false).
  { intros f pairs Hf HF. induction HF as [|x l Hx _ IH]; simpl; [reflexivity|].
    rewrite Hx, Hf, IH. reflexivity. }
  assert (HV : forall pairs,
             Forall (fun kr : string * ParseReturn => snd kr = OK None) pairs ->
             flat_map (fun kr : string * ParseReturn =>
                         match value (snd kr) with
                         | Some v => [(fst kr, v)]
                         | None => []
                         end) pairs = []).
  { intros pairs HF. induction HF as [|x l Hx _ IH]; simpl; [reflexivity|].
    rewrite Hx, IH. reflexivity. }
  rewrite !map_app, !existsb_app, !flat_map_app. cbn [map existsb flat_map].
  rewrite !(HA isAborted), !(HA isDirty), !HV by (assumption || reflexivity).
  rewrite !orb_false_r, !app_nil_r. reflexivity.
Qed.

(** A strict object given one property, when every other field of its
    shape accepts [undefined]. *)
Lemma single_property_object shape k c v p :
  NoDup (map fst shape) ->
  In (k, c) shape ->
  (forall k' c', In (k', c') shape -> k' <> k ->
                 forall q, parseValue getter None (resolve getter c') q = OK None) ->
  parse getter (JObj [(k, v)]) (ZodObject shape unknownKeys_strict) p
  = mergeObjectSync valid
      (issues (parse getter v (resolve getter c) (p ++ [PKey k])))
      [(k, parse getter v (resolve getter c) (p ++ [PKey k]))].
Proof.
  intros ND Hin Hothers.
  rewrite parse_viewOf. cbn [parseView viewOf ownKeys map fst filter].
  assert (Hk : includes (map fst shape) k = true).
  { apply includes_In. apply (in_map fst) in Hin. exact Hin. }
  rewrite Hk. cbn [negb dirtyIf]. rewrite app_nil_r.
  apply in_split in Hin. destruct Hin as [l1 [l2 ->]].
  assert (Hout : forall l,
             (forall k' c', In (k', c') l -> k' <> k) ->
             incl l (l1 ++ (k, c) :: l2) ->
             Forall (fun kr : string * ParseReturn => snd kr = OK None)
               (map (fun kc : string * child =>
                       (fst kc,
                        parseValue getter (getProp (fst kc) [(k, v)])
                          (resolve getter (snd kc)) (p ++ [PKey (fst kc)]))) l)).
  { intros l Hne Hincl. apply Forall_map. apply Forall_forall. intros [k' c'] Hl.
    cbn [fst snd]. specialize (Hne _ _ Hl). simpl.
    destruct (String.eqb_spec k k'); [congruence|].
    apply (Hothers k' c'); [apply Hincl; exact Hl | exact Hne]. }
  rewrite map_app in ND. cbn [map fst] in ND.
  assert (N1 : forall k' c', In (k', c') l1 -> k' <> k).
  { intros k' c' Hl ->. apply NoDup_remove_2 in ND. apply ND.
    apply in_or_app. left. apply (in_map fst) in Hl. exact Hl. }
  assert (N2 : forall k' c', In (k', c') l2 -> k' <> k).
  { intros k' c' Hl ->. apply NoDup_remove_2 in ND. apply ND.
    apply in_or_app. right. apply (in_map fst) in Hl. exact Hl. }
  pose proof (Hout l1 N1 (fun x Hx => in_or_app _ _ x (or_introl Hx))) as H1.
  pose proof (Hout l2 N2 (fun x Hx => in_or_app l1 ((k, c) :: l2) x
                                        (or_intror (or_intror Hx)))) as H2.
  rewrite map_app. cbn [map fst snd].
  replace (getProp k [(k, v)]) with (Some v)
    by (simpl; rewrite String.eqb_refl; reflexivity).
  cbn [parseValue].
  rewrite (mergeObjectSync_skips _ _ _ _ _ H1 H2).
  f_equal.
  rewrite flat_map_app. cbn [flat_map fst snd].
  assert (HI : forall pairs,
             Forall (fun kr : string * ParseReturn => snd kr = OK None) pairs ->
             flat_map (fun kr : string * ParseReturn => issues (snd kr)) pairs = []).
  { intros pairs HF. induction HF as [|x l Hx _ IH]; simpl; [reflexivity|].
    rewrite Hx, IH. reflexivity. }
  rewrite (HI _ H1), (HI _ H2), app_nil_r. reflexivity.
Qed.

Lemma if_nil {A : Type} (b : bool) (x : list A) :
  x <> [] -> ((if b then [] else x) = [] <-> b = true).
Proof.
  intros Hx. destruct b; split; intros H; try reflexivity; try discriminate.
  contradiction.
Qed.

Lemma animationObject_unfold :
  exists refinement,
    animationObject = ZodEffects (ZodObject animationShape unknownKeys_strict) refinement
    /\ (forall v, refinement v = [] <-> fst nonEmpty v = true).
Proof.
  eexists. split; [reflexivity|]. intros v.
  apply (if_nil (fst nonEmpty v)). discriminate.
Qed.

Lemma animationShape_keys :
  map fst animationShape
  = ["overrides"; "trigger"; "preset"; "file"; "default"; "predicate"; "options";
     "reference"; "contents"].
Proof. reflexivity. Qed.

Lemma animationShape_optional k c :
  In (k, c) animationShape ->
  forall q, parseValue getter None (resolve getter c) q = OK None.
Proof.
  unfold animationShape. cbn -[effectOptions predicate]. intros H q.
  repeat (destruct H as [H|H]; [injection H as <- <-; reflexivity|]).
  contradiction.
Qed.

Lemma animationShape_contents : In ("contents", LazyOptional LContents) animationShape.
Proof. unfold animationShape. cbn -[effectOptions predicate]. do 8 right. left. reflexivity. Qed.

(** One level of nesting. *)
Lemma contents_wrapper a p :
  status (parse getter (JObj [("contents", JArr [a])]) animationObject p)
  = status (parse getter a animationObject (p ++ [PKey "contents"; PIndex 0]))
  /\ issues (parse getter (JObj [("contents", JArr [a])]) animationObject p)
     = issues (parse getter a animationObject (p ++ [PKey "contents"; PIndex 0])).
Proof.
  destruct animationObject_unfold as [refinement [E Hr]].
  rewrite E at 1 3. rewrite parse_effects.
  rewrite (single_property_object animationShape "contents" (LazyOptional LContents)).
  2:{ rewrite animationShape_keys. repeat constructor; simpl; intuition discriminate. }
  2:{ apply animationShape_contents. }
  2:{ intros k' c' Hin _. apply (animationShape_optional k' c' Hin). }
  cbn [resolve getter]. rewrite parse_optional.
  unfold contents, refineArray, Methods.refine, Methods.refineAt, Methods.min, z.array.
  rewrite parse_effects.
  rewrite (parse_viewOf getter (JArr [a])).
  cbn -[parse animationObject uniqueItems].
  rewrite <- app_assoc. cbn [app].
  set (r := parse getter a animationObject (p ++ [PKey "contents"; PIndex 0])).
  rewrite app_nil_r.
  unfold mergeArray, mergeObjectSync, refined, isAborted, isDirty.
  cbn -[parse animationObject uniqueItems].
  destruct (status r) eqn:Hs; cbn -[parse animationObject uniqueItems];
    try (split; reflexivity).
  - destruct (value r) as [w|]; cbn; rewrite ?app_nil_r.
    + rewrite (proj2 (Hr (JObj [("contents", JArr [w])])) eq_refl).
      cbn. rewrite ?app_nil_r. split; reflexivity.
    + rewrite (proj2 (Hr (JObj [("contents", JArr [])])) eq_refl).
      cbn. rewrite ?app_nil_r. split; reflexivity.
  - destruct (value r) as [w|]; cbn; rewrite ?app_nil_r.
    + rewrite (proj2 (Hr (JObj [("contents", JArr [w])])) eq_refl).
      cbn. rewrite ?app_nil_r. split; reflexivity.
    + rewrite (proj2 (Hr (JObj [("contents", JArr [])])) eq_refl).
      cbn. rewrite ?app_nil_r. split; reflexivity.
Qed.

(** X14.  Nesting is transparent: an animation object wrapped, any number
    of times, as the only element of a [contents] array is valid, dirty or
    rejected as the object itself is, and is reported with the same issues;
    their paths go through [contents] and index 0 at each level. *)
Theorem contents_nesting_keeps_status_and_issues (n : nat) (a : json) (p : path) :
  status (parse getter (nest n a) animationObject p)
  = status (parse getter a animationObject (p ++ nestPath n))
  /\ issues (parse getter (nest n a) animationObject p)
     = issues (parse getter a animationObject (p ++ nestPath n)).
Proof.
  revert p. induction n as [|n IH]; intros p.
  - simpl. rewrite app_nil_r. split; reflexivity.
  - change (nest (S n) a) with (JObj [("contents", JArr [nest n a])]).
    destruct (contents_wrapper (nest n a) p) as [Hs Hi].
    destruct (IH (p ++ [PKey "contents"; PIndex 0])) as [Hs' Hi'].
    rewrite Hs, Hi, Hs', Hi', <- app_assoc. split; reflexivity.
Qed.

Lemma animationShape_NoDup : NoDup (map fst animationShape).
Proof. rewrite animationShape_keys. repeat constructor; simpl; intuition discriminate. Qed.

(** X13.  Every key of an animation object is optional, but one is needed:
    an object with a single property is accepted exactly when the property
    is one of the nine known keys and its value is accepted by the schema of
    that key; the empty object is rejected. *)
Theorem animationObject_accepts_any_single_known_property
    (k : string) (v : json) (p : path) :
  (isValid (parse getter (JObj [(k, v)]) animationObject p) = true
   <-> exists c,
         In (k, c) animationShape
         /\ isValid (parse getter v (resolve getter c) (p ++ [PKey k])) = true)
  /\ isValid (parse getter (JObj []) animationObject p) = false
  /\ map fst animationShape
     = ["overrides"; "trigger"; "preset"; "file"; "default"; "predicate"; "options";
        "reference"; "contents"].
Proof.
  split; [|split; [vm_compute; reflexivity | reflexivity]].
  destruct animationObject_unfold as [refinement [E Hr]].
  rewrite E. rewrite parse_effects.
  assert (HS : forall c,
             In (k, c) animationShape ->
             parse getter (JObj [(k, v)]) (ZodObject animationShape unknownKeys_strict) p
             = mergeObjectSync valid
                 (issues (parse getter v (resolve getter c) (p ++ [PKey k])))
                 [(k, parse getter v (resolve getter c) (p ++ [PKey k]))]).
  { intros c Hin. apply single_property_object.
    - apply animationShape_NoDup.
    - exact Hin.
    - intros k' c' Hin' _. apply (animationShape_optional k' c' Hin'). }
  split.
  - intros H. apply refined_valid in H. destruct H as [H _].
    pose proof H as HK. apply object_valid in HK. destruct HK as [_ [Hstrict _]].
    specialize (Hstrict eq_refl). inversion Hstrict as [|? ? Hk _]; subst.
    apply includes_In in Hk. apply in_map_iff in Hk. destruct Hk as [[k' c] [Ek Hin]].
    simpl in Ek. subst k'. exists c. split; [exact Hin|].
    rewrite (HS c Hin) in H. apply mergeObjectSync_valid in H.
    destruct H as [_ [HF _]]. inversion HF; subst. assumption.
  - intros [c [Hin HV]]. rewrite (HS c Hin).
    destruct (valid_has_value getter v _ _ HV) as [w Hw].
    pose proof (wellReported_parse getter v (resolve getter c) (p ++ [PKey k])) as HW.
    assert (HI : issues (parse getter v (resolve getter c) (p ++ [PKey k])) = []).
    { apply HW. apply isValid_status. exact HV. }
    apply isValid_status in HV.
    unfold mergeObjectSync, isAborted, isDirty. cbn [map snd fst existsb flat_map].
    rewrite HV, Hw, HI. cbn [orb app].
    rewrite (refined_passes p refinement (mkReturn valid (Some (JObj [(k, w)])) [])
               (JObj [(k, w)]) eq_refl eq_refl eq_refl);
      [reflexivity|].
    apply Hr. reflexivity.
Qed.

(** X15.  The value of a top-level key is accepted as an array of
    animation objects only if it is a non-empty array of accepted animation
    objects on whose parsed form [superValidate] raises no issue, and, for a
    value without repeated keys, no two of its elements are deep-equal,
    whatever the order of their keys. *)
Theorem animationObjects_needs_distinct_entries
    (superValidate : list json -> list IssueData) (j : json) (p : path) :
  isValid (parse getter j (animationObjects superValidate) p) = true ->
  exists arr,
    j = JArr arr
    /\ arr <> []
    /\ Forall (fun x => forall q, isValid (parse getter x animationObject q) = true) arr
    /\ (exists parsed,
           value (parse getter j (animationObjects superValidate) p) = Some (JArr parsed)
           /\ superValidate parsed = [])
    /\ (wellFormed j ->
        forall i k x y,
          i <> k -> nth_error arr i = Some x -> nth_error arr k = Some y ->
          deepEqual x y = false).
Proof.
  unfold animationObjects, refineArray, Methods.refine, Methods.refineAt,
    Methods.superRefine, Methods.min, z.array.
  rewrite !parse_effects. intros H.
  apply refined_valid in H. destruct H as [H [Hv2 HR2]].
  apply refined_valid in H. destruct H as [H [Hv1 HR1]].
  destruct j as [|b|n|s|arr|props]; try (rewrite parse_viewOf in H; discriminate).
  apply array_valid in H. destruct H as [Hmin [Hall Hval]].
  exists arr. split; [reflexivity|].
  rewrite Hv1, Hval in HR2. rewrite Hval in HR1.
  specialize (HR1 _ eq_refl). specialize (HR2 _ eq_refl).
  cbn [asArray] in HR1, HR2.
  split; [|split; [exact Hall|split]].
  - specialize (Hmin 1 eq_refl). destruct arr; [simpl in Hmin; lia | discriminate].
  - eexists. split; [|exact HR1]. rewrite Hv2, Hv1, Hval. reflexivity.
  - intros W i k x y Hik Hx Hy.
    destruct (fst uniqueItems _) eqn:HU in HR2; [|discriminate].
    apply uniqueItems_serializations in HU.
    rewrite (flat_map_defined (fun x => value (parse getter x animationObject [])) JNull)
      in HU.
    2:{ revert Hall. apply Forall_impl. intros z Hz.
        apply (valid_has_value getter z animationObject [] (Hz [])). }
    apply NoDup_map_inv in HU.
    rewrite <- (map_map (fun x => value (parse getter x animationObject []))
                        (fun o => match o with Some v => v | None => JNull end)) in HU.
    apply NoDup_map_inv in HU.
    destruct (deepEqual x y) eqn:HE; [exfalso | reflexivity].
    apply wellFormed_elements in W. rewrite Forall_forall in W.
    assert (HS : sameOutcome (parse getter x animationObject [])
                             (parse getter y animationObject [])).
    { apply (parse_respects_deepEqual getter getter_is_recordFree x y).
      - apply W. apply (nth_error_In _ _ Hx).
      - apply W. apply (nth_error_In _ _ Hy).
      - exact HE.
      - reflexivity. }
    destruct HS as [_ HS].
    apply Hik. rewrite NoDup_nth_error in HU. apply HU.
    + rewrite length_map. apply nth_error_Some. rewrite Hx. discriminate.
    + rewrite !nth_error_map, Hx, Hy. simpl. rewrite HS. reflexivity.
Qed.

Lemma animationObjects_needs_distinct_entries_witness :
  isValid (parse getter
             (JArr [JObj [("preset", JStr "melee"); ("default", JBool true)];
                    JObj [("default", JBool true); ("preset", JStr "ranged")]])
             (animationObjects noSuperIssues) []) = true
  /\ deepEqual (JObj [("preset", JStr "melee"); ("default", JBool true)])
               (JObj [("default", JBool true); ("preset", JStr "ranged")]) = false.
Proof.
  assert (H : isValid (parse getter
                         (JArr [JObj [("preset", JStr "melee"); ("default", JBool true)];
                                JObj [("default", JBool true); ("preset", JStr "ranged")]])
                         (animationObjects noSuperIssues) []) = true)
    by (vm_compute; reflexivity).
  split; [exact H|].
  destruct (animationObjects_needs_distinct_entries noSuperIssues _ [] H)
    as [arr [E [_ [_ [_ HD]]]]].
  injection E as <-.
  apply (HD ltac:(simpl; repeat split; repeat constructor; simpl; intuition discriminate)
            0 1); [discriminate | reflexivity | reflexivity].
Defined.

(* ================================================================= *)
(** ** The predicate grammar, both ways *)

Lemma unionResult_find p rs r :
  find isValid rs = Some r -> unionResult p rs = mkReturn valid (value r) [].
Proof. intros H. unfold unionResult. rewrite H. reflexivity. Qed.

(** An array whose elements are all accepted. *)
Lemma array_accepts (s : child) (f : json -> json) items minLength p :
  Forall (fun x => forall q,
            parse getter x (resolve getter s) q = mkReturn valid (Some (f x)) []) items ->
  (forall n, minLength = Some n -> n <= List.length items) ->
  parse getter (JArr items) (ZodArray s minLength) p
  = mkReturn valid (Some (JArr (map f items))) [].
Proof.
  intros HF Hmin. rewrite parse_viewOf. cbn [parseView viewOf].
  assert (HS : (match minLength with
                | Some n =>
                    if Nat.ltb (List.length items) n
                    then [mkIssue (too_small "array" (Z.of_nat n) true false) p None]
                    else []
                | None => []
                end) = []).
  { destruct minLength as [n|]; [|reflexivity].
    specialize (Hmin n eq_refl). destruct (Nat.ltb_spec (List.length items) n); [lia|].
    reflexivity. }
  rewrite HS. cbn [app dirtyIf].
  pose proof (array_results getter (resolve getter s) p items 0) as HR.
  set (results := map _ (combine _ _)) in *.
  assert (E : results = map (fun x => mkReturn valid (Some (f x)) []) items).
  { clearbody results. clear Hmin HS. revert HF.
    induction HR as [|x r l l' [i Hr] _ IH]; intros HF; [reflexivity|].
    inversion HF as [|? ? Hx HF']; subst. simpl. rewrite Hx, (IH HF'). reflexivity. }
  rewrite E. clear. unfold mergeArray.
  assert (HA : forall g, g (mkReturn valid (Some JNull) []) = false ->
                         (forall v, g (mkReturn valid (Some v) []) = g (mkReturn valid (Some JNull) [])) ->
                         existsb g (map (fun x => mkReturn valid (Some (f x)) []) items) = false).
  { intros g Hg Hv. induction items as [|x l IH]; simpl; [reflexivity|].
    rewrite Hv, Hg, IH. reflexivity. }
  rewrite (HA isAborted), (HA isDirty) by reflexivity. clear HA.
  assert (EV : flat_map (fun r => match value r with Some v => [v] | None => [] end)
                 (map (fun x => mkReturn valid (Some (f x)) []) items)
               = map f items).
  { induction items as [|x l IH]; simpl; [reflexivity|]. rewrite IH. reflexivity. }
  assert (EI : flat_map issues (map (fun x => mkReturn valid (Some (f x)) []) items) = []).
  { clear EV. induction items as [|x l IH]; simpl; [reflexivity | exact IH]. }
  rewrite EV, EI. reflexivity.
Qed.

Lemma In_comparisonKeys op :
  In op comparisonKeys ->
  op = "eq" \/ op = "gt" \/ op = "gte" \/ op = "lt" \/ op = "lte".
Proof. simpl. intuition. Qed.

Lemma In_combinatorKeys op :
  In op combinatorKeys ->
  op = "and" \/ op = "or" \/ op = "xor" \/ op = "nand" \/ op = "nor" \/ op = "iff".
Proof. simpl. intuition. Qed.

(** The pair of a comparison. *)
Lemma comparison_tuple_accepts a b q :
  Regex.test Patterns.rollOption a = true ->
  (exists n, b = JNum n)
  \/ (exists s, b = JStr s /\ Regex.test Patterns.rollOption s = true) ->
  parse getter (JArr [JStr a; b])
    (ZodTuple [Now rollOption; Now (ZodUnion [rollOption; ZodNumber []])]) q
  = mkReturn valid (Some (JArr [JStr a; b])) [].
Proof.
  intros Ha Hb. rewrite parse_viewOf.
  cbn -[parse Regex.test Patterns.rollOption rollOption].
  assert (HR : forall s q', Regex.test Patterns.rollOption s = true ->
                            parse getter (JStr s) rollOption q' = OK (Some (JStr s))).
  { intros s q' Hs. apply regex_string_accepts. exact Hs. }
  rewrite (HR a _ Ha).
  destruct Hb as [[n ->]|[s [-> Hs]]].
  - rewrite parse_union. cbn [map]. rewrite (number_accepts getter n [] (q ++ [PIndex 1]) eq_refl).
    replace (parse getter (JNum n) rollOption (q ++ [PIndex 1]))
      with (typeMismatch "string" (VNum n) (q ++ [PIndex 1]))
      by (rewrite parse_viewOf; reflexivity).
    reflexivity.
  - rewrite parse_union. cbn [map]. rewrite (HR s _ Hs). reflexivity.
Qed.

Lemma single_field_object k c v p :
  parse getter (JObj [(k, v)]) (ZodObject [(k, c)] unknownKeys_strict) p
  = mergeObjectSync valid
      (issues (parse getter v (resolve getter c) (p ++ [PKey k])))
      [(k, parse getter v (resolve getter c) (p ++ [PKey k]))].
Proof.
  apply single_property_object.
  - repeat constructor. simpl. tauto.
  - left. reflexivity.
  - intros k' c' [[= <- <-]|[]] Hne. contradiction Hne. reflexivity.
Qed.

Lemma single_field_object_accepts k c v w p :
  parse getter v (resolve getter c) (p ++ [PKey k]) = mkReturn valid (Some w) [] ->
  parse getter (JObj [(k, v)]) (ZodObject [(k, c)] unknownKeys_strict) p
  = mkReturn valid (Some (JObj [(k, w)])) [].
Proof. intros H. rewrite single_field_object, H. reflexivity. Qed.

Lemma wrong_key_rejects k v shape p :
  includes (map fst shape) k = false ->
  forall rest,
    isValid (parse getter (JObj ((k, v) :: rest)) (ZodObject shape unknownKeys_strict) p)
    = false.
Proof.
  intros H rest. apply (strict_object_rejects_unknown_key getter _ shape p k);
    [left; reflexivity | exact H].
Qed.

Lemma rollOption_rejects_object props p :
  isValid (parse getter (JObj props) rollOption p) = false.
Proof. rewrite parse_viewOf. reflexivity. Qed.

(** The options of [predicate], spelled out. *)
Lemma predicate_options :
  predicate
  = ZodUnion
      [rollOption;
       ZodObject [("eq", Now (ZodTuple [Now rollOption;
                                        Now (ZodUnion [rollOption; ZodNumber []])]))]
         unknownKeys_strict;
       ZodObject [("gt", Now (ZodTuple [Now rollOption;
                                        Now (ZodUnion [rollOption; ZodNumber []])]))]
         unknownKeys_strict;
       ZodObject [("gte", Now (ZodTuple [Now rollOption;
                                         Now (ZodUnion [rollOption; ZodNumber []])]))]
         unknownKeys_strict;
       ZodObject [("lt", Now (ZodTuple [Now rollOption;
                                        Now (ZodUnion [rollOption; ZodNumber []])]))]
         unknownKeys_strict;
       ZodObject [("lte", Now (ZodTuple [Now rollOption;
                                         Now (ZodUnion [rollOption; ZodNumber []])]))]
         unknownKeys_strict;
       ZodObject [("and", Lazy LPredicates)] unknownKeys_strict;
       ZodObject [("or", Lazy LPredicates)] unknownKeys_strict;
       ZodObject [("xor", Lazy LPredicates)] unknownKeys_strict;
       ZodObject [("not", Lazy LPredicate)] unknownKeys_strict;
       ZodObject [("nand", Lazy LPredicates)] unknownKeys_strict;
       ZodObject [("nor", Lazy LPredicates)] unknownKeys_strict;
       ZodObject [("if", Lazy LPredicate); ("then", Lazy LPredicate)] unknownKeys_strict;
       ZodObject [("iff", Lazy LPredicates)] unknownKeys_strict].
Proof. reflexivity. Qed.

Lemma unionResult_selects p rs w :
  find isValid rs = Some (mkReturn valid (Some w) []) ->
  unionResult p rs = mkReturn valid (Some w) [].
Proof. intros H. rewrite (unionResult_find p rs _ H). reflexivity. Qed.

Lemma rollOption_accepts s q :
  Regex.test Patterns.rollOption s = true ->
  parse getter (JStr s) rollOption q = OK (Some (JStr s)).
Proof. intros Hs. apply regex_string_accepts. exact Hs. Qed.

Ltac select_option Hsel :=
  rewrite predicate_options, parse_union; cbn [map];
  apply unionResult_selects; unfold find;
  rewrite ?rollOption_rejects_object;
  repeat (rewrite wrong_key_rejects by reflexivity);
  rewrite Hsel; reflexivity.

Lemma predicates_accepts arr q :
  arr <> [] ->
  Forall (fun x => forall p,
            parse getter x predicate p = mkReturn valid (Some (normal x)) []) arr ->
  NoDup (map normal arr) ->
  parse getter (JArr arr) predicates q = mkReturn valid (Some (JArr (map normal arr))) [].
Proof.
  intros Hne HF ND.
  unfold predicates, refineArray, Methods.refine, Methods.refineAt, Methods.min, z.array.
  rewrite parse_effects.
  rewrite (array_accepts (Lazy LPredicate) normal arr (Some 1) q HF).
  - apply refined_passes; try reflexivity.
    cbn [asArray].
    assert (HU : fst uniqueItems (map normal arr) = true).
    { apply uniqueItems_serializations. apply NoDup_stringify. exact ND. }
    rewrite HU. reflexivity.
  - intros n [= <-]. destruct arr; [contradiction | simpl; lia].
Qed.

(** Every predicate of the grammar is accepted, and handed on with its
    conditionals in the order [if], [then]. *)
Lemma predicate_accepts_all j :
  (Predicate j ->
   forall p, parse getter j predicate p = mkReturn valid (Some (normal j)) [])
  /\ (forall arr,
         j = JArr arr ->
         Forall (fun x => Predicate x ->
                          forall p, parse getter x predicate p
                                    = mkReturn valid (Some (normal x)) []) arr).
Proof.
  induction j as [|b|n|s|items IH|props IH] using json_ind.
  - split; [intros H; inversion H | discriminate].
  - split; [intros H; inversion H | discriminate].
  - split; [intros H; inversion H | discriminate].
  - split; [|discriminate]. intros H p. inversion H as [s' Hs| | | | |]; subst.
    rewrite predicate_options, parse_union. cbn [map].
    apply unionResult_selects. unfold find.
    rewrite (rollOption_accepts s p Hs). reflexivity.
  - split; [intros H; inversion H|]. intros arr [= <-].
    revert IH. apply Forall_impl. intros x [Hx _]. exact Hx.
  - split; [|discriminate]. intros H p.
    inversion H as [|op a b Hop Ha Hb|op arr Hop Hne HF ND|a Ha|a b Ha Hb|a b Ha Hb]; subst.
    + (* a comparison *)
      assert (Hsel : forall q,
                 parse getter (JObj [(op, JArr [JStr a; b])])
                   (ZodObject [(op, Now (ZodTuple [Now rollOption;
                                                   Now (ZodUnion [rollOption; ZodNumber []])]))]
                      unknownKeys_strict) q
                 = mkReturn valid (Some (JObj [(op, JArr [JStr a; b])])) []).
      { intros q. apply single_field_object_accepts.
        apply comparison_tuple_accepts; assumption. }
      assert (HN : normal (JObj [(op, JArr [JStr a; b])]) = JObj [(op, JArr [JStr a; b])]).
      { destruct Hb as [[n ->]|[s [-> _]]]; reflexivity. }
      rewrite HN.
      apply In_comparisonKeys in Hop.
      destruct Hop as [->|[->|[->|[->| ->]]]]; select_option (Hsel p).
    + (* a combinator *)
      inversion IH as [|? ? [_ IHarr] _]; subst. cbn [snd] in IHarr.
      specialize (IHarr arr eq_refl).
      assert (HA : Forall (fun x => forall q,
                             parse getter x predicate q
                             = mkReturn valid (Some (normal x)) []) arr).
      { rewrite Forall_forall in *. intros x Hx. apply (IHarr x Hx). apply HF. exact Hx. }
      assert (Hsel : forall q,
                 parse getter (JObj [(op, JArr arr)])
                   (ZodObject [(op, Lazy LPredicates)] unknownKeys_strict) q
                 = mkReturn valid (Some (JObj [(op, JArr (map normal arr))])) []).
      { intros q. apply single_field_object_accepts.
        apply (predicates_accepts arr _ Hne HA ND). }
      change (normal (JObj [(op, JArr arr)]))
        with (JObj [(op, JArr (map normal arr))]).
      apply In_combinatorKeys in Hop.
      destruct Hop as [->|[->|[->|[->|[->| ->]]]]]; select_option (Hsel p).
    + (* not *)
      inversion IH as [|? ? [IHa _] _]; subst. cbn [snd] in IHa.
      assert (Hsel : forall q,
                 parse getter (JObj [("not", a)])
                   (ZodObject [("not", Lazy LPredicate)] unknownKeys_strict) q
                 = mkReturn valid (Some (JObj [("not", normal a)])) []).
      { intros q. apply single_field_object_accepts. apply (IHa Ha). }
      change (normal (JObj [("not", a)])) with (JObj [("not", normal a)]).
      select_option (Hsel p).
    + (* if, then *)
      inversion IH as [|? ? [IHa _] IH']; subst. inversion IH' as [|? ? [IHb _] _]; subst.
      cbn [snd] in IHa, IHb.
      assert (Hsel : parse getter (JObj [("if", a); ("then", b)])
                       (ZodObject [("if", Lazy LPredicate); ("then", Lazy LPredicate)]
                          unknownKeys_strict) p
                     = mkReturn valid
                         (Some (JObj [("if", normal a); ("then", normal b)])) []).
      { rewrite parse_viewOf. cbn -[parse predicate].
        rewrite (IHa Ha), (IHb Hb). reflexivity. }
      change (normal (JObj [("if", a); ("then", b)]))
        with (JObj [("if", normal a); ("then", normal b)]).
      select_option Hsel.
    + (* then, if *)
      inversion IH as [|? ? [IHb _] IH']; subst. inversion IH' as [|? ? [IHa _] _]; subst.
      cbn [snd] in IHa, IHb.
      assert (Hsel : parse getter (JObj [("then", b); ("if", a)])
                       (ZodObject [("if", Lazy LPredicate); ("then", Lazy LPredicate)]
                          unknownKeys_strict) p
                     = mkReturn valid
                         (Some (JObj [("if", normal a); ("then", normal b)])) []).
      { rewrite parse_viewOf. cbn -[parse predicate].
        rewrite (IHa Ha), (IHb Hb). reflexivity. }
      change (normal (JObj [("then", b); ("if", a)]))
        with (JObj [("if", normal a); ("then", normal b)]).
      select_option Hsel.
Qed.

Lemma predicate_accepts j p :
  Predicate j -> parse getter j predicate p = mkReturn valid (Some (normal j)) [].
Proof. intros H. apply (proj1 (predicate_accepts_all j) H). Qed.

Lemma object_rejects_string s shape uk p :
  isValid (parse getter (JStr s) (ZodObject shape uk) p) = false.
Proof. rewrite parse_viewOf. reflexivity. Qed.

Lemma single_key_props K (props : list (string * json)) :
  NoDup (ownKeys props) ->
  Forall (fun k => includes [K] k = true) (ownKeys props) ->
  props = [] \/ exists v, props = [(K, v)].
Proof.
  intros ND HF. destruct props as [|[k v] rest]; [left; reflexivity | right].
  cbn [ownKeys map fst] in ND, HF. inversion ND as [|? ? Hnot _]; subst.
  inversion HF as [|? ? Hk HF']; subst.
  apply includes_In in Hk. destruct Hk as [<-|[]].
  destruct rest as [|[k' v'] rest']; [eauto|].
  exfalso. inversion HF' as [|? ? Hk' _]; subst.
  apply includes_In in Hk'. destruct Hk' as [<-|[]].
  apply Hnot. left. reflexivity.
Qed.

Lemma two_key_props (props : list (string * json)) a b :
  NoDup (ownKeys props) ->
  Forall (fun k => includes ["if"; "then"] k = true) (ownKeys props) ->
  getProp "if" props = Some a ->
  getProp "then" props = Some b ->
  props = [("if", a); ("then", b)] \/ props = [("then", b); ("if", a)].
Proof.
  intros ND HF Ha Hb.
  destruct props as [|[k1 v1] [|[k2 v2] rest]]; [discriminate| |].
  - simpl in Ha, Hb.
    destruct (String.eqb_spec k1 "if") as [->|_]; [discriminate | discriminate].
  - cbn [ownKeys map fst] in ND, HF.
    inversion ND as [|? ? N1 ND']; subst. inversion ND' as [|? ? N2 _]; subst.
    inversion HF as [|? ? H1 HF']; subst. inversion HF' as [|? ? H2 HF'']; subst.
    apply includes_In in H1, H2.
    assert (rest = []).
    { destruct rest as [|[k3 v3] rest']; [reflexivity | exfalso].
      inversion HF'' as [|? ? H3 _]; subst. apply includes_In in H3.
      simpl in H1, H2, H3, N1, N2.
      destruct H1 as [<-|[<-|[]]], H2 as [<-|[<-|[]]], H3 as [<-|[<-|[]]]; tauto. }
    subst rest. simpl in H1, H2, N1.
    destruct H1 as [<-|[<-|[]]], H2 as [<-|[<-|[]]]; try tauto;
      simpl in Ha, Hb; injection Ha as ->; injection Hb as ->; auto.
Qed.

(** What an accepted object can be made of: one key, or [if] and [then]. *)
Lemma predicate_object_shape props p :
  NoDup (ownKeys props) ->
  isValid (parse getter (JObj props) predicate p) = true ->
  (exists k v, props = [(k, v)])
  \/ (exists a b,
         (props = [("if", a); ("then", b)] \/ props = [("then", b); ("if", a)])
         /\ isValid (parse getter a predicate (p ++ [PKey "if"])) = true
         /\ isValid (parse getter b predicate (p ++ [PKey "then"])) = true).
Proof.
  intros ND H.
  rewrite predicate_options, parse_union, isValid_unionResult in H.
  cbn [map existsb] in H. rewrite rollOption_rejects_object in H.
  assert (HS : forall K c,
             isValid (parse getter (JObj props) (ZodObject [(K, c)] unknownKeys_strict) p)
             = true ->
             (forall q, isValid (parseValue getter None (resolve getter c) q) = false) ->
             exists k v, props = [(k, v)]).
  { intros K c HV Hundef. apply object_valid in HV. destruct HV as [HF [Hstrict _]].
    destruct (single_key_props K props ND (Hstrict eq_refl)) as [->|[v ->]]; [|eauto].
    exfalso. inversion HF as [|? ? Hf _]; subst. cbn [fst snd getProp] in Hf.
    rewrite Hundef in Hf. discriminate. }
  assert (HP : forall q, isValid (parseValue getter None predicate q) = false)
    by reflexivity.
  cbn [orb] in H.
  repeat (apply orb_true_iff in H; destruct H as [H|H]);
    try discriminate;
    try (left; refine (HS _ _ H _); intros q; reflexivity).
  (* if, then *)
  right. apply object_valid in H. destruct H as [HF [Hstrict _]].
  inversion HF as [|? ? Hif HF']; subst. inversion HF' as [|? ? Hthen _]; subst.
  cbn [fst snd resolve getter] in Hif, Hthen.
  destruct (getProp "if" props) as [a|] eqn:Ga; [|rewrite HP in Hif; discriminate].
  destruct (getProp "then" props) as [b|] eqn:Gb; [|rewrite HP in Hthen; discriminate].
  exists a, b. split; [|split; assumption].
  apply (two_key_props props a b ND (Hstrict eq_refl) Ga Gb).
Qed.

Lemma predicate_sound_all j :
  (wellFormed j ->
   forall p, isValid (parse getter j predicate p) = true -> Predicate j)
  /\ (forall arr,
         j = JArr arr ->
         Forall (fun x => wellFormed x ->
                          forall p, isValid (parse getter x predicate p) = true ->
                                    Predicate x) arr).
Proof.
  induction j as [|b|n|s|items IH|props IH] using json_ind.
  - split; [intros _ p H; vm_compute in H; discriminate | discriminate].
  - split; [intros _ p H; vm_compute in H; discriminate | discriminate].
  - split; [intros _ p H; vm_compute in H; discriminate | discriminate].
  - split; [|discriminate]. intros _ p H.
    rewrite predicate_options, parse_union, isValid_unionResult in H.
    cbn [map existsb] in H. rewrite !object_rejects_string in H.
    rewrite !orb_false_r in H. apply rollOption_valid in H.
    destruct H as [s' [[= <-] Hs]]. constructor. exact Hs.
  - split.
    + intros _ p H. exfalso.
      rewrite predicate_options, parse_union, isValid_unionResult in H.
      cbn [map existsb] in H.
      repeat (rewrite (parse_viewOf getter (JArr items)) in H; cbn [parseView viewOf] in H).
      discriminate.
    + intros arr [= <-]. revert IH. apply Forall_impl. intros x [Hx _]. exact Hx.
  - split; [|discriminate]. intros W p H.
    apply wellFormed_properties in W. destruct W as [ND W].
    destruct (predicate_object_shape props p ND H) as [[k [v ->]]|[a [b [Hp [Ha Hb]]]]].
    + inversion IH as [|? ? [IHv IHarr] _]; subst. cbn [snd] in IHv, IHarr.
      inversion W as [|? ? Wv _]; subst. cbn [snd] in Wv.
      apply predicate_object_valid in H.
      destruct H as [[Hk H]|[[Hk H]|[-> H]]].
      * apply comparison_tuple_valid in H.
        destruct H as [a [b [-> [Ha Hb]]]]. apply P_comparison; assumption.
      * apply predicates_valid in H.
        destruct H as [arr [-> [Hne [_ [Hall HN]]]]].
        specialize (IHarr arr eq_refl).
        apply wellFormed_elements in Wv.
        assert (HP : Forall Predicate arr).
        { rewrite Forall_forall in *. intros x Hx.
          apply (IHarr x Hx (Wv x Hx) [] (Hall x Hx [])). }
        apply P_combinator; try assumption.
        assert (E : map (fun x => value (parse getter x predicate [])) arr
                    = map Some (map normal arr)).
        { rewrite map_map. apply map_ext_in. intros x Hx.
          rewrite Forall_forall in HP. rewrite (predicate_accepts x [] (HP x Hx)).
          reflexivity. }
        rewrite E in HN. apply NoDup_map_inv in HN. exact HN.
      * apply P_not. apply (IHv Wv _ H).
    + destruct Hp as [->| ->].
      * inversion IH as [|? ? [IHa _] IH']; subst.
        inversion IH' as [|? ? [IHb _] _]; subst.
        inversion W as [|? ? Wa W']; subst. inversion W' as [|? ? Wb _]; subst.
        apply P_if; [apply (IHa Wa _ Ha) | apply (IHb Wb _ Hb)].
      * inversion IH as [|? ? [IHb _] IH']; subst.
        inversion IH' as [|? ? [IHa _] _]; subst.
        inversion W as [|? ? Wb W']; subst. inversion W' as [|? ? Wa _]; subst.
        apply P_then; [apply (IHa Wa _ Ha) | apply (IHb Wb _ Hb)].
Qed.

(** X12.  Of the values without a repeated key whose numbers are safe
    integers, the predicate schema accepts exactly those of the type
    [Predicate] whose strings are roll options and whose combinator arrays
    are non-empty and free of duplicates (the order of [if] and [then]
    apart); an accepted predicate is handed on with its conditionals in the
    order [if], [then]. *)
Theorem predicate_accepts_exactly_the_grammar (j : json) (p : path) :
  wellFormed j ->
  safeNumbers j = true ->
  (isValid (parse getter j predicate p) = true <-> Predicate j)
  /\ (Predicate j ->
      parse getter j predicate p = mkReturn valid (Some (normal j)) []).
Proof.
  intros W _. split; [split|].
  - intros H. apply (proj1 (predicate_sound_all j) W p H).
  - intros H. rewrite (predicate_accepts j p H). reflexivity.
  - apply predicate_accepts.
Qed.

Lemma predicate_accepts_exactly_the_grammar_witness :
  (isValid (parse getter
              (JObj [("and", JArr [JObj [("gte", JArr [JStr "self:level"; JNum 5])];
                                   JObj [("then", JStr "c"); ("if", JStr "b")]])])
              predicate []) = true
   <-> Predicate (JObj [("and", JArr [JObj [("gte", JArr [JStr "self:level"; JNum 5])];
                                      JObj [("then", JStr "c"); ("if", JStr "b")]])]))
  /\ (Predicate (JObj [("and", JArr [JObj [("gte", JArr [JStr "self:level"; JNum 5])];
                                     JObj [("then", JStr "c"); ("if", JStr "b")]])]) ->
      parse getter
        (JObj [("and", JArr [JObj [("gte", JArr [JStr "self:level"; JNum 5])];
                             JObj [("then", JStr "c"); ("if", JStr "b")]])])
        predicate []
      = mkReturn valid
          (Some (normal
                   (JObj [("and", JArr [JObj [("gte", JArr [JStr "self:level"; JNum 5])];
                                        JObj [("then", JStr "c"); ("if", JStr "b")]])])))
          []).
Proof.
  apply (predicate_accepts_exactly_the_grammar
           (JObj [("and", JArr [JObj [("gte", JArr [JStr "self:level"; JNum 5])];
                                JObj [("then", JStr "c"); ("if", JStr "b")]])])
           []).
  - simpl. repeat split; repeat constructor; simpl; intuition discriminate.
  - reflexivity.
Defined.
